(** * macq: action-model extraction from noisy, partially ordered traces

    A shallow embedding of the parts of [macq] that build the AMDN
    constraint maps ([macq/extract/amdn.py]), serialise models
    ([macq/extract/model.py]), query traces ([macq/trace/trace.py]),
    dispatch an extraction ([macq/extract/extract.py]), hold states
    ([macq/trace/state.py]) and observe actions
    ([macq/observation/action_observation.py]), followed by the
    properties of these functions. *)

From stdpp Require Import gmap strings list fin_maps.
From Stdlib Require Import QArith Qcanon.

#[global] Set Warnings "-register-all".

Close Scope Qc_scope.
Close Scope Q_scope.
Open Scope nat_scope.
Local Open Scope string_scope.
Local Open Scope list_scope.

(** * Python values that escape as exceptions *)

Module Py.

(** The token classes an observation collection can declare. *)
Inductive token :=
  | NoisyPartialDisorderedParallelObservation
  | ActionObservation
  | OtherObservation (cls : string).

(** The extraction techniques of [extract.modes]. *)
Inductive technique := OBSERVER | SLAF | AMDN | ARMS | LOCM.

Inductive exn :=
  | IndexError
  | KeyError
  | ZeroDivisionError
  | AttributeError
  | TypeError
  | OSError
  | IncompatibleObservationToken (received : token) (tech : technique).

Inductive result (A : Type) :=
  | Ok (a : A)
  | Raise (e : exn).
Arguments Ok {A} a.
Arguments Raise {A} e.

#[global] Instance token_eq_dec : EqDecision token.
Proof. solve_decision. Defined.

#[global] Instance result_ret : MRet result := @Ok.

#[global] Instance result_bind : MBind result := fun _ _ k r =>
  match r with
  | Ok a => k a
  | Raise e => Raise e
  end.

(** Whether a call returned. *)
Definition is_Ok {A} (r : result A) : bool :=
  match r with
  | Ok _ => true
  | Raise _ => false
  end.

(** [l[i]] for a non-negative index. *)
Definition index {A} (l : list A) (i : nat) : result A :=
  match l !! i with
  | Some x => Ok x
  | None => Raise IndexError
  end.

(** [d[k]] on a dict. *)
Definition getitem `{Countable K} {V} (d : gmap K V) (k : K) : result V :=
  match d !! k with
  | Some v => Ok v
  | None => Raise KeyError
  end.

(** [a / b] on two ints: true division, exact on the rationals. *)
Definition truediv (a b : Z) : result Qc :=
  if decide (b = 0%Z) then Raise ZeroDivisionError
  else Ok (Q2Qc (inject_Z a) / Q2Qc (inject_Z b))%Qc.

(** [s[1:-1]]: the string without its first and its last character. *)
Definition strip_ends (s : string) : string :=
  String.string_of_list_ascii
    (removelast (tail (String.list_ascii_of_string s))).

(** A [for] loop whose body can raise: the state [s] is what the body
    mutates. *)
Fixpoint for_each {A S} (xs : list A) (body : A -> S -> result S) (s : S)
    : result S :=
  match xs with
  | [] => Ok s
  | x :: xs' => s' ← body x s; for_each xs' body s'
  end.

End Py.

Export Py.

(** * [macq/trace/trace.py] *)

Module Trace.
Section Trace.

(** [Action] and [State] live in sibling modules; what the trace queries
    use of them is equality of actions. *)
Context {Action State : Type} `{EqDecision Action}.

Record Step := { state : State; action : option Action }.

Record SAS := { pre_state : State; sas_action : Action; post_state : State }.

(** A trace is list-like: [self[i]] is [self.steps[i]]. *)
Definition Trace := list Step.

(** [step.action == action] *)
Definition acts (a : Action) (step : Step) : bool :=
  bool_decide (action step = Some a).

Fixpoint get_pre_states (self : Trace) (a : Action) : list State :=
  match self with
  | [] => []
  | step :: rest =>
      if acts a step then state step :: get_pre_states rest a
      else get_pre_states rest a
  end.

(** The loop of [get_post_states]: [rest] is what [enumerate(self)] has
    still to yield, [i] the index of its head, [post_states] the
    accumulator. *)
Fixpoint post_states_loop (self : Trace) (a : Action) (i : nat)
    (rest : list Step) (post_states : list State) : result (list State) :=
  match rest with
  | [] => Ok post_states
  | step :: rest' =>
      if acts a step then
        next ← index self (i + 1);
        post_states_loop self a (S i) rest' (post_states ++ [state next])
      else post_states_loop self a (S i) rest' post_states
  end.

Definition get_post_states (self : Trace) (a : Action) : result (list State) :=
  post_states_loop self a 0 self [].

Fixpoint sas_triples_loop (self : Trace) (a : Action) (i : nat)
    (rest : list Step) (sas_triples : list SAS) : result (list SAS) :=
  match rest with
  | [] => Ok sas_triples
  | step :: rest' =>
      if acts a step then
        next ← index self (i + 1);
        sas_triples_loop self a (S i) rest'
          (sas_triples ++ [{| pre_state := state step; sas_action := a;
                              post_state := state next |}])
      else sas_triples_loop self a (S i) rest' sas_triples
  end.

Definition get_sas_triples (self : Trace) (a : Action) : result (list SAS) :=
  sas_triples_loop self a 0 self [].

(** ** What the loops are compared with *)

(** Whether [a] is the action of the final step. *)
Definition acts_last (self : Trace) (a : Action) : bool :=
  match last self with
  | Some step => acts a step
  | None => false
  end.

(** The number of steps whose action is [a]. *)
Definition occurrences (self : Trace) (a : Action) : nat :=
  length (get_pre_states self a).

(** Each step that performs [a], paired with the step after it. *)
Fixpoint successors (self : Trace) (a : Action) : list (Step * Step) :=
  match self with
  | step :: rest =>
      match rest with
      | next :: _ =>
          if acts a step then (step, next) :: successors rest a
          else successors rest a
      | [] => []
      end
  | [] => []
  end.

Definition triple (a : Action) (p : Step * Step) : SAS :=
  {| pre_state := state p.1; sas_action := a; post_state := state p.2 |}.

End Trace.
End Trace.

(** * [macq/extract/model.py] *)

Module Model.

(** The Python values [json.dumps] can meet below a [Model]. A set and an
    instance are kept apart from the JSON-native kinds: the encoder hands
    them to its [default] hook. *)
Inductive pyobj :=
  | PyNone
  | PyBool (b : bool)
  | PyInt (z : Z)
  | PyStr (s : string)
  | PyList (items : list pyobj)
  | PyDict (items : list (string * pyobj))
  | PySet (items : list pyobj)
  | PyInstance (cls : string) (attrs : list (string * pyobj)).

(** A JSON document. *)
Inductive json :=
  | JNull
  | JBool (b : bool)
  | JNumber (z : Z)
  | JString (s : string)
  | JArray (items : list json)
  | JObject (members : list (string * json)).

(** The encoder of [json.dumps(o, default=lambda o: o.__dict__)], up to
    the layout of the text. JSON-native values are encoded as they are;
    anything else goes through the [default] hook and the value that
    returns is encoded in its place. The hook reads [o.__dict__]: an
    instance has one, a dict of its attributes; a built-in [set] has
    none, and the read raises [AttributeError]. *)
Fixpoint encode (o : pyobj) : result json :=
  let encode_list := fix encode_list (l : list pyobj) : result (list json) :=
    match l with
    | [] => Ok []
    | x :: l' => j ← encode x; js ← encode_list l'; Ok (j :: js)
    end in
  let encode_members :=
    fix encode_members (l : list (string * pyobj))
        : result (list (string * json)) :=
    match l with
    | [] => Ok []
    | (k, x) :: l' => j ← encode x; js ← encode_members l'; Ok ((k, j) :: js)
    end in
  match o with
  | PyNone => Ok JNull
  | PyBool b => Ok (JBool b)
  | PyInt z => Ok (JNumber z)
  | PyStr s => Ok (JString s)
  | PyList items => js ← encode_list items; Ok (JArray js)
  | PyDict items => ms ← encode_members items; Ok (JObject ms)
  | PySet _ => Raise AttributeError
  | PyInstance _ attrs => ms ← encode_members attrs; Ok (JObject ms)
  end.

(** What lies outside [model.py]: the text [json] writes for a document
    and reads back, opening a file for writing, and the two class
    attributes [__from_json] names inside [class Model] (there the name
    is mangled to [_Model__from_json]); looking one up can itself
    raise. *)
Class Json := {
  text_of : json -> string;
  loads : string -> result pyobj;
  open_w : string -> result unit;
  Fluent_from_json : result (pyobj -> result pyobj);
  Action_from_json : result (pyobj -> result pyobj)
}.

(** [self.fluents] and [self.actions] are sets, of [Fluent] and of
    [Action] instances; the lists give their elements. *)
Record Model := { fluents : list pyobj; actions : list pyobj }.

(** A [Model] as the encoder sees it. *)
Definition as_instance (self : Model) : pyobj :=
  PyInstance "Model"
    [("fluents", PySet (fluents self)); ("actions", PySet (actions self))].

Definition dumps `{Json} (o : pyobj) : result string :=
  j ← encode o; Ok (text_of j).

(** [serialize]: with a [filepath], the file is opened and [dump]
    encodes the model into it (what the file then holds is not
    modelled); then [dumps] encodes the model again for the returned
    string. *)
Definition serialize `{Json} (self : Model) (filepath : option string)
    : result string :=
  _ ← match filepath with
      | Some path => _ ← open_w path; dumps (as_instance self)
      | None => Ok ""
      end;
  dumps (as_instance self).

(** [data[key]] on decoded JSON. *)
Definition subscript (data : pyobj) (key : string) : result pyobj :=
  match data with
  | PyDict items =>
      match list_find (fun kv => kv.1 = key) items with
      | Some (_, kv) => Ok kv.2
      | None => Raise KeyError
      end
  | _ => Raise TypeError
  end.

(** [set(map(f, xs))] *)
Fixpoint set_map (f : pyobj -> result pyobj) (xs : list pyobj)
    : result (list pyobj) :=
  match xs with
  | [] => Ok []
  | x :: xs' => y ← f x; ys ← set_map f xs'; Ok (y :: ys)
  end.

Definition iterate (o : pyobj) : result (list pyobj) :=
  match o with
  | PyList items | PySet items => Ok items
  | PyDict items => Ok (map (fun kv => PyStr kv.1) items)
  | _ => Raise TypeError
  end.

Definition from_json `{Json} (data : pyobj) : result Model :=
  f ← Fluent_from_json;
  fs ← subscript data "fluents";
  fs ← iterate fs;
  fluents ← set_map f fs;
  a ← Action_from_json;
  acts ← subscript data "actions";
  acts ← iterate acts;
  actions ← set_map a acts;
  Ok {| fluents := fluents; actions := actions |}.

Definition deserialize `{Json} (s : string) : result Model :=
  data ← loads s; from_json data.

End Model.

(** * The [nnf] formulas [amdn.py] builds *)

Module NNF.

(** A variable is named by a string or by an [Aux] object, which the CNF
    conversion creates for the sub-formulas it abbreviates. *)
Inductive name :=
  | Name (s : string)
  | Aux (uuid : nat).

(** [Var(name, true)]; [Var(name)] is the positive literal. *)
Record Var := mkVar { vname : name; vtrue : bool }.

(** [~v] *)
Definition neg (v : Var) : Var := mkVar (vname v) (negb (vtrue v)).

(** The formulas handed to [to_CNF]. *)
Inductive NNF :=
  | Lit (v : Var)
  | And (children : list NNF)
  | Or (children : list NNF).

#[global] Instance name_eq_dec : EqDecision name.
Proof. solve_decision. Defined.

#[global] Instance name_countable : Countable name.
Proof.
  refine (inj_countable'
    (fun n => match n with Name s => inl s | Aux u => inr u end)
    (fun x => match x with inl s => Name s | inr u => Aux u end) _).
  by intros [].
Defined.

#[global] Instance Var_eq_dec : EqDecision Var.
Proof. solve_decision. Defined.

#[global] Instance Var_countable : Countable Var.
Proof.
  refine (inj_countable' (fun v => (vname v, vtrue v))
                         (fun p => mkVar p.1 p.2) _).
  by intros [].
Defined.

(** An [Or] whose children are all variables. The children of an [nnf]
    node are a frozenset and two nodes are equal when their children are,
    so a clause is the set of its literals; this is how the clauses used
    as dict keys compare. *)
Abbreviation clause := (gset Var).

(** [And[Or[Var]]], as the list its [.children] are iterated in. *)
Abbreviation CNF := (list clause).

(** [nnf.operators.implies(a, b)] is [Or({a.negate(), b})]. *)
Definition implies (a b : Var) : clause := {[neg a; b]}.

Definition is_aux (n : name) : bool :=
  match n with
  | Aux _ => true
  | Name _ => false
  end.

End NNF.

Export NNF.

(** * [macq/extract/amdn.py] *)

Module AMDN.

(** A weight in a constraint map is a number or the string ["HARD"].
    Numbers are exact rationals: the probabilities and their products,
    and the quotients of two counts. *)
Inductive weight :=
  | Num (q : Qc)
  | Str (s : string).

#[global] Instance weight_eq_dec : EqDecision weight.
Proof. solve_decision. Defined.

Definition HARD : weight := Str "HARD".

Definition WMAX : Qc := 1%Qc.

(** A constraint map: formula to weight. Every formula the module
    registers is a clause. *)
Abbreviation dict := (gmap clause weight).

(** [{**a, **b}]: the entries of [b] win. *)
Definition merge2 (a b : dict) : dict := b ∪ a.

(** What [amdn.py] takes from its surroundings: fluents and actions with
    their strings, the string of an [ActionPair], [nnf]'s [to_CNF], which
    draws fresh [Aux] names from a supply, and the WCNF encoder of
    [macq.utils.pysat], which is given a conjunction, whose children
    [nnf] keeps as a set, and the weights or [None]. An [ActionPair]
    wraps the set of its two actions. *)
Class Domain := {
  Fluent : Type;
  Action : Type;
  Fluent_eq_dec :: EqDecision Fluent;
  Fluent_countable :: Countable Fluent;
  Action_eq_dec :: EqDecision Action;
  Action_countable :: Countable Action;
  fluent_str : Fluent -> string;
  details : Action -> string;
  pair_str : gset Action -> string;
  Supply : Type;
  to_CNF : NNF -> Supply -> CNF * Supply;
  WCNF : Type;
  Decode : Type;
  Soft : Type;
  to_wcnf : gset clause -> option (list weight) -> WCNF * Decode;
  soft : WCNF -> Soft;
  extend : WCNF -> Soft -> WCNF
}.

Section AMDN.

Context `{Domain}.

(** Modelled from the spec: [ActionPair], whose class is not among the
    sources, is an unordered pair of actions used as a key of the
    probability table; [ActionPair({x, y})] is kept as the set. *)
Abbreviation ActionPair := (gset Action).

(** [State] is dict-like: fluent to truth value ([trace/state.py]). *)
Abbreviation State := (gmap Fluent bool).

(** One observation of a trace: [obs_lists[i][j]]. *)
Record Step := { state : State; action : option Action }.

(** Modelled from the spec: the observation collection, whose class is
    not among the sources, with the attributes [amdn.py] reads.
    [traces] is the collection itself, a list of lists of observations
    ([len(obs_lists)], [obs_lists[i][j]]); a Python set is given as the
    list of its elements in iteration order. *)
Record ObservationLists := {
  type : token;
  traces : list (list Step);
  all_par_act_sets : list (list (list Action));
  states : list (list State);
  propositions : list Fluent;
  actions : list Action;
  probabilities : gmap ActionPair Qc
}.

(** ** The literal factory. [rs] is [str(r)]. *)

Definition set_precond (rs : string) (act : Action) : Var :=
  mkVar (Name (strip_ends rs +:+ " is a precondition of " +:+ details act)) true.

Definition set_del (rs : string) (act : Action) : Var :=
  mkVar (Name (strip_ends rs +:+ " is deleted by " +:+ details act)) true.

Definition set_add (rs : string) (act : Action) : Var :=
  mkVar (Name (strip_ends rs +:+ " is added by " +:+ details act)) true.

Definition pre (r : Fluent) (act : Action) : Var := set_precond (fluent_str r) act.
Definition add (r : Fluent) (act : Action) : Var := set_add (fluent_str r) act.
Definition del (r : Fluent) (act : Action) : Var := set_del (fluent_str r) act.

(** ** [_or_refactor] *)

Inductive maybe_lit :=
  | IsVar (v : Var)
  | IsOr (c : clause).

Definition _or_refactor (m : maybe_lit) : clause :=
  match m with
  | IsVar v => {[v]}
  | IsOr c => c
  end.

(** ** [_extract_aux_set_weights] *)

Definition collect_aux (aux_var : gset name) (c : clause) : gset name :=
  foldl (fun aux_var var =>
           if is_aux (vname var) then {[vname var]} ∪ aux_var else aux_var)
        aux_var (elements c).

Definition _extract_aux_set_weights (cnf_formula : CNF) (constraints : dict)
    (prob_disordered : Qc) : dict :=
  let '(aux_var, constraints) :=
    foldl (fun '(aux_var, constraints) c =>
             (collect_aux aux_var c, <[c := HARD]> constraints))
          (∅, constraints) cnf_formula in
  foldl (fun constraints aux =>
           <[_or_refactor (IsVar (mkVar aux true))
               := Num (prob_disordered * WMAX)%Qc]> constraints)
        constraints (elements aux_var).

(** ** Builders run against the supply of [Aux] names *)

Definition M (A : Type) : Type := Supply -> result A * Supply.

#[global] Instance M_ret : MRet M := fun _ a s => (Ok a, s).

#[global] Instance M_bind : MBind M := fun _ _ k m s =>
  match m s with
  | (Ok a, s') => k a s'
  | (Raise e, s') => (Raise e, s')
  end.

Definition lift {A} (r : result A) : M A := fun s => (r, s).

Fixpoint for_M {A S} (xs : list A) (body : A -> S -> M S) (s : S) : M S :=
  match xs with
  | [] => mret s
  | x :: xs' => s' ← body x s; for_M xs' body s'
  end.

(** [_extract_aux_set_weights(f.to_CNF(), constraints, prob)] *)
Definition register (f : NNF) (prob : Qc) (constraints : dict) : M dict :=
  fun s => let '(cnf, s') := to_CNF f s in
           (Ok (_extract_aux_set_weights cnf constraints prob), s').

(** ** [_build_disorder_constraints] *)

Definition ordered (r : Fluent) (act_x act_y : Action) : NNF :=
  Or [ And [Lit (pre r act_x); Lit (neg (del r act_x)); Lit (del r act_y)];
       And [Lit (add r act_x); Lit (pre r act_y)];
       And [Lit (add r act_x); Lit (del r act_y)];
       And [Lit (del r act_x); Lit (add r act_y)] ].

Definition disordered (r : Fluent) (act_x act_y : Action) : NNF :=
  Or [ And [Lit (pre r act_y); Lit (neg (del r act_y)); Lit (del r act_x)];
       And [Lit (add r act_y); Lit (pre r act_x)];
       And [Lit (add r act_y); Lit (del r act_x)];
       And [Lit (del r act_y); Lit (add r act_x)] ].

(** The body of the two innermost loops, for one [act_x] and [act_y]. *)
Definition disorder_pair (obs_lists : ObservationLists)
    (act_x act_y : Action) (disorder_constraints : dict) : M dict :=
  if decide (act_x <> act_y) then
    p ← lift (getitem (probabilities obs_lists) {[act_x; act_y]});
    for_M (propositions obs_lists) (fun r d =>
      d ← register (ordered r act_x act_y) (1 - p)%Qc d;
      register (disordered r act_x act_y) p d) disorder_constraints
  else mret disorder_constraints.

(** The body of the loop over traces, up to its [return]. *)
Definition disorder_trace (obs_lists : ObservationLists)
    (par_act_sets : list (list Action)) (disorder_constraints : dict)
    : M dict :=
  for_M (seq 0 (length par_act_sets - 1)) (fun j d =>
    xs ← lift (index par_act_sets j);
    for_M xs (fun act_x d =>
      ys ← lift (index par_act_sets (j + 1));
      for_M ys (fun act_y d => disorder_pair obs_lists act_x act_y d) d) d)
    disorder_constraints.

(** The [return] is the last statement of the body of the loop over
    traces: the first iteration ends the call. With no trace the loop
    does not run and the call returns [None]. *)
Definition _build_disorder_constraints (obs_lists : ObservationLists)
    : M (option dict) :=
  match seq 0 (length (all_par_act_sets obs_lists)) with
  | [] => mret None
  | i :: _ =>
      par_act_sets ← lift (index (all_par_act_sets obs_lists) i);
      d ← disorder_trace obs_lists par_act_sets ∅;
      mret (Some d)
  end.

(** ** [_build_hard_parallel_constraints]

    The inner loop runs over [obs_lists.probabilities]: its keys, the
    action pairs. *)

Definition hard_pair (act : Action) (hard_constraints : dict) (r : ActionPair)
    : dict :=
  let rs := pair_str r in
  <[implies (set_del rs act) (set_precond rs act) := Num WMAX]>
    (<[implies (set_add rs act) (neg (set_precond rs act)) := Num WMAX]>
       hard_constraints).

Definition _build_hard_parallel_constraints (obs_lists : ObservationLists)
    : dict :=
  foldl (fun hard_constraints act =>
           foldl (hard_pair act) hard_constraints
                 (map_to_list (probabilities obs_lists)).*1)
        ∅ (actions obs_lists).

(** ** [_build_soft_parallel_constraints] *)

Definition untouched (r : Fluent) (act_1 act_2 : Action) : NNF :=
  Or [ And [Lit (neg (add r act_1)); Lit (neg (del r act_1))];
       And [Lit (neg (add r act_2)); Lit (neg (del r act_2))] ].

Definition soft_pair (obs_lists : ObservationLists) (prob : Qc -> Qc)
    (act act_x_prime : Action) (soft_constraints : dict) : M dict :=
  if decide (act <> act_x_prime) then
    p ← lift (getitem (probabilities obs_lists) {[act; act_x_prime]});
    for_M (propositions obs_lists) (fun r d =>
      register (untouched r act_x_prime act) (prob p) d) soft_constraints
  else mret soft_constraints.

Definition _build_soft_parallel_constraints (obs_lists : ObservationLists)
    : M dict :=
  soft_constraints ←
    for_M (seq 0 (length (all_par_act_sets obs_lists))) (fun i d =>
      par_act_sets ← lift (index (all_par_act_sets obs_lists) i);
      for_M (seq 0 (length par_act_sets)) (fun j d =>
        xs ← lift (index par_act_sets j);
        for_M xs (fun act_x d =>
          xs' ← lift (index par_act_sets j);
          for_M xs' (fun act_x_prime d =>
            soft_pair obs_lists (fun p => (1 - p)%Qc) act_x act_x_prime d) d)
          d) d) ∅;
  for_M (seq 0 (length (all_par_act_sets obs_lists))) (fun i d =>
    par_act_sets ← lift (index (all_par_act_sets obs_lists) i);
    for_M (seq 0 (length par_act_sets - 1)) (fun j d =>
      ys ← lift (index par_act_sets (j + 1));
      for_M ys (fun act_y d =>
        xs' ← lift (index par_act_sets j);
        for_M xs' (fun act_x_prime d =>
          soft_pair obs_lists (fun p => p) act_y act_x_prime d) d) d) d)
    soft_constraints.

Definition _build_parallel_constraints (obs_lists : ObservationLists)
    : M dict :=
  let hard := _build_hard_parallel_constraints obs_lists in
  soft_constraints ← _build_soft_parallel_constraints obs_lists;
  mret (merge2 hard soft_constraints).

(** ** The noise constraints *)

(** [[f for f in state if state[f]]] *)
Definition true_prop (s : State) : list Fluent :=
  (filter (fun kv => kv.2 = true) (map_to_list s)).*1.

Definition _calculate_all_r_occ (obs_lists : ObservationLists) : Z :=
  foldl (fun all_occ trace =>
           foldl (fun all_occ step =>
                    (all_occ + Z.of_nat (length (true_prop (state step))))%Z)
                 all_occ trace)
        0%Z (traces obs_lists).

Definition _set_up_occurrences_dict (obs_lists : ObservationLists)
    : gmap Action (gmap Fluent Z) :=
  foldl (fun occurrences a =>
           <[a := foldl (fun row r => <[r := 0%Z]> row) ∅
                        (propositions obs_lists)]> occurrences)
        ∅ (actions obs_lists).

(** [occurrences[a][r] += 1], where [a] is the action of an observation,
    possibly [None]. *)
Definition count (a : option Action) (r : Fluent)
    (occurrences : gmap Action (gmap Fluent Z))
    : result (gmap Action (gmap Fluent Z)) :=
  match a with
  | None => Raise KeyError
  | Some a =>
      row ← getitem occurrences a;
      n ← getitem row r;
      Ok (<[a := <[r := (n + 1)%Z]> row]> occurrences)
  end.

(** The last loop of Rules 6 and 8: [occurrences] is iterated in the
    order its keys were inserted in, that of [obs_lists.actions], and
    each row in that of [obs_lists.propositions]. [lit r a] is the
    literal the rule rewards. *)
Definition threshold_body (lit : Fluent -> Action -> Var)
    (all_occ occ_threshold : Z) (a : Action) (row : gmap Fluent Z)
    (r : Fluent) (noise_constraints : dict) : result dict :=
  occ_r ← getitem row r;
  if decide (occ_r > occ_threshold)%Z then
    w ← truediv occ_r all_occ;
    Ok (<[_or_refactor (IsVar (lit r a)) := Num w]> noise_constraints)
  else Ok noise_constraints.

Definition threshold_loop (obs_lists : ObservationLists)
    (lit : Fluent -> Action -> Var)
    (occurrences : gmap Action (gmap Fluent Z)) (all_occ occ_threshold : Z)
    : result dict :=
  for_each (actions obs_lists) (fun a noise_constraints =>
    row ← getitem occurrences a;
    for_each (propositions obs_lists)
             (threshold_body lit all_occ occ_threshold a row)
             noise_constraints) ∅.

Definition _noise_constraints_6 (obs_lists : ObservationLists)
    (all_occ occ_threshold : Z) : result dict :=
  occurrences ←
    for_each (seq 0 (length (traces obs_lists))) (fun i occurrences =>
      trace ← index (traces obs_lists) i;
      for_each (seq 0 (length trace - 1)) (fun j occurrences =>
        next ← index trace (j + 1);
        for_each (true_prop (state next)) (fun r occurrences =>
          step ← index trace j;
          count (action step) r occurrences) occurrences) occurrences)
      (_set_up_occurrences_dict obs_lists);
  threshold_loop obs_lists (fun r a => neg (del r a)) occurrences
                 all_occ occ_threshold.

Definition _noise_constraints_7 (obs_lists : ObservationLists) (all_occ : Z)
    : result dict :=
  let occurrences : gmap Fluent Z :=
    foldl (fun occurrences r => <[r := 0%Z]> occurrences) ∅
          (propositions obs_lists) in
  occurrences ←
    for_each (states obs_lists) (fun trace occurrences =>
      for_each trace (fun state occurrences =>
        for_each (true_prop state) (fun r occurrences =>
          n ← getitem occurrences r;
          Ok (<[r := (n + 1)%Z]> occurrences)) occurrences) occurrences)
      occurrences;
  for_each (seq 0 (length (all_par_act_sets obs_lists)))
    (fun i noise_constraints_7 =>
      par_act_sets ← index (all_par_act_sets obs_lists) i;
      states ← index (states obs_lists) i;
      for_each (seq 0 (length par_act_sets)) (fun j noise_constraints_7 =>
        after ← index states (j + 1);
        for_each (true_prop after) (fun r noise_constraints_7 =>
          before ← index states j;
          held ← getitem before r;
          if negb held then
            n ← getitem occurrences r;
            w ← truediv n all_occ;
            acts ← index par_act_sets j;
            Ok (<[list_to_set (map (add r) acts) := Num w]>
                  noise_constraints_7)
          else Ok noise_constraints_7) noise_constraints_7)
        noise_constraints_7) ∅.

Definition _noise_constraints_8 (obs_lists : ObservationLists)
    (all_occ occ_threshold : Z) : result dict :=
  occurrences ←
    for_each (seq 0 (length (traces obs_lists))) (fun i occurrences =>
      trace ← index (traces obs_lists) i;
      for_each (seq 0 (length trace)) (fun j occurrences =>
        step ← index trace j;
        for_each (true_prop (state step)) (fun r occurrences =>
          step ← index trace j;
          count (action step) r occurrences) occurrences) occurrences)
      (_set_up_occurrences_dict obs_lists);
  threshold_loop obs_lists pre occurrences all_occ occ_threshold.

Definition _build_noise_constraints (obs_lists : ObservationLists)
    (occ_threshold : Z) : result dict :=
  let all_occ := _calculate_all_r_occ obs_lists in
  n6 ← _noise_constraints_6 obs_lists all_occ occ_threshold;
  n7 ← _noise_constraints_7 obs_lists all_occ;
  n8 ← _noise_constraints_8 obs_lists all_occ occ_threshold;
  Ok (merge2 (merge2 n6 n7) n8).

(** ** Aggregation *)

(** [{**a, **b, **c}] evaluates and unpacks its parts from left to
    right; unpacking [None] raises [TypeError]. *)
Definition _set_all_constraints (obs_lists : ObservationLists)
    (occ_threshold : Z) : M dict :=
  disorder ← _build_disorder_constraints obs_lists;
  disorder ← lift (match disorder with
                   | Some d => Ok d
                   | None => Raise TypeError
                   end);
  parallel ← _build_parallel_constraints obs_lists;
  noise ← lift (_build_noise_constraints obs_lists occ_threshold);
  mret (merge2 (merge2 disorder parallel) noise).

(** The first loop of [_solve_constraints]: the formulas whose weight is
    ["HARD"]. *)
Definition hard_constraints_of (constraints : dict) : list clause :=
  (filter (fun cw => cw.2 = HARD) (map_to_list constraints)).*1.

(** Its second loop: [del constraints[c]] for each of them. *)
Definition without (hard_constraints : list clause) (constraints : dict)
    : dict :=
  foldl (fun constraints c => delete c constraints) constraints
        hard_constraints.

(** [And(constraints.keys())] and [And(hard_constraints)] hold their
    children as sets; [list(constraints.values())] lists the weights of
    the entries left, in the source in the order the entries were
    inserted, here in the order of [map_to_list]: the properties below
    say which weights are listed, not in which order. The second
    [decode] replaces the first. *)
Definition _solve_constraints (obs_lists : ObservationLists)
    (occ_threshold : Z) : M (WCNF * Decode) :=
  constraints ← _set_all_constraints obs_lists occ_threshold;
  let hard_constraints := hard_constraints_of constraints in
  let constraints := without hard_constraints constraints in
  let '(wcnf, decode) :=
    to_wcnf (dom constraints) (Some (map_to_list constraints).*2) in
  let '(hard_wcnf, decode) := to_wcnf (list_to_set hard_constraints) None in
  let wcnf := extend wcnf (soft hard_wcnf) in
  mret (wcnf, decode).

(** [AMDN.__new__]: the value of [solve] is dropped and the call returns
    [None]. *)
Definition new (obs_lists : ObservationLists) (occ_threshold : Z) : M unit :=
  if decide (type obs_lists <> NoisyPartialDisorderedParallelObservation)
  then lift (Raise (IncompatibleObservationToken (type obs_lists) Py.AMDN))
  else
    solve ← _solve_constraints obs_lists occ_threshold;
    mret tt.

(** ** What the properties are stated with *)

(** The one-literal disjunction of the variable named [n]. *)
Definition unit_of (n : name) : clause := {[mkVar n true]}.

(** [n] is an [Aux] name and names a variable of some clause of the CNF. *)
Definition occurs_aux (cnf_formula : CNF) (n : name) : Prop :=
  is_aux n = true /\
  exists c v, c ∈ cnf_formula /\ v ∈ c /\ vname v = n.

(** The two hypotheses one pair of actions registers for a proposition,
    each with the probability it is registered with. *)
Definition hypotheses (r : Fluent) (act_x act_y : Action) (p : Qc)
    : list (NNF * Qc) :=
  [(ordered r act_x act_y, (1 - p)%Qc); (disordered r act_x act_y, p)].

(** Registering a list of formulas in turn. *)
Definition register_all (regs : list (NNF * Qc)) (constraints : dict)
    : M dict :=
  for_M regs (fun '(f, prob) d => register f prob d) constraints.

(** The hypotheses of a pair of actions, of a trace. *)
Definition pair_hypotheses (obs_lists : ObservationLists)
    (act_x act_y : Action) : list (NNF * Qc) :=
  if decide (act_x <> act_y) then
    match probabilities obs_lists !! ({[act_x; act_y]} : gset Action) with
    | Some p =>
        flat_map (fun r => hypotheses r act_x act_y p)
                 (propositions obs_lists)
    | None => []
    end
  else [].

Definition trace_hypotheses (obs_lists : ObservationLists)
    (par_act_sets : list (list Action)) : list (NNF * Qc) :=
  flat_map (fun j =>
    match par_act_sets !! j, par_act_sets !! (j + 1) with
    | Some xs, Some ys =>
        flat_map (fun act_x =>
          flat_map (fun act_y => pair_hypotheses obs_lists act_x act_y) ys) xs
    | _, _ => []
    end) (seq 0 (length par_act_sets - 1)).

(** Every pair of distinct actions from adjacent parallel action sets
    has an entry in the probability table. *)
Definition probabilities_cover (obs_lists : ObservationLists)
    (par_act_sets : list (list Action)) : Prop :=
  forall j xs ys act_x act_y,
    par_act_sets !! j = Some xs -> par_act_sets !! (j + 1) = Some ys ->
    act_x ∈ xs -> act_y ∈ ys -> act_x <> act_y ->
    is_Some (probabilities obs_lists !! ({[act_x; act_y]} : gset Action)).

(** The CNFs a list of registrations meets, each with the weight it is
    registered with: the formulas are converted in turn, each from the
    supply of names the conversion before it has left. *)
Fixpoint conversions (regs : list (NNF * Qc)) (s : Supply)
    : list (CNF * Qc) :=
  match regs with
  | [] => []
  | (f, prob) :: regs' =>
      ((to_CNF f s).1, prob) :: conversions regs' (to_CNF f s).2
  end.

Definition supply_after (regs : list (NNF * Qc)) (s : Supply) : Supply :=
  foldl (fun s '(f, _) => (to_CNF f s).2) s regs.

(** The map after a list of converted formulas has been registered. *)
Definition registered (cnfs : list (CNF * Qc)) (constraints : dict) : dict :=
  foldl (fun constraints '(cnf_formula, prob) =>
           _extract_aux_set_weights cnf_formula constraints prob)
        constraints cnfs.

(** The auxiliary names of a CNF, as the first loop of
    [_extract_aux_set_weights] collects them. *)
Definition aux_of (cnf_formula : CNF) : gset name :=
  foldl collect_aux ∅ cnf_formula.

(** The auxiliary names of a list of CNFs are fresh: no two of the CNFs
    share one, and no clause of any is the unit clause of an auxiliary
    variable of any. *)
Fixpoint apart (cnfs : list CNF) : bool :=
  match cnfs with
  | [] => true
  | cnf_formula :: rest =>
      forallb (fun other => bool_decide (aux_of cnf_formula ## aux_of other))
              rest
      && apart rest
  end.

Definition no_aux_unit (cnfs : list CNF) : bool :=
  forallb (fun cnf_formula =>
    forallb (fun other =>
      bool_decide (set_Forall (fun n => unit_of n ∉ cnf_formula)
                              (aux_of other))) cnfs) cnfs.

Definition fresh_names (cnfs : list CNF) : bool :=
  apart cnfs && no_aux_unit cnfs.

(** The numbers among the weights of a constraint map, and their sum. *)
Definition soft_weights (constraints : dict) : list Qc :=
  omap (fun cw : clause * weight =>
          match cw.2 with
          | Num q => Some q
          | Str _ => None
          end) (map_to_list constraints).

Definition total (qs : list Qc) : Qc := foldr Qcplus 0%Qc qs.

(** Every entry of the probability table is a probability. *)
Definition probabilities_in_range (obs_lists : ObservationLists) : Prop :=
  map_Forall (fun _ p => (0 <= p)%Qc /\ (p <= 1)%Qc) (probabilities obs_lists).

(** Every entry of the probability table lies strictly between 0 and
    1. *)
Definition probabilities_inside (obs_lists : ObservationLists) : Prop :=
  map_Forall (fun _ p => (0 < p)%Qc /\ (p < 1)%Qc) (probabilities obs_lists).

(** A weight is the hard sentinel or a number that [good] holds of: one
    that is not negative, one that is positive. *)
Definition hard_or (good : Qc -> Prop) (w : weight) : Prop :=
  w = HARD \/ exists q, w = Num q /\ good q.

Definition hard_or_not_negative (w : weight) : Prop :=
  hard_or (fun q => (0 <= q)%Qc) w.

Definition hard_or_positive (w : weight) : Prop :=
  hard_or (fun q => (0 < q)%Qc) w.

(** No observation and no state of the collection has a true
    proposition. *)
Definition no_true_proposition (obs_lists : ObservationLists) : Prop :=
  (forall trace step, trace ∈ traces obs_lists -> step ∈ trace ->
     true_prop (state step) = []) /\
  (forall sts s, sts ∈ states obs_lists -> s ∈ sts -> true_prop s = []).

(** Every trace comes with one state before and one after each of its
    parallel action sets. *)
Definition states_cover_sets (obs_lists : ObservationLists) : Prop :=
  forall i sets, all_par_act_sets obs_lists !! i = Some sets ->
    exists sts, states obs_lists !! i = Some sts /\ length sets < length sts.

(** The literals [lit r a] of the collection's propositions and actions
    are pairwise distinct. *)
Definition literals_distinct (obs_lists : ObservationLists)
    (lit : Fluent -> Action -> Var) : Prop :=
  forall r a r' a',
    r ∈ propositions obs_lists -> a ∈ actions obs_lists ->
    r' ∈ propositions obs_lists -> a' ∈ actions obs_lists ->
    lit r a = lit r' a' -> r = r' /\ a = a'.

(** The constraints a call produces: the formulas of the map it returns,
    none when it raises. *)
Definition produced (r : result dict) : gset clause :=
  match r with
  | Ok d => dom d
  | Raise _ => ∅
  end.

Definition returns {A} (r : result A) : Prop := exists a, r = Ok a.

End AMDN.

Abbreviation weights_ok good :=
  (map_Forall (fun (_ : clause) w => hard_or good w)).

End AMDN.

(** * A small planning domain

    Fluents and actions named by strings, a Tseitin conversion that draws
    its [Aux] names from a counter, and a list-based stand-in for the WCNF
    encoder; the observation collections below are built over it. *)

Module Sample.

Import AMDN.

(** [process_node] of a Tseitin conversion: the variable standing for
    [f], the clauses defining it, and the next free [Aux] name. *)
Fixpoint process_node (f : NNF) (n : nat) : Var * CNF * nat :=
  let process_children :=
    fix process_children (cs : list NNF) (n : nat) : list Var * CNF * nat :=
      match cs with
      | [] => ([], [], n)
      | c :: cs' =>
          let '(v, cl1, n1) := process_node c n in
          let '(vs, cl2, n2) := process_children cs' n1 in
          (v :: vs, cl1 ++ cl2, n2)
      end in
  match f with
  | Lit v => (v, [], n)
  | And cs =>
      let '(vs, cl, n') := process_children cs n in
      let aux := mkVar (Aux n') true in
      (aux,
       cl ++ list_to_set (aux :: map neg vs)
          :: map (fun c => {[neg aux; c]}) vs,
       S n')
  | Or cs =>
      let '(vs, cl, n') := process_children cs n in
      let aux := mkVar (Aux n') true in
      (aux,
       cl ++ list_to_set (neg aux :: vs)
          :: map (fun c => {[neg c; aux]}) vs,
       S n')
  end.

(** The formula itself is required to hold: a disjunction becomes the
    clause of the variables of its children, anything else the unit
    clause of its variable. *)
Definition tseitin (f : NNF) (n : nat) : CNF * nat :=
  match f with
  | Or cs =>
      let '(vs, cl, n') :=
        foldl (fun '(vs, cl, n) c =>
                 let '(v, cl1, n1) := process_node c n in
                 (vs ++ [v], cl ++ cl1, n1))
              ([], [], n) cs in
      (cl ++ [list_to_set vs], n')
  | _ => let '(v, cl, n') := process_node f n in (cl ++ [{[v]}], n')
  end.

(** A WCNF as two lists: clauses given with weights are soft, clauses
    given without are hard. *)
Record wcnf := { hard_part : list clause; soft_part : list (clause * weight) }.

Definition encode (cs : gset clause) (ws : option (list weight))
    : wcnf * unit :=
  match ws with
  | Some ws => ({| hard_part := []; soft_part := zip (elements cs) ws |}, tt)
  | None => ({| hard_part := elements cs; soft_part := [] |}, tt)
  end.

#[global] Instance blocks : Domain := {|
  Fluent := string;
  Action := string;
  fluent_str r := "(" +:+ r +:+ ")";
  details a := a;
  pair_str p := "{" +:+ String.concat ", " (elements p) +:+ "}";
  Supply := nat;
  to_CNF := tseitin;
  WCNF := wcnf;
  Decode := unit;
  Soft := list (clause * weight);
  to_wcnf := encode;
  soft := soft_part;
  extend w s := {| hard_part := hard_part w; soft_part := soft_part w ++ s |}
|}.

Definition holding : gmap string bool := {["holding a" := true]}.
Definition released : gmap string bool := {["holding a" := false]}.

(** One trace of one step: [pick] is taken while ["holding a"] holds. *)
Definition one_step : ObservationLists := {|
  type := NoisyPartialDisorderedParallelObservation;
  traces := [[ {| state := holding; action := Some "pick" |} ]];
  all_par_act_sets := [[ ["pick"] ]];
  states := [[ holding; holding ]];
  propositions := ["holding a"];
  actions := ["pick"];
  probabilities := ∅
|}.

(** The same trace with the fluent false throughout. *)
Definition nothing_true : ObservationLists := {|
  type := NoisyPartialDisorderedParallelObservation;
  traces := [[ {| state := released; action := Some "pick" |} ]];
  all_par_act_sets := [[ ["pick"] ]];
  states := [[ released; released ]];
  propositions := ["holding a"];
  actions := ["pick"];
  probabilities := ∅
|}.

(** One trace of two parallel action sets, [pick] then [drop], judged
    disordered with probability 3/10. *)
Definition pick_drop : ObservationLists := {|
  type := NoisyPartialDisorderedParallelObservation;
  traces := [[ {| state := released; action := Some "pick" |};
               {| state := holding; action := Some "drop" |};
               {| state := released; action := None |} ]];
  all_par_act_sets := [[ ["pick"]; ["drop"] ]];
  states := [[ released; holding; released ]];
  propositions := ["holding a"];
  actions := ["pick"; "drop"];
  probabilities := {[ ({["pick"; "drop"]} : gset string) := Q2Qc (3 # 10) ]}
|}.

(** The same, with the recorded order taken as certain. *)
Definition certain_order : ObservationLists := {|
  type := NoisyPartialDisorderedParallelObservation;
  traces := traces pick_drop;
  all_par_act_sets := all_par_act_sets pick_drop;
  states := states pick_drop;
  propositions := propositions pick_drop;
  actions := actions pick_drop;
  probabilities := {[ ({["pick"; "drop"]} : gset string) := 0%Qc ]}
|}.

(** Two traces: a lone [pick], then the trace of [pick_drop]. *)
Definition two_traces : ObservationLists := {|
  type := NoisyPartialDisorderedParallelObservation;
  traces := [ {| state := released; action := Some "pick" |};
              {| state := holding; action := None |} ] :: traces pick_drop;
  all_par_act_sets := [ ["pick"] ] :: all_par_act_sets pick_drop;
  states := [ released; holding ] :: states pick_drop;
  propositions := propositions pick_drop;
  actions := actions pick_drop;
  probabilities := probabilities pick_drop
|}.

(** A collection that declares another token. *)
Definition action_only : ObservationLists := {|
  type := ActionObservation;
  traces := [];
  all_par_act_sets := [];
  states := [];
  propositions := [];
  actions := ["pick"];
  probabilities := ∅
|}.

End Sample.


(** * Exceptions beyond the built-in ones above *)

Module Raised.

(** What the calls below can raise: a built-in exception as above, a
    [ValueError], or one of the exception classes [macq] defines. *)
Inductive raised :=
  | Builtin (e : exn)
  | ValueError (message : string)
  | InvalidCostRange (message : string)
  | InvalidQueryParameter (cls key : string).

Inductive outcome (A : Type) :=
  | Return (a : A)
  | Throw (e : raised).
Arguments Return {A} a.
Arguments Throw {A} e.

#[global] Instance outcome_ret : MRet outcome := @Return.

#[global] Instance outcome_bind : MBind outcome := fun _ _ k r =>
  match r with
  | Return a => k a
  | Throw e => Throw e
  end.

Definition of_result {A} (r : result A) : outcome A :=
  match r with
  | Ok a => Return a
  | Raise e => Throw (Builtin e)
  end.

Definition returned {A} (r : outcome A) : bool :=
  match r with
  | Return _ => true
  | Throw _ => false
  end.

End Raised.

Export Raised.

(** * [macq/trace/trace.py]: the attributes and the costs *)

Module TraceObject.
Section TraceObject.

(** [cost a] is [a.cost]. *)
Context {Action State : Type} `{EqDecision Action} (cost : Action -> Z).

Abbreviation Step := (@Trace.Step Action State).

(** A [Trace] with the two attributes the cost queries read. *)
Record TraceObject := { steps : list Step; num_steps : Z }.

(** [__init__]: [num_steps] is computed here, once. *)
Definition init (steps : list Step) : TraceObject :=
  {| steps := steps; num_steps := Z.of_nat (length steps) |}.

(** [append], and [add_steps] (which is [extend]): the list grows,
    [num_steps] is not assigned. *)
Definition append (self : TraceObject) (item : Step) : TraceObject :=
  {| steps := steps self ++ [item]; num_steps := num_steps self |}.

Definition add_steps (self : TraceObject) (more : list Step) : TraceObject :=
  {| steps := steps self ++ more; num_steps := num_steps self |}.

(** [step.action.cost]: [None] has no attribute [cost]. *)
Definition action_cost (step : Step) : outcome Z :=
  match Trace.action step with
  | Some a => Return (cost a)
  | None => Throw (Builtin AttributeError)
  end.

Fixpoint total_loop (rest : list Step) (sum : Z) : outcome Z :=
  match rest with
  | [] => Return sum
  | step :: rest' => c ← action_cost step; total_loop rest' (sum + c)%Z
  end.

Definition get_total_cost (self : TraceObject) : outcome Z :=
  total_loop (steps self) 0%Z.

(** The loop of [get_cost_range] over [range(start - 1, end)]. *)
Fixpoint range_loop (self : TraceObject) (range : list nat) (sum : Z)
    : outcome Z :=
  match range with
  | [] => Return sum
  | i :: range' =>
      step ← of_result (index (steps self) i);
      c ← action_cost step;
      range_loop self range' (sum + c)%Z
  end.

Definition get_cost_range (self : TraceObject) (start end_ : Z) : outcome Z :=
  if decide (start < 1 \/ end_ < 1 \/ start > num_steps self
             \/ end_ > num_steps self)%Z
  then Throw (InvalidCostRange
                "Range supplied goes out of the feasible range.")
  else if decide (start > end_)%Z
  then Throw (InvalidCostRange
                "The start boundary must be smaller than the end boundary.")
  else range_loop self (seq (Z.to_nat (start - 1))
                            (Z.to_nat (end_ - (start - 1)))) 0%Z.

(** [get_usage]: the count of the steps that perform [action], over
    [num_steps]. *)
Definition get_usage (self : TraceObject) (a : Action) : outcome Qc :=
  let sum := foldl (fun sum step =>
                      if Trace.acts a step then (sum + 1)%Z else sum)
                   0%Z (steps self) in
  of_result (truediv sum (num_steps self)).

(** ** What the costs are compared with *)

Definition has_action (step : Step) : bool :=
  match Trace.action step with
  | Some _ => true
  | None => false
  end.

(** The costs of the actions of a list of steps, added up. *)
Definition costs (l : list Step) : Z :=
  foldr (fun step acc =>
           match Trace.action step with
           | Some a => (cost a + acc)%Z
           | None => acc
           end) 0%Z l.

(** The steps [start] to [end_], counted from 1. *)
Definition steps_between (self : TraceObject) (start end_ : Z) : list Step :=
  take (Z.to_nat (end_ - (start - 1)))
       (drop (Z.to_nat (start - 1)) (steps self)).

End TraceObject.
End TraceObject.

(** * A small trace *)

Module SampleTrace.

(** Actions are named by strings and cost the length of their name;
    states are numbered. The last step has no action. *)
Definition name_cost (a : string) : Z := Z.of_nat (String.length a).

Definition walk : list (@Trace.Step string nat) :=
  [ {| Trace.state := 0; Trace.action := Some "pick" |};
    {| Trace.state := 1; Trace.action := Some "move" |};
    {| Trace.state := 2; Trace.action := Some "pick" |};
    {| Trace.state := 3; Trace.action := None |} ].

End SampleTrace.

(** * More observation collections *)

Module Collections.

Import AMDN Sample.

(** A collection of the right token that holds no trace. *)
Definition no_traces : ObservationLists := {|
  type := NoisyPartialDisorderedParallelObservation;
  traces := [];
  all_par_act_sets := [];
  states := [];
  propositions := ["holding a"];
  actions := ["pick"];
  probabilities := ∅
|}.

(** [pick_drop] without its probability table. *)
Definition unknown_order : ObservationLists := {|
  type := NoisyPartialDisorderedParallelObservation;
  traces := traces pick_drop;
  all_par_act_sets := all_par_act_sets pick_drop;
  states := states pick_drop;
  propositions := propositions pick_drop;
  actions := actions pick_drop;
  probabilities := ∅
|}.

(** The first trace of [two_traces] and its last observation, which has
    no action while ["holding a"] holds. *)
Definition last_observation : @Step blocks :=
  {| state := holding; action := None |}.

Definition lone_pick : list (@Step blocks) :=
  [ {| state := released; action := Some "pick" |}; last_observation ].

(** The first observation of the trace of [pick_drop]. *)
Definition picking : @Step blocks :=
  {| state := released; action := Some "pick" |}.

End Collections.

(** * [macq/extract/extract.py] *)

Module Extract.

(** The values the keyword arguments carry here: booleans and
    integers. *)
Inductive value :=
  | VBool (b : bool)
  | VInt (z : Z).

(** A [bool] is an [int]. *)
Definition as_int (v : value) : Z :=
  match v with
  | VBool b => Z.b2z b
  | VInt z => z
  end.

Abbreviation kwargs := (list (string * value)).

(** The keyword arguments of a call to a function with the parameters
    [params], none of them with a default, and without [**kwargs];
    [filled] are the parameters the call gives by position. A keyword
    that names no parameter and a parameter given twice raise
    [TypeError]. *)
Fixpoint bind_keywords (params filled : list string)
    (bound : gmap string value) (kw : kwargs)
    : outcome (gmap string value) :=
  match kw with
  | [] => Return bound
  | (name, v) :: kw' =>
      if decide (name ∈ params) then
        if decide (name ∈ filled \/ is_Some (bound !! name))
        then Throw (Builtin TypeError)
        else bind_keywords params filled (<[name := v]> bound) kw'
      else Throw (Builtin TypeError)
  end.

Section Extract.

Import AMDN.

Context `{Domain} {Model : Type}.

(** A technique runs against the supply of names and returns a model,
    or [None], or raises. *)
Definition Call : Type := Supply -> outcome (option Model) * Supply.

(** The techniques whose classes lie outside these sources, called with
    the collection and the keyword arguments. *)
Context (observer slaf arms locm : ObservationLists -> kwargs -> Call).

(** [AMDN(obs_lists, **kw)]: the arguments are bound to the parameters
    of [AMDN.__new__(cls, obs_lists, occ_threshold)], a parameter left
    without value raises [TypeError], and [__new__] returns [None]. *)
Definition call_AMDN (obs_lists : ObservationLists) (kw : kwargs) : Call :=
  fun s =>
    match bind_keywords ["cls"; "obs_lists"; "occ_threshold"]
                        ["cls"; "obs_lists"] ∅ kw with
    | Throw e => (Throw e, s)
    | Return bound =>
        match bound !! "occ_threshold" with
        | None => (Throw (Builtin TypeError), s)
        | Some occ_threshold =>
            match new obs_lists (as_int occ_threshold) s with
            | (Ok _, s') => (Return None, s')
            | (Raise e, s') => (Throw (Builtin e), s')
            end
        end
    end.

(** [Extract.__new__]; [len(obs_tracelist)] is the number of traces. *)
Definition Extract (obs_tracelist : ObservationLists) (mode : technique)
    (debug : bool) (kw : kwargs) : Call :=
  if decide (length (traces obs_tracelist) = 0) then
    fun s =>
      (Throw (ValueError "ObservationList is empty. Nothing to extract from."),
       s)
  else
    let kw := ("debug", VBool debug) :: kw in
    match mode with
    | OBSERVER => observer obs_tracelist kw
    | SLAF => slaf obs_tracelist kw
    | Py.AMDN => call_AMDN obs_tracelist kw
    | ARMS => arms obs_tracelist kw
    | LOCM => locm obs_tracelist kw
    end.

End Extract.
End Extract.

(** * [macq/trace/state.py] *)

Module StateObject.
Section StateObject.

(** [Fluent] lives in a sibling module; what [State] uses of it is
    equality and the attribute [name]. *)
Context {Fluent : Type} `{EqDecision Fluent} (name : Fluent -> string).

(** A [dict] from fluents to booleans, in insertion order. *)
Definition pydict : Type := list (Fluent * bool).

Definition dict_getitem (d : pydict) (k : Fluent) : result bool :=
  match list_find (fun kv => kv.1 = k) d with
  | Some (_, kv) => Ok kv.2
  | None => Raise KeyError
  end.

(** [d[k] = v]: the value of a key already present is replaced where it
    is, a new key goes to the end. *)
Definition dict_setitem (d : pydict) (k : Fluent) (v : bool) : pydict :=
  if decide (k ∈ d.*1)
  then (fun kv => if decide (kv.1 = k) then (kv.1, v) else kv) <$> d
  else d ++ [(k, v)].

(** The dicts of a program, by address. *)
Definition heap : Type := list pydict.

Definition read (h : heap) (l : nat) : pydict := default [] (h !! l).

(** The dict [{}] that is the default of [fluents] in [__init__] is
    made once, when the function is defined. *)
Definition default_fluents : nat := 0.

Definition heap0 : heap := [[]].

(** A [State] holds a reference to its dict. *)
Record State := { fluents : nat }.

Definition init (fluents : option nat) : State :=
  {| fluents := default default_fluents fluents |}.

Definition __setitem__ (self : State) (key : Fluent) (value : bool)
    (h : heap) : heap :=
  <[fluents self := dict_setitem (read h (fluents self)) key value]> h.

Definition __getitem__ (self : State) (key : Fluent) (h : heap)
    : result bool :=
  dict_getitem (read h (fluents self)) key.

(** [key in state] is [state.fluents[key]]. *)
Definition __contains__ (self : State) (key : Fluent) (h : heap)
    : result bool :=
  dict_getitem (read h (fluents self)) key.

Definition has_key (self : State) (k : Fluent) (h : heap) : bool :=
  bool_decide (k ∈ (read h (fluents self)).*1).

Definition keys (self : State) (h : heap) : list Fluent :=
  (read h (fluents self)).*1.

(** [copy] returns a new dict with the same entries. *)
Definition copy (self : State) (h : heap) : nat * heap :=
  (length h, h ++ [read h (fluents self)]).

(** [clone] makes a [State] of the dict of this one. *)
Definition clone (self : State) : State := init (Some (fluents self)).

(** [holds]: the value of the fluent of that name, [None] when there is
    none. *)
Definition holds (self : State) (fluent : string) (h : heap)
    : result (option bool) :=
  let fluents : gmap string Fluent :=
    foldl (fun fluents f => <[name f := f]> fluents) ∅ (keys self h) in
  match fluents !! fluent with
  | Some f => b ← __getitem__ self f h; Ok (Some b)
  | None => Ok None
  end.

End StateObject.
End StateObject.

(** * [macq/observation/action_observation.py] *)

Module ActionObservation.
Section ActionObservation.

Context {Fluent Action StepState : Type} `{EqDecision Fluent}
        (name : Fluent -> string).

(** Of [Action]: [clone] and [details]. *)
Context (action_clone : Action -> Action) (details : Action -> string).

(** The step an observation is made of. *)
Record Step := {
  step_index : nat;
  step_state : StepState;
  step_action : option Action
}.

Record ActionObservation := {
  index : nat;
  state : option StateObject.State;
  action : option Action
}.

Definition init (step : Step) : ActionObservation :=
  {| index := step_index step;
     state := None;
     action := action_clone <$> step_action step |}.

(** [value] is a string or [None]; the result is a boolean, or the
    [None] that [State.holds] can return. *)
Definition _matches (self : ActionObservation) (key : string)
    (value : option string) (h : StateObject.heap (Fluent := Fluent))
    : outcome (option bool) :=
  if decide (key = "action") then
    match action self with
    | None => Return (Some (bool_decide (value = None)))
    | Some a => Return (Some (bool_decide (Some (details a) = value)))
    end
  else if decide (key = "fluent_holds") then
    match state self with
    | None => Return (Some (bool_decide (value = None)))
    | Some st =>
        match value with
        | Some fluent => of_result (StateObject.holds name st fluent h)
        | None => Return None
        end
    end
  else Throw (InvalidQueryParameter "ActionObservation" key).

End ActionObservation.
End ActionObservation.

(** * What the further properties are stated with *)

Module Conditions.

Import Model.

(** Whether a [set] is reachable in a Python value. *)
Fixpoint has_set (o : pyobj) : bool :=
  match o with
  | PySet _ => true
  | PyList items => existsb has_set items
  | PyDict items => existsb (fun kv => has_set kv.2) items
  | PyInstance _ attrs => existsb (fun kv => has_set kv.2) attrs
  | _ => false
  end.

(** The two loops of the encoder, as functions of their own. *)
Fixpoint encode_list (l : list pyobj) : result (list json) :=
  match l with
  | [] => Ok []
  | x :: l' => j ← encode x; js ← encode_list l'; Ok (j :: js)
  end.

Fixpoint encode_members (l : list (string * pyobj))
    : result (list (string * json)) :=
  match l with
  | [] => Ok []
  | (k, x) :: l' => j ← encode x; js ← encode_members l'; Ok ((k, j) :: js)
  end.

(** The encoder returns for [o] when no set is reachable in it, and
    raises [AttributeError] when one is. *)
Definition accepts (o : pyobj) : Prop :=
  match encode o with
  | Ok _ => has_set o = false
  | Raise e => e = AttributeError /\ has_set o = true
  end.

Section Conditions.

Import AMDN.

Context `{Domain}.

(** Every pair of distinct actions of one parallel action set has an
    entry in the probability table. *)
Definition probabilities_cover_within (obs_lists : ObservationLists)
    (par_act_sets : list (list Action)) : Prop :=
  forall j xs act_x act_x_prime,
    par_act_sets !! j = Some xs ->
    act_x ∈ xs -> act_x_prime ∈ xs -> act_x <> act_x_prime ->
    is_Some (probabilities obs_lists
               !! ({[act_x; act_x_prime]} : gset Action)).

(** The observation [step] has an action, one of the collection's, and
    [r] is one of the collection's propositions. *)
Definition counted (obs_lists : ObservationLists) (step : Step) (r : Fluent)
    : Prop :=
  exists a, action step = Some a /\ a ∈ actions obs_lists /\
            r ∈ propositions obs_lists.

(** The table of counts has rows for actions of the collection only,
    and entries for its propositions only. *)
Definition tables_fit (obs_lists : ObservationLists)
    (occurrences : gmap Action (gmap Fluent Z)) : Prop :=
  forall a row, occurrences !! a = Some row ->
    a ∈ actions obs_lists /\
    forall r, is_Some (row !! r) -> r ∈ propositions obs_lists.

End Conditions.
End Conditions.

(** * Properties *)

Lemma bind_Ok {A B} (a : A) (k : A -> result B) : mbind k (Ok a) = k a.
Proof. reflexivity. Qed.

Lemma bind_Raise {A B} (e : exn) (k : A -> result B) :
  mbind k (Raise e) = Raise e.
Proof. reflexivity. Qed.

(** ** Maps built by a loop of insertions *)

Lemma lookup_foldl_insert_in `{Countable K} {V A} (key : A -> K) (w : V)
    (xs : list A) : forall (m : gmap K V) x,
  x ∈ xs ->
  foldl (fun m x => <[key x := w]> m) m xs !! key x = Some w.
Proof.
  induction xs as [|y xs IH] using rev_ind; intros m x Hx.
  - by apply not_elem_of_nil in Hx.
  - rewrite foldl_app. simpl. apply elem_of_app in Hx as [Hx|Hx].
    + destruct (decide (key y = key x)) as [->|Hne].
      * by rewrite lookup_insert_eq.
      * rewrite lookup_insert_ne by done. by apply IH.
    + apply list_elem_of_singleton in Hx as ->. by rewrite lookup_insert_eq.
Qed.

Lemma lookup_foldl_insert_out `{Countable K} {V A} (key : A -> K) (w : V)
    (xs : list A) : forall (m : gmap K V) c,
  (forall x, x ∈ xs -> key x <> c) ->
  foldl (fun m x => <[key x := w]> m) m xs !! c = m !! c.
Proof.
  induction xs as [|y xs IH]; intros m c Hout; [done|].
  simpl. rewrite IH.
  - apply lookup_insert_ne. apply Hout. by left.
  - intros x Hx. apply Hout. by right.
Qed.

(** ** Loops that can raise *)

Lemma bind_Ok_inv {A B} (r : result A) (k : A -> result B) (b : B) :
  mbind k r = Ok b -> exists a, r = Ok a /\ k a = Ok b.
Proof. destruct r as [a|e]; [|done]. intros Hk. by exists a. Qed.

Lemma for_each_unchanged {A S} (xs : list A) (body : A -> S -> result S)
    (s : S) :
  (forall x, x ∈ xs -> body x s = Ok s) -> for_each xs body s = Ok s.
Proof.
  induction xs as [|x xs IH]; intros Hbody; [done|].
  simpl. rewrite Hbody by (by left). rewrite bind_Ok.
  apply IH. intros y Hy. apply Hbody. by right.
Qed.

Lemma for_each_invariant {A S} (P : S -> Prop) (xs : list A)
    (body : A -> S -> result S) :
  (forall x s s', x ∈ xs -> P s -> body x s = Ok s' -> P s') ->
  forall s s', P s -> for_each xs body s = Ok s' -> P s'.
Proof.
  induction xs as [|x xs IH]; intros Hbody s s' Hs Hrun.
  - simpl in Hrun. by injection Hrun as <-.
  - simpl in Hrun. apply bind_Ok_inv in Hrun as (s1 & Hx & Hrun).
    eapply IH; [|exact (Hbody x s s1 ltac:(by left) Hs Hx)|exact Hrun].
    intros y t t' Hy. apply Hbody. by right.
Qed.

(** Two loops over one list, whose bodies keep two states related. *)
Lemma for_each_related {A S1 S2} (R : S1 -> S2 -> Prop) (xs : list A)
    (body1 : A -> S1 -> result S1) (body2 : A -> S2 -> result S2) :
  (forall x s1 s2 s1', x ∈ xs -> R s1 s2 -> body1 x s1 = Ok s1' ->
     exists s2', body2 x s2 = Ok s2' /\ R s1' s2') ->
  forall s1 s2 s1', R s1 s2 -> for_each xs body1 s1 = Ok s1' ->
    exists s2', for_each xs body2 s2 = Ok s2' /\ R s1' s2'.
Proof.
  induction xs as [|x xs IH]; intros Hbody s1 s2 s1' HR Hrun.
  - simpl in Hrun. injection Hrun as <-. by exists s2.
  - simpl in Hrun. apply bind_Ok_inv in Hrun as (t1 & Hx & Hrun).
    destruct (Hbody x s1 s2 t1 ltac:(by left) HR Hx) as (t2 & Hx2 & HR').
    simpl. rewrite Hx2, bind_Ok.
    eapply IH; [|exact HR'|exact Hrun].
    intros y u1 u2 u1' Hy. apply Hbody. by right.
Qed.

(** A loop whose rounds keep [P] and move the state along [R]: every
    round has run from a state [P] holds of, to a state from which [R]
    leads to the final one. *)
Lemma for_each_reaches {A S} (P : S -> Prop) (R : S -> S -> Prop)
    (xs : list A) (body : A -> S -> result S) :
  (forall s, R s s) -> (forall s1 s2 s3, R s1 s2 -> R s2 s3 -> R s1 s3) ->
  (forall x s s', x ∈ xs -> P s -> body x s = Ok s' -> P s' /\ R s s') ->
  forall s s', P s -> for_each xs body s = Ok s' ->
    P s' /\ R s s' /\
    forall x, x ∈ xs -> exists s1 s2, P s1 /\ body x s1 = Ok s2 /\ R s2 s'.
Proof.
  intros Hrefl Htrans.
  induction xs as [|y xs IH]; intros Hbody s s' Hs Hrun.
  - simpl in Hrun. injection Hrun as <-. split; [done|]. split; [done|].
    intros x Hx. by apply not_elem_of_nil in Hx.
  - simpl in Hrun. apply bind_Ok_inv in Hrun as (s1 & Hy & Hrun).
    destruct (Hbody y s s1 ltac:(by left) Hs Hy) as [Hs1 HR1].
    destruct (IH (fun x t t' Hx => Hbody x t t' ltac:(by right)) s1 s' Hs1 Hrun)
      as (Hs' & HR & Hall).
    split; [done|]. split; [by apply (Htrans s s1 s')|].
    intros x Hx. apply elem_of_cons in Hx as [->|Hx].
    + by exists s, s1.
    + by apply Hall.
Qed.

Lemma index_seq {A} (l : list A) (i : nat) :
  i ∈ seq 0 (length l) -> exists x, index l i = Ok x /\ l !! i = Some x.
Proof.
  intros Hi. apply elem_of_seq in Hi.
  destruct (lookup_lt_is_Some_2 l i ltac:(lia)) as [x Hx].
  exists x. unfold index. by rewrite Hx.
Qed.

(** ** Trace queries *)

Module TraceFacts.
Section TraceFacts.

Import Trace.

Context {Action State : Type} `{EqDecision Action}.

Implicit Types (self rest : list (@Step Action State)) (a : Action).

Lemma acts_last_cons step next rest a :
  acts_last (step :: next :: rest) a = acts_last (next :: rest) a.
Proof. unfold acts_last. by rewrite last_cons_cons. Qed.

Lemma index_after {A} (before : list A) (x : A) (rest : list A) :
  index (before ++ x :: rest) (length before + 1) =
  match rest with
  | next :: _ => Ok next
  | [] => Raise IndexError
  end.
Proof.
  unfold index.
  replace (before ++ x :: rest) with ((before ++ [x]) ++ rest)
    by (by rewrite <- app_assoc).
  replace (length before + 1) with (length (before ++ [x]) + 0)
    by (rewrite length_app; simpl; lia).
  rewrite lookup_app_r by lia.
  replace (length (before ++ [x]) + 0 - length (before ++ [x])) with 0 by lia.
  by destruct rest.
Qed.

Lemma post_states_loop_spec rest : forall before a acc,
  post_states_loop (before ++ rest) a (length before) rest acc =
  if acts_last rest a then Raise IndexError
  else Ok (acc ++ map (fun p => state p.2) (successors rest a)).
Proof.
  induction rest as [|step rest IH]; intros before a acc; simpl.
  - by rewrite app_nil_r.
  - specialize (IH (before ++ [step]) a).
    rewrite <- app_assoc, length_app in IH. simpl in IH.
    replace (length before + 1) with (S (length before)) in IH by lia.
    destruct (acts a step) eqn:Ha.
    + rewrite index_after. destruct rest as [|next rest'].
      * unfold acts_last. simpl. by rewrite Ha.
      * rewrite bind_Ok, IH, acts_last_cons.
        destruct (acts_last (next :: rest') a); [done|].
        simpl. by rewrite <- app_assoc.
    + rewrite IH. destruct rest as [|next rest'].
      * unfold acts_last. simpl. rewrite Ha. by rewrite app_nil_r.
      * by rewrite acts_last_cons.
Qed.

Lemma sas_triples_loop_spec rest : forall before a acc,
  sas_triples_loop (before ++ rest) a (length before) rest acc =
  if acts_last rest a then Raise IndexError
  else Ok (acc ++ map (triple a) (successors rest a)).
Proof.
  induction rest as [|step rest IH]; intros before a acc; simpl.
  - by rewrite app_nil_r.
  - specialize (IH (before ++ [step]) a).
    rewrite <- app_assoc, length_app in IH. simpl in IH.
    replace (length before + 1) with (S (length before)) in IH by lia.
    destruct (acts a step) eqn:Ha.
    + rewrite index_after. destruct rest as [|next rest'].
      * unfold acts_last. simpl. by rewrite Ha.
      * rewrite bind_Ok, IH, acts_last_cons.
        destruct (acts_last (next :: rest') a); [done|].
        simpl. by rewrite <- app_assoc.
    + rewrite IH. destruct rest as [|next rest'].
      * unfold acts_last. simpl. rewrite Ha. by rewrite app_nil_r.
      * by rewrite acts_last_cons.
Qed.

Lemma successors_count self a :
  acts_last self a = false ->
  length (successors self a) = occurrences self a.
Proof.
  unfold occurrences.
  induction self as [|step rest IH]; [done|].
  destruct rest as [|next rest'].
  - unfold acts_last. simpl. by intros ->.
  - rewrite acts_last_cons. intros Hlast. specialize (IH Hlast).
    change (get_pre_states (step :: next :: rest') a) with
      (if acts a step then state step :: get_pre_states (next :: rest') a
       else get_pre_states (next :: rest') a).
    change (successors (step :: next :: rest') a) with
      (if acts a step then (step, next) :: successors (next :: rest') a
       else successors (next :: rest') a).
    destruct (acts a step); [|exact IH].
    change (S (length (successors (next :: rest') a)) =
            S (length (get_pre_states (next :: rest') a))).
    by rewrite IH.
Qed.

(** C10. [get_post_states] and [get_sas_triples] return one entry per
    occurrence of the action, the state of the step after each, exactly
    when the action is not the action of the final step; when it is, the
    lookup of the successor at [i + 1] is out of range and both raise
    [IndexError]. *)
Theorem post_states_need_a_successor self a :
  if acts_last self a then
    get_post_states self a = Raise IndexError /\
    get_sas_triples self a = Raise IndexError
  else
    get_post_states self a = Ok (map (fun p => state p.2) (successors self a)) /\
    get_sas_triples self a = Ok (map (triple a) (successors self a)) /\
    length (successors self a) = occurrences self a.
Proof.
  unfold get_post_states, get_sas_triples.
  pose proof (post_states_loop_spec self [] a []) as Hp.
  pose proof (sas_triples_loop_spec self [] a []) as Hs.
  simpl in Hp, Hs. rewrite Hp, Hs.
  destruct (acts_last self a) eqn:Hlast; [done|].
  split; [done|]. split; [done|]. by apply successors_count.
Qed.

End TraceFacts.
End TraceFacts.

(** ** Model serialisation *)

Module ModelFacts.
Section ModelFacts.

Import Model.

Context `{Json}.

Lemma encode_model (self : Model) :
  encode (as_instance self) = Raise AttributeError.
Proof. reflexivity. Qed.

(** C4. What the code does instead: serialising a model never returns.
    The encoder reaches the set held in [fluents], hands it to the
    [default] hook, and the hook's read of [__dict__] raises
    [AttributeError]; with a [filepath] the call raises as well, that
    error or the one of opening the file. The round trip through
    [deserialize] therefore raises for every model. *)
Theorem serialize_raises (self : Model) (filepath : option string) :
  serialize self None = Raise AttributeError /\
  is_Ok (serialize self filepath) = false /\
  (s ← serialize self None; deserialize s) = Raise AttributeError /\
  is_Ok (s ← serialize self filepath; deserialize s) = false.
Proof.
  assert (serialize self None = Raise AttributeError) as Hnone.
  { unfold serialize, dumps. by rewrite encode_model. }
  assert (exists e, serialize self filepath = Raise e) as [e Hany].
  { destruct filepath as [path|]; [|by eexists].
    unfold serialize, dumps. rewrite encode_model.
    destruct (open_w path); by eexists. }
  by rewrite Hnone, Hany.
Qed.

End ModelFacts.
End ModelFacts.

(** ** The AMDN constraint builders *)

Module AMDNFacts.
Section AMDNFacts.

Import AMDN.

Context `{Domain}.

Implicit Types (obs_lists : ObservationLists) (d : dict) (c : clause).

(** *** The hard parallel constraints *)

Lemma hard_pair_weights act d (r : gset Action) :
  map_Forall (fun _ w => w = Num WMAX) d ->
  map_Forall (fun _ w => w = Num WMAX) (hard_pair act d r).
Proof.
  intros Hd. unfold hard_pair. by repeat apply map_Forall_insert_2.
Qed.

Lemma hard_parallel_weights obs_lists :
  map_Forall (fun _ w => w = Num WMAX)
             (_build_hard_parallel_constraints obs_lists).
Proof.
  unfold _build_hard_parallel_constraints.
  generalize (map_to_list (probabilities obs_lists)).*1. intros pairs.
  assert (forall acts d, map_Forall (fun _ w => w = Num WMAX) d ->
    map_Forall (fun _ w => w = Num WMAX)
      (foldl (fun hard act => foldl (hard_pair act) hard pairs) d acts))
    as Hloop.
  { induction acts as [|act acts IH]; intros d Hd; [done|].
    simpl. apply IH. clear IH. revert d Hd.
    induction pairs as [|r pairs IH]; intros d Hd; [done|].
    simpl. apply IH. by apply hard_pair_weights. }
  apply Hloop. apply map_Forall_empty.
Qed.

Lemma hard_constraints_of_numbers d :
  map_Forall (fun _ w => w = Num WMAX) d -> hard_constraints_of d = [].
Proof.
  intros Hd. unfold hard_constraints_of.
  assert (Forall (fun cw : clause * weight => cw.2 <> HARD) (map_to_list d))
    as Hall.
  { apply Forall_forall. intros [c w] Hin.
    apply elem_of_map_to_list in Hin. apply Hd in Hin. by subst. }
  induction Hall as [|cw l Hcw _ IH]; [done|].
  rewrite filter_cons. by destruct (decide (cw.2 = HARD)).
Qed.

(** C1. What the code does instead: the inner loop of the parallel
    builder runs over the keys of the probability table, so with no
    action pair it registers nothing, whatever the actions and the
    propositions; and what it registers carries the number [WMAX], not
    ["HARD"], so the aggregator's first loop moves none of it into the
    hard-constraint list. *)
Theorem hard_parallel_misses_propositions ty tr sets sts props acts :
  _build_hard_parallel_constraints
    {| type := ty; traces := tr; all_par_act_sets := sets; states := sts;
       propositions := props; actions := acts; probabilities := ∅ |} = ∅ /\
  forall obs_lists,
    hard_constraints_of (_build_hard_parallel_constraints obs_lists) = [].
Proof.
  split.
  - unfold _build_hard_parallel_constraints. simpl.
    rewrite map_to_list_empty. simpl.
    induction acts as [|act acts IH]; [done|]. exact IH.
  - intros obs_lists. apply hard_constraints_of_numbers.
    apply hard_parallel_weights.
Qed.

(** *** The disorder constraints stop at the first trace *)

(** C2. What the code does instead: the builder returns from inside its
    loop over traces, so its result is that of the first trace alone;
    the parallel action sets of every later trace are never read, and an
    empty first trace yields the empty map. *)
Theorem disorder_reads_first_trace_only ty tr t ts sts props acts probs s :
  _build_disorder_constraints
    {| type := ty; traces := tr; all_par_act_sets := t :: ts; states := sts;
       propositions := props; actions := acts; probabilities := probs |} s =
  _build_disorder_constraints
    {| type := ty; traces := tr; all_par_act_sets := [t]; states := sts;
       propositions := props; actions := acts; probabilities := probs |} s /\
  _build_disorder_constraints
    {| type := ty; traces := tr; all_par_act_sets := [] :: ts; states := sts;
       propositions := props; actions := acts; probabilities := probs |} s =
  (Ok (Some ∅), s).
Proof. split; reflexivity. Qed.

(** *** The token check *)

(** C9. A collection whose declared token is not the noisy, partial,
    disordered, parallel one makes [AMDN.__new__] raise
    [IncompatibleObservationToken] with the received token and the AMDN
    technique; the supply of auxiliary names is left as it was, so no
    formula was converted and nothing was built. *)
Theorem new_rejects_other_tokens obs_lists (occ_threshold : Z) (s : Supply) :
  type obs_lists <> NoisyPartialDisorderedParallelObservation ->
  new obs_lists occ_threshold s =
  (Raise (IncompatibleObservationToken (type obs_lists) Py.AMDN), s).
Proof.
  intros Hty. unfold new. by destruct (decide _).
Qed.


(** *** Registering a converted formula *)

Lemma elem_of_collect_aux (c : clause) (aux_var : gset name) (n : name) :
  n ∈ collect_aux aux_var c <->
  n ∈ aux_var \/ (is_aux n = true /\ exists v, v ∈ c /\ vname v = n).
Proof.
  unfold collect_aux.
  assert (forall (vs : list Var) (A : gset name),
    n ∈ foldl (fun A var => if is_aux (vname var) then {[vname var]} ∪ A else A)
              A vs <->
    n ∈ A \/ (is_aux n = true /\ exists v, v ∈ vs /\ vname v = n)) as Hloop.
  { induction vs as [|v vs IH]; intros A; simpl.
    - split; [by left|]. intros [?|(_ & v & Hv & _)]; [done|].
      by apply not_elem_of_nil in Hv.
    - rewrite IH. split.
      + intros [Hn|(Haux & v' & Hv' & Hname)].
        * destruct (is_aux (vname v)) eqn:Hv; [|by left].
          apply elem_of_union in Hn as [Hn|Hn]; [|by left].
          apply elem_of_singleton in Hn as ->.
          right. split; [done|]. exists v. split; [by left|done].
        * right. split; [done|]. exists v'. split; [by right|done].
      + intros [Hn|(Haux & v' & Hv' & Hname)].
        * left. destruct (is_aux (vname v)); [|done].
          apply elem_of_union. by right.
        * apply elem_of_cons in Hv' as [->|Hv'].
          -- left. rewrite Hname, Haux. apply elem_of_union. left.
             by apply elem_of_singleton.
          -- right. split; [done|]. by exists v'. }
  rewrite Hloop. by setoid_rewrite elem_of_elements.
Qed.

Lemma elem_of_collected (cnf_formula : CNF) : forall (aux_var : gset name) n,
  n ∈ foldl collect_aux aux_var cnf_formula <->
  n ∈ aux_var \/ occurs_aux cnf_formula n.
Proof.
  unfold occurs_aux.
  induction cnf_formula as [|c cnf IH]; intros A n; simpl.
  - split; [by left|]. intros [?|(_ & c & v & Hc & _)]; [done|].
    by apply not_elem_of_nil in Hc.
  - rewrite IH, elem_of_collect_aux. split.
    + intros [[Hn|(Haux & v & Hv & Hname)]|(Haux & c' & v & Hc' & Hv & Hname)].
      * by left.
      * right. split; [done|]. exists c, v. split; [by left|done].
      * right. split; [done|]. exists c', v. split; [by right|done].
    + intros [Hn|(Haux & c' & v & Hc' & Hv & Hname)]; [by left; left|].
      apply elem_of_cons in Hc' as [->|Hc'].
      * left. right. split; [done|]. by exists v.
      * right. split; [done|]. by exists c', v.
Qed.

Lemma first_loop_split (cnf_formula : CNF) :
  forall (aux_var : gset name) d,
  foldl (fun '(aux_var, constraints) c =>
           (collect_aux aux_var c, <[c := HARD]> constraints))
        (aux_var, d) cnf_formula =
  (foldl collect_aux aux_var cnf_formula,
   foldl (fun d c => <[c := HARD]> d) d cnf_formula).
Proof.
  induction cnf_formula as [|c cnf IH]; intros A d; [done|].
  simpl. by rewrite IH.
Qed.

Lemma extract_aux_set_weights_eq (cnf_formula : CNF) d (prob : Qc) :
  _extract_aux_set_weights cnf_formula d prob =
  foldl (fun d n => <[unit_of n := Num (prob * WMAX)%Qc]> d)
        (foldl (fun d c => <[c := HARD]> d) d cnf_formula)
        (elements (foldl collect_aux ∅ cnf_formula)).
Proof. unfold _extract_aux_set_weights. by rewrite first_loop_split. Qed.

Lemma elem_of_collected_elements (cnf_formula : CNF) n :
  n ∈ elements (foldl collect_aux ∅ cnf_formula) <-> occurs_aux cnf_formula n.
Proof.
  rewrite elem_of_elements, elem_of_collected.
  split; [|by right]. intros [Hn|Hn]; [|done].
  by apply not_elem_of_empty in Hn.
Qed.

Lemma aux_units_are_soft (cnf_formula : CNF) d (prob : Qc) n :
  occurs_aux cnf_formula n ->
  _extract_aux_set_weights cnf_formula d prob !! unit_of n
  = Some (Num (prob * WMAX)%Qc).
Proof.
  intros Hn. rewrite extract_aux_set_weights_eq.
  apply (lookup_foldl_insert_in unit_of). by apply elem_of_collected_elements.
Qed.

Lemma elem_of_aux_of (cnf_formula : CNF) n :
  n ∈ aux_of cnf_formula <-> occurs_aux cnf_formula n.
Proof.
  unfold aux_of. rewrite <- elem_of_elements.
  apply elem_of_collected_elements.
Qed.

Lemma clauses_are_hard (cnf_formula : CNF) d (prob : Qc) c :
  c ∈ cnf_formula ->
  (forall n, occurs_aux cnf_formula n -> c <> unit_of n) ->
  _extract_aux_set_weights cnf_formula d prob !! c = Some HARD.
Proof.
  intros Hc Hunit. rewrite extract_aux_set_weights_eq.
  rewrite (lookup_foldl_insert_out unit_of).
  - by apply (lookup_foldl_insert_in id).
  - intros n Hn Heq. apply (Hunit n); [|done].
    by apply elem_of_collected_elements.
Qed.

Lemma others_are_kept (cnf_formula : CNF) d (prob : Qc) c :
  c ∉ cnf_formula ->
  (forall n, occurs_aux cnf_formula n -> c <> unit_of n) ->
  _extract_aux_set_weights cnf_formula d prob !! c = d !! c.
Proof.
  intros Hc Hunit. rewrite extract_aux_set_weights_eq.
  rewrite (lookup_foldl_insert_out unit_of).
  - apply (lookup_foldl_insert_out id). intros c' Hc' Heq.
    unfold id in Heq. by subst.
  - intros n Hn Heq. apply (Hunit n); [|done].
    by apply elem_of_collected_elements.
Qed.

(** C6. Registering a formula is handing its CNF to
    [_extract_aux_set_weights]. For a CNF none of whose clauses is the
    unit clause of one of its own auxiliary variables, as the CNFs of
    the builders' formulas are, the map then holds every clause of the
    CNF with ["HARD"] and the unit clause of every auxiliary variable of
    the CNF with [prob * WMAX], the weight the formula came with
    ([WMAX] is 1); every other formula of the map is as it was. *)
Theorem converted_clauses_hard_auxiliaries_soft (cnf_formula : CNF) d
    (prob : Qc) :
  (forall n, occurs_aux cnf_formula n -> unit_of n ∉ cnf_formula) ->
  (forall c, c ∈ cnf_formula ->
     _extract_aux_set_weights cnf_formula d prob !! c = Some HARD) /\
  (forall n, occurs_aux cnf_formula n ->
     _extract_aux_set_weights cnf_formula d prob !! unit_of n
     = Some (Num (prob * WMAX)%Qc)) /\
  (prob * WMAX = prob)%Qc /\
  (forall c, c ∉ cnf_formula ->
     (forall n, occurs_aux cnf_formula n -> c <> unit_of n) ->
     _extract_aux_set_weights cnf_formula d prob !! c = d !! c) /\
  (forall f s, (to_CNF f s).1 = cnf_formula ->
     register f prob d s
     = (Ok (_extract_aux_set_weights cnf_formula d prob), (to_CNF f s).2)).
Proof.
  intros Hfresh. split; [|split; [|split; [|split]]].
  - intros c Hc. apply clauses_are_hard; [done|].
    intros n Hn ->. by apply (Hfresh n).
  - intros n. apply aux_units_are_soft.
  - unfold WMAX. apply Qcmult_1_r.
  - intros c. apply others_are_kept.
  - intros f s Hcnf. unfold register.
    destruct (to_CNF f s) as [cnf s1]. simpl in Hcnf. by subst.
Qed.

(** *** The occurrence thresholds of Rules 6 and 8 *)

Section Threshold.

Variables (obs_lists : ObservationLists) (lit : Fluent -> Action -> Var).
Variables (occurrences : gmap Action (gmap Fluent Z)) (all_occ : Z).

Local Abbreviation inner := (threshold_body lit all_occ).

Lemma inner_raised t1 t2 a row r d1 d2 d1' :
  (t1 <= t2)%Z -> dom d2 ⊆ dom d1 ->
  inner t1 a row r d1 = Ok d1' ->
  exists d2', inner t2 a row r d2 = Ok d2' /\ dom d2' ⊆ dom d1'.
Proof.
  intros Ht Hdom Hrun. unfold threshold_body in *.
  apply bind_Ok_inv in Hrun as (occ_r & Hrow & Hrun).
  rewrite Hrow, bind_Ok.
  destruct (decide (occ_r > t2)%Z) as [Hgt2|Hle2].
  - destruct (decide (occ_r > t1)%Z) as [_|Hle1]; [|lia].
    apply bind_Ok_inv in Hrun as (w & Hw & Hrun). injection Hrun as <-.
    rewrite Hw, bind_Ok. eexists. split; [done|].
    rewrite !dom_insert_L. by apply union_mono_l.
  - exists d2. split; [done|].
    destruct (decide (occ_r > t1)%Z).
    + apply bind_Ok_inv in Hrun as (w & Hw & Hrun). injection Hrun as <-.
      rewrite dom_insert_L. by apply union_subseteq_r'.
    + by injection Hrun as <-.
Qed.

Lemma inner_lowered t1 t2 a row r d1 d2 d2' :
  (t1 <= t2)%Z -> all_occ <> 0%Z -> dom d2 ⊆ dom d1 ->
  inner t2 a row r d2 = Ok d2' ->
  exists d1', inner t1 a row r d1 = Ok d1' /\ dom d2' ⊆ dom d1'.
Proof.
  intros Ht Hocc Hdom Hrun. unfold threshold_body in *.
  apply bind_Ok_inv in Hrun as (occ_r & Hrow & Hrun).
  rewrite Hrow, bind_Ok.
  assert (forall n, truediv n all_occ =
                    Ok (Q2Qc (inject_Z n) / Q2Qc (inject_Z all_occ))%Qc) as Hdiv.
  { intros n. unfold truediv. by destruct (decide (all_occ = 0%Z)). }
  destruct (decide (occ_r > t1)%Z) as [Hgt1|Hle1].
  - rewrite Hdiv, bind_Ok. eexists. split; [done|].
    destruct (decide (occ_r > t2)%Z).
    + rewrite Hdiv, bind_Ok in Hrun. injection Hrun as <-.
      rewrite !dom_insert_L. by apply union_mono_l.
    + injection Hrun as <-. rewrite dom_insert_L. by apply union_subseteq_r'.
  - destruct (decide (occ_r > t2)%Z); [lia|].
    injection Hrun as <-. by exists d1.
Qed.

Lemma inner_without_total t a row r d d' :
  all_occ = 0%Z -> d = ∅ -> inner t a row r d = Ok d' -> d' = ∅.
Proof.
  intros Hocc -> Hrun. unfold threshold_body in *.
  apply bind_Ok_inv in Hrun as (occ_r & Hrow & Hrun).
  destruct (decide (occ_r > t)%Z).
  - unfold truediv in Hrun. by destruct (decide (all_occ = 0%Z)).
  - by injection Hrun as <-.
Qed.

Lemma threshold_loop_raised t1 t2 d1 :
  (t1 <= t2)%Z ->
  threshold_loop obs_lists lit occurrences all_occ t1 = Ok d1 ->
  exists d2, threshold_loop obs_lists lit occurrences all_occ t2 = Ok d2 /\
             dom d2 ⊆ dom d1.
Proof.
  intros Ht. unfold threshold_loop.
  apply (for_each_related (fun d1 d2 : dict => dom d2 ⊆ dom d1)); [|done].
  intros a e1 e2 e1' _ Hdom Hrun.
  apply bind_Ok_inv in Hrun as (row & Hrow & Hrun). rewrite Hrow, bind_Ok.
  revert Hrun.
  apply (for_each_related (fun d1 d2 : dict => dom d2 ⊆ dom d1)); [|done].
  intros r f1 f2 f1' _. by apply inner_raised.
Qed.

Lemma threshold_loop_lowered t1 t2 d2 :
  (t1 <= t2)%Z -> all_occ <> 0%Z ->
  threshold_loop obs_lists lit occurrences all_occ t2 = Ok d2 ->
  exists d1, threshold_loop obs_lists lit occurrences all_occ t1 = Ok d1 /\
             dom d2 ⊆ dom d1.
Proof.
  intros Ht Hocc. unfold threshold_loop.
  apply (for_each_related (fun d2 d1 : dict => dom d2 ⊆ dom d1)); [|done].
  intros a e2 e1 e2' _ Hdom Hrun.
  apply bind_Ok_inv in Hrun as (row & Hrow & Hrun). rewrite Hrow, bind_Ok.
  revert Hrun.
  apply (for_each_related (fun d2 d1 : dict => dom d2 ⊆ dom d1)); [|done].
  intros r f2 f1 f2' _ Hf. by apply inner_lowered.
Qed.

Lemma threshold_loop_without_total t d :
  all_occ = 0%Z ->
  threshold_loop obs_lists lit occurrences all_occ t = Ok d -> d = ∅.
Proof.
  intros Hocc. unfold threshold_loop.
  apply (for_each_invariant (fun d : dict => d = ∅)); [|done].
  intros a e e' _ He Hrun.
  apply bind_Ok_inv in Hrun as (row & Hrow & Hrun). revert Hrun.
  apply (for_each_invariant (fun d : dict => d = ∅)); [|done].
  intros r f f' _. by apply inner_without_total.
Qed.

Lemma threshold_loop_monotone t1 t2 :
  (t1 <= t2)%Z ->
  produced (threshold_loop obs_lists lit occurrences all_occ t2)
  ⊆ produced (threshold_loop obs_lists lit occurrences all_occ t1) /\
  (returns (threshold_loop obs_lists lit occurrences all_occ t1) ->
   returns (threshold_loop obs_lists lit occurrences all_occ t2)).
Proof.
  intros Ht. split.
  - destruct (threshold_loop obs_lists lit occurrences all_occ t2)
      as [d2|e] eqn:H2; [|set_solver].
    destruct (decide (all_occ = 0%Z)) as [Hocc|Hocc].
    + apply (threshold_loop_without_total _ _ Hocc) in H2 as ->.
      simpl. rewrite dom_empty_L. set_solver.
    + destruct (threshold_loop_lowered t1 t2 d2 Ht Hocc H2) as (d1 & -> & Hd).
      done.
  - intros [d1 H1].
    destruct (threshold_loop_raised t1 t2 d1 Ht H1) as (d2 & H2 & _).
    by exists d2.
Qed.

(** Every entry of the map the loop returns was written for some
    action and proposition, with the quotient of their count. *)
Lemma threshold_loop_entries t d :
  threshold_loop obs_lists lit occurrences all_occ t = Ok d ->
  map_Forall (fun c w => exists a r row occ_r q,
    a ∈ actions obs_lists /\ r ∈ propositions obs_lists /\
    occurrences !! a = Some row /\ row !! r = Some occ_r /\
    truediv occ_r all_occ = Ok q /\ c = {[lit r a]} /\ w = Num q) d.
Proof.
  unfold threshold_loop.
  apply for_each_invariant; [|apply map_Forall_empty].
  intros a e e' Ha He Hrun.
  apply bind_Ok_inv in Hrun as (row & Hrow & Hrun). revert Hrun.
  apply for_each_invariant; [|done]. intros r f f' Hr Hf Hrun.
  unfold threshold_body in Hrun.
  apply bind_Ok_inv in Hrun as (occ_r & Hocc & Hrun).
  destruct (decide (occ_r > t)%Z); [|by injection Hrun as <-].
  apply bind_Ok_inv in Hrun as (q & Hq & Hrun). injection Hrun as <-.
  apply map_Forall_insert_2; [|done].
  exists a, r, row, occ_r, q. repeat split; try done.
  - unfold getitem in Hrow. by destruct (occurrences !! a) as [?|]; simplify_eq.
  - unfold getitem in Hocc. by destruct (row !! r) as [?|]; simplify_eq.
Qed.

Lemma threshold_loop_same_weights t1 t2 d1 d2 :
  literals_distinct obs_lists lit ->
  threshold_loop obs_lists lit occurrences all_occ t1 = Ok d1 ->
  threshold_loop obs_lists lit occurrences all_occ t2 = Ok d2 ->
  dom d2 ⊆ dom d1 -> d2 ⊆ d1.
Proof.
  intros Hinj H1 H2 Hdom. apply map_subseteq_spec. intros c w2 Hc2.
  assert (c ∈ dom d1) as Hc1 by (apply Hdom; by apply elem_of_dom_2 in Hc2).
  apply elem_of_dom in Hc1 as [w1 Hc1]. rewrite Hc1. f_equal.
  destruct (threshold_loop_entries t1 d1 H1 c w1 Hc1)
    as (a & r & row & occ_r & q & Ha & Hr & Hrow & Hocc & Hq & -> & ->).
  destruct (threshold_loop_entries t2 d2 H2 _ w2 Hc2)
    as (a' & r' & row' & occ_r' & q' & Ha' & Hr' & Hrow' & Hocc' & Hq' & Hc
        & ->).
  apply singleton_inj in Hc.
  destruct (Hinj r a r' a' Hr Ha Hr' Ha' Hc) as [<- <-].
  rewrite Hrow in Hrow'. injection Hrow' as <-.
  rewrite Hocc in Hocc'. injection Hocc' as <-.
  rewrite Hq in Hq'. by injection Hq' as <-.
Qed.

End Threshold.

Lemma produced_bind {A} (r : result A) (k1 k2 : A -> result dict) :
  (forall a, produced (k2 a) ⊆ produced (k1 a)) ->
  produced (mbind k2 r) ⊆ produced (mbind k1 r).
Proof. intros Hk. destruct r as [a|e]; [apply Hk|done]. Qed.

Lemma returns_bind {A B} (r : result A) (k1 k2 : A -> result B) :
  (forall a, returns (k1 a) -> returns (k2 a)) ->
  returns (mbind k1 r) -> returns (mbind k2 r).
Proof. intros Hk. destruct r as [a|e]; [apply Hk|done]. Qed.

Lemma noise_same_weights {A} (r : result A) (k1 k2 : A -> result dict) d1 d2 :
  (forall a, k1 a = Ok d1 -> k2 a = Ok d2 -> d2 ⊆ d1) ->
  mbind k1 r = Ok d1 -> mbind k2 r = Ok d2 -> d2 ⊆ d1.
Proof. intros Hk. destruct r as [a|e]; [apply Hk|done]. Qed.

(** C8. Raising the occurrence threshold can only remove constraints:
    with [t1 <= t2], every formula Rule 6 produces at [t2] is produced at
    [t1], and likewise for Rule 8; a call that returns at [t1] returns
    at [t2]; and where the literals of the collection are pairwise
    distinct, the map returned at [t2] is included in the one returned
    at [t1], weights and all. *)
Theorem raising_the_threshold_removes obs_lists (all_occ t1 t2 : Z) :
  (t1 <= t2)%Z ->
  produced (_noise_constraints_6 obs_lists all_occ t2)
    ⊆ produced (_noise_constraints_6 obs_lists all_occ t1) /\
  produced (_noise_constraints_8 obs_lists all_occ t2)
    ⊆ produced (_noise_constraints_8 obs_lists all_occ t1) /\
  (returns (_noise_constraints_6 obs_lists all_occ t1) ->
   returns (_noise_constraints_6 obs_lists all_occ t2)) /\
  (returns (_noise_constraints_8 obs_lists all_occ t1) ->
   returns (_noise_constraints_8 obs_lists all_occ t2)) /\
  (literals_distinct obs_lists (fun r a => neg (del r a)) ->
   forall d1 d2,
     _noise_constraints_6 obs_lists all_occ t1 = Ok d1 ->
     _noise_constraints_6 obs_lists all_occ t2 = Ok d2 -> d2 ⊆ d1) /\
  (literals_distinct obs_lists pre ->
   forall d1 d2,
     _noise_constraints_8 obs_lists all_occ t1 = Ok d1 ->
     _noise_constraints_8 obs_lists all_occ t2 = Ok d2 -> d2 ⊆ d1).
Proof.
  intros Ht. unfold _noise_constraints_6, _noise_constraints_8.
  split; [|split; [|split; [|split; [|split]]]].
  - apply produced_bind. intros occ.
    by apply threshold_loop_monotone.
  - apply produced_bind. intros occ.
    by apply threshold_loop_monotone.
  - apply returns_bind. intros occ.
    by apply threshold_loop_monotone.
  - apply returns_bind. intros occ.
    by apply threshold_loop_monotone.
  - intros Hinj d1 d2. apply noise_same_weights. intros occ H1 H2.
    destruct (threshold_loop_monotone obs_lists (fun r a => neg (del r a))
                occ all_occ t1 t2 Ht) as [Hdom _].
    rewrite H1, H2 in Hdom.
    exact (threshold_loop_same_weights _ _ _ _ t1 t2 d1 d2 Hinj H1 H2 Hdom).
  - intros Hinj d1 d2. apply noise_same_weights. intros occ H1 H2.
    destruct (threshold_loop_monotone obs_lists pre occ all_occ t1 t2 Ht)
      as [Hdom _].
    rewrite H1, H2 in Hdom.
    exact (threshold_loop_same_weights _ _ _ _ t1 t2 d1 d2 Hinj H1 H2 Hdom).
Qed.

(** *** Collections without a true proposition *)

Lemma index_lookup {A} (l : list A) (i : nat) (x : A) :
  l !! i = Some x -> index l i = Ok x.
Proof. intros Hx. unfold index. by rewrite Hx. Qed.

Lemma index_below {A} (l : list A) (i : nat) :
  i < length l -> exists x, index l i = Ok x /\ x ∈ l.
Proof.
  intros Hi. destruct (lookup_lt_is_Some_2 l i Hi) as [x Hx].
  exists x. split; [by apply index_lookup|].
  apply list_elem_of_lookup. by exists i.
Qed.

Lemma getitem_lookup `{Countable K} {V} (m : gmap K V) (k : K) (v : V) :
  m !! k = Some v -> getitem m k = Ok v.
Proof. intros Hk. unfold getitem. by rewrite Hk. Qed.

Lemma set_up_occurrences_lookup obs_lists a :
  a ∈ actions obs_lists ->
  exists row, _set_up_occurrences_dict obs_lists !! a = Some row /\
              forall r, r ∈ propositions obs_lists -> row !! r = Some 0%Z.
Proof.
  intros Ha. eexists. split.
  - unfold _set_up_occurrences_dict.
    by apply (lookup_foldl_insert_in (fun a : Action => a)).
  - intros r Hr. by apply (lookup_foldl_insert_in (fun r : Fluent => r)).
Qed.

Lemma threshold_loop_nothing_counted obs_lists lit (all_occ t : Z) :
  (0 <= t)%Z ->
  threshold_loop obs_lists lit (_set_up_occurrences_dict obs_lists) all_occ t
  = Ok ∅.
Proof.
  intros Ht. unfold threshold_loop.
  apply for_each_unchanged. intros a Ha.
  destruct (set_up_occurrences_lookup obs_lists a Ha) as (row & Hrow & Hzero).
  rewrite (getitem_lookup _ _ _ Hrow), bind_Ok.
  apply for_each_unchanged. intros r Hr. unfold threshold_body.
  rewrite (getitem_lookup _ _ _ (Hzero r Hr)), bind_Ok.
  destruct (decide (0 > t)%Z); [lia|done].
Qed.

Lemma noise_6_nothing_true obs_lists (all_occ t : Z) :
  (0 <= t)%Z -> no_true_proposition obs_lists ->
  _noise_constraints_6 obs_lists all_occ t = Ok ∅.
Proof.
  intros Ht [Htrue _]. unfold _noise_constraints_6.
  rewrite for_each_unchanged.
  - rewrite bind_Ok. by apply threshold_loop_nothing_counted.
  - intros i Hi. apply index_seq in Hi as (trace & -> & Htrace).
    rewrite bind_Ok. apply for_each_unchanged. intros j Hj.
    apply elem_of_seq in Hj.
    destruct (index_below trace (j + 1) ltac:(lia)) as (next & -> & Hnext).
    rewrite bind_Ok.
    rewrite (Htrue trace next); [done| |done].
    apply list_elem_of_lookup. by exists i.
Qed.

Lemma noise_8_nothing_true obs_lists (all_occ t : Z) :
  (0 <= t)%Z -> no_true_proposition obs_lists ->
  _noise_constraints_8 obs_lists all_occ t = Ok ∅.
Proof.
  intros Ht [Htrue _]. unfold _noise_constraints_8.
  rewrite for_each_unchanged.
  - rewrite bind_Ok. by apply threshold_loop_nothing_counted.
  - intros i Hi. apply index_seq in Hi as (trace & -> & Htrace).
    rewrite bind_Ok. apply for_each_unchanged. intros j Hj.
    apply elem_of_seq in Hj.
    destruct (index_below trace j ltac:(lia)) as (step & -> & Hstep).
    rewrite bind_Ok.
    rewrite (Htrue trace step); [done| |done].
    apply list_elem_of_lookup. by exists i.
Qed.

Lemma noise_7_nothing_true obs_lists (all_occ : Z) :
  no_true_proposition obs_lists -> states_cover_sets obs_lists ->
  _noise_constraints_7 obs_lists all_occ = Ok ∅.
Proof.
  intros [_ Htrue] Hcover. unfold _noise_constraints_7.
  rewrite for_each_unchanged.
  - rewrite bind_Ok. apply for_each_unchanged. intros i Hi.
    apply index_seq in Hi as (sets & -> & Hsets). rewrite bind_Ok.
    destruct (Hcover i sets Hsets) as (sts & Hsts & Hlen).
    rewrite (index_lookup _ _ _ Hsts), bind_Ok.
    apply for_each_unchanged. intros j Hj. apply elem_of_seq in Hj.
    destruct (index_below sts (j + 1) ltac:(lia)) as (after & -> & Hafter).
    rewrite bind_Ok.
    rewrite (Htrue sts after); [done| |done].
    apply list_elem_of_lookup. by exists i.
  - intros sts Hsts. apply for_each_unchanged. intros s Hs.
    by rewrite (Htrue sts s).
Qed.

(** C7, as the code has it. When no observation and no state has a true
    proposition, a threshold that is not negative makes the noise
    builder return the empty map: Rules 6 and 8 compare counts of zero
    with the threshold and never divide, Rule 7 finds no proposition
    that became true. *)
Theorem no_noise_without_true_propositions obs_lists (occ_threshold : Z) :
  (0 <= occ_threshold)%Z ->
  no_true_proposition obs_lists ->
  states_cover_sets obs_lists ->
  _build_noise_constraints obs_lists occ_threshold = Ok ∅.
Proof.
  intros Ht Htrue Hcover. unfold _build_noise_constraints.
  rewrite noise_6_nothing_true, bind_Ok by done.
  rewrite noise_7_nothing_true, bind_Ok by done.
  rewrite noise_8_nothing_true, bind_Ok by done.
  unfold merge2. by rewrite !(left_id_L ∅ (∪)).
Qed.


(** *** The hypotheses the disorder builder registers *)

Lemma M_bind_at {A B} (m : M A) (k : A -> M B) (s : Supply) :
  (mbind k m) s =
  match m s with
  | (Ok a, s') => k a s'
  | (Raise e, s') => (Raise e, s')
  end.
Proof. reflexivity. Qed.

Lemma lift_Ok_bind {A B} (a : A) (k : A -> M B) (s : Supply) :
  (mbind k (lift (Ok a))) s = k a s.
Proof. reflexivity. Qed.

Lemma register_all_app regs1 regs2 d s :
  register_all (regs1 ++ regs2) d s =
  (d' ← register_all regs1 d; register_all regs2 d') s.
Proof.
  unfold register_all. revert d s.
  induction regs1 as [|[f prob] regs1 IH]; intros d s; [done|].
  simpl. rewrite !M_bind_at.
  destruct (register f prob d s) as [[d'|e] s']; [|done].
  by rewrite IH, M_bind_at.
Qed.

(** A loop whose body registers a list of formulas registers the lists
    of all its rounds. *)
Lemma for_M_registers {A} (xs : list A) (body : A -> dict -> M dict)
    (regs : A -> list (NNF * Qc)) :
  (forall x d s, x ∈ xs -> body x d s = register_all (regs x) d s) ->
  forall d s, for_M xs body d s = register_all (flat_map regs xs) d s.
Proof.
  induction xs as [|x xs IH]; intros Hbody d s; [done|].
  simpl. rewrite register_all_app, !M_bind_at, Hbody by (by left).
  destruct (register_all (regs x) d s) as [[d'|e] s']; [|done].
  apply IH. intros y e t Hy. apply Hbody. by right.
Qed.

Lemma disorder_pair_registers obs_lists act_x act_y d s :
  (act_x <> act_y ->
   is_Some (probabilities obs_lists !! ({[act_x; act_y]} : gset Action))) ->
  disorder_pair obs_lists act_x act_y d s =
  register_all (pair_hypotheses obs_lists act_x act_y) d s.
Proof.
  intros Hp. unfold disorder_pair, pair_hypotheses.
  destruct (decide (act_x <> act_y)) as [Hne|_]; [|done].
  destruct (Hp Hne) as [p Hlook].
  rewrite Hlook, (getitem_lookup _ _ _ Hlook), lift_Ok_bind.
  apply for_M_registers. intros r e t _.
  unfold register_all, hypotheses. simpl. rewrite !M_bind_at.
  destruct (register (ordered r act_x act_y) (1 - p)%Qc e t) as [[e'|x] t'];
    [|done].
  rewrite M_bind_at.
  by destruct (register (disordered r act_x act_y) p e' t') as [[?|?] ?].
Qed.

Lemma disorder_trace_registers obs_lists par_act_sets d s :
  probabilities_cover obs_lists par_act_sets ->
  disorder_trace obs_lists par_act_sets d s =
  register_all (trace_hypotheses obs_lists par_act_sets) d s.
Proof.
  intros Hcover. unfold disorder_trace, trace_hypotheses.
  apply for_M_registers. intros j e t Hj. apply elem_of_seq in Hj.
  destruct (lookup_lt_is_Some_2 par_act_sets j ltac:(lia)) as [xs Hxs].
  destruct (lookup_lt_is_Some_2 par_act_sets (j + 1) ltac:(lia)) as [ys Hys].
  rewrite Hxs, Hys, (index_lookup _ _ _ Hxs), lift_Ok_bind.
  apply for_M_registers. intros act_x e' t' Hx.
  rewrite (index_lookup _ _ _ Hys), lift_Ok_bind.
  apply for_M_registers. intros act_y e'' t'' Hy.
  apply disorder_pair_registers. intros Hne.
  by apply (Hcover j xs ys).
Qed.

Lemma flat_map_around {A B} (g : A -> list B) (xs : list A) (x : A) :
  x ∈ xs -> exists before after, flat_map g xs = before ++ g x ++ after.
Proof.
  intros Hx. apply list_elem_of_split in Hx as (l1 & l2 & ->).
  exists (flat_map g l1), (flat_map g l2).
  by rewrite flat_map_app.
Qed.

Lemma around_around {B} (l inner part before after before' after' : list B) :
  l = before ++ inner ++ after -> inner = before' ++ part ++ after' ->
  l = (before ++ before') ++ part ++ (after' ++ after).
Proof. intros -> ->. by rewrite <- !app_assoc. Qed.

Lemma trace_hypotheses_hold obs_lists par_act_sets j xs ys act_x act_y r p :
  par_act_sets !! j = Some xs -> par_act_sets !! (j + 1) = Some ys ->
  act_x ∈ xs -> act_y ∈ ys -> act_x <> act_y ->
  r ∈ propositions obs_lists ->
  probabilities obs_lists !! ({[act_x; act_y]} : gset Action) = Some p ->
  exists before after,
    trace_hypotheses obs_lists par_act_sets =
    before ++ hypotheses r act_x act_y p ++ after.
Proof.
  intros Hxs Hys Hx Hy Hne Hr Hp.
  assert (j ∈ seq 0 (length par_act_sets - 1)) as Hj.
  { apply elem_of_seq. apply lookup_lt_Some in Hys. lia. }
  destruct (flat_map_around
    (fun j => match par_act_sets !! j, par_act_sets !! (j + 1) with
              | Some xs, Some ys =>
                  flat_map (fun act_x =>
                    flat_map (fun act_y => pair_hypotheses obs_lists act_x act_y)
                             ys) xs
              | _, _ => []
              end) _ j Hj) as (b1 & a1 & H1).
  simpl in H1. rewrite Hxs, Hys in H1.
  destruct (flat_map_around
    (fun act_x => flat_map (fun act_y => pair_hypotheses obs_lists act_x act_y)
                           ys) xs act_x Hx) as (b2 & a2 & H2).
  destruct (flat_map_around
    (fun act_y => pair_hypotheses obs_lists act_x act_y) ys act_y Hy)
    as (b3 & a3 & H3).
  assert (exists b4 a4, pair_hypotheses obs_lists act_x act_y =
                        b4 ++ hypotheses r act_x act_y p ++ a4)
    as (b4 & a4 & H4).
  { unfold pair_hypotheses. rewrite Hp.
    destruct (decide (act_x <> act_y)); [|done].
    by apply (flat_map_around (fun r => hypotheses r act_x act_y p)). }
  pose proof (around_around _ _ _ _ _ _ _ H1 H2) as H12.
  pose proof (around_around _ _ _ _ _ _ _ H12 H3) as H123.
  pose proof (around_around _ _ _ _ _ _ _ H123 H4) as Hall.
  eexists _, _. exact Hall.
Qed.

Lemma budget (p : Qc) : ((1 - p) * WMAX + p * WMAX = WMAX)%Qc.
Proof. unfold WMAX. ring. Qed.

(** *** What the disorder builder leaves in the map *)

Lemma conversions_app regs1 regs2 s :
  conversions (regs1 ++ regs2) s =
  conversions regs1 s ++ conversions regs2 (supply_after regs1 s).
Proof.
  revert s. induction regs1 as [|[f prob] regs1 IH]; intros s; [done|].
  simpl. by rewrite IH.
Qed.

Lemma register_all_registered regs d s :
  register_all regs d s
  = (Ok (registered (conversions regs s) d), supply_after regs s).
Proof.
  unfold register_all. revert d s.
  induction regs as [|[f prob] regs IH]; intros d s; [done|].
  simpl. rewrite M_bind_at. unfold register at 1.
  destruct (to_CNF f s) as [cnf s1] eqn:Hcnf. simpl. apply IH.
Qed.

Lemma unit_of_inj n1 n2 : unit_of n1 = unit_of n2 -> n1 = n2.
Proof.
  unfold unit_of. intros Heq.
  assert (mkVar n1 true ∈ ({[mkVar n2 true]} : clause)) as Hin.
  { rewrite <- Heq. by apply elem_of_singleton. }
  apply elem_of_singleton in Hin. by injection Hin.
Qed.

Lemma registered_hard cnfs : forall d c,
  d !! c = Some HARD ->
  (forall cnf_formula prob n, (cnf_formula, prob) ∈ cnfs ->
     occurs_aux cnf_formula n -> c <> unit_of n) ->
  registered cnfs d !! c = Some HARD.
Proof.
  induction cnfs as [|[cnf prob] cnfs IH]; intros d c Hd Hunit; [done|].
  simpl. apply IH.
  - destruct (decide (c ∈ cnf)) as [Hin|Hout].
    + apply clauses_are_hard; [done|]. intros n. apply (Hunit cnf prob).
      by left.
    + rewrite others_are_kept; [done|done|].
      intros n. apply (Hunit cnf prob). by left.
  - intros cnf' prob' n Hin. apply (Hunit cnf' prob'). by right.
Qed.

Lemma registered_kept cnfs : forall d c,
  (forall cnf_formula prob, (cnf_formula, prob) ∈ cnfs ->
     (c ∉ cnf_formula) /\
     forall n, occurs_aux cnf_formula n -> c <> unit_of n) ->
  registered cnfs d !! c = d !! c.
Proof.
  induction cnfs as [|[cnf prob] cnfs IH]; intros d c Hout; [done|].
  simpl. rewrite IH.
  - destruct (Hout cnf prob ltac:(by left)) as [Hc Hunit].
    by apply others_are_kept.
  - intros cnf' prob' Hin. apply (Hout cnf' prob'). by right.
Qed.

Lemma apart_cons (cnf_formula : CNF) rest :
  apart (cnf_formula :: rest) = true ->
  (forall other, other ∈ rest -> aux_of cnf_formula ## aux_of other) /\
  apart rest = true.
Proof.
  simpl. intros Happ. apply andb_prop in Happ as [Hhead Hrest].
  split; [|done]. intros other Hin.
  rewrite forallb_forall in Hhead.
  apply list_elem_of_In, Hhead in Hin. by apply bool_decide_eq_true in Hin.
Qed.

Lemma no_aux_unit_spec cnfs (cnf_formula other : CNF) n :
  no_aux_unit cnfs = true ->
  cnf_formula ∈ cnfs -> other ∈ cnfs -> occurs_aux other n ->
  unit_of n ∉ cnf_formula.
Proof.
  unfold no_aux_unit. rewrite forallb_forall. intros Hall Hcnf Hother Hn.
  apply list_elem_of_In, Hall in Hcnf. rewrite forallb_forall in Hcnf.
  apply list_elem_of_In, Hcnf in Hother.
  apply bool_decide_eq_true in Hother.
  apply (Hother n). by apply elem_of_aux_of.
Qed.

(** With fresh names every registered formula keeps, to the end, its
    clauses hard and its auxiliary variables at its own weight. *)
Lemma registered_weights cnfs : forall d,
  apart cnfs.*1 = true ->
  (forall (cnf_formula other : CNF) n,
     cnf_formula ∈ cnfs.*1 -> other ∈ cnfs.*1 -> occurs_aux other n ->
     unit_of n ∉ cnf_formula) ->
  forall k cnf_formula prob, cnfs !! k = Some (cnf_formula, prob) ->
    (forall c, c ∈ cnf_formula -> registered cnfs d !! c = Some HARD) /\
    (forall n, occurs_aux cnf_formula n ->
       registered cnfs d !! unit_of n = Some (Num (prob * WMAX)%Qc)).
Proof.
  induction cnfs as [|[cnf0 prob0] cnfs IH]; intros d Happ Hunit k cnf prob Hk;
    [done|].
  rewrite fmap_cons in Happ. apply apart_cons in Happ as [Hdisjoint Happ].
  destruct k as [|k].
  - injection Hk as -> ->. simpl. split.
    + intros c Hc. apply registered_hard.
      * apply clauses_are_hard; [done|]. intros n Hn ->.
        apply (Hunit cnf cnf n); [by left|by left|done|done].
      * intros cnf' prob' n Hin Hn ->.
        apply (Hunit cnf cnf' n); [by left| |done|done].
        right. apply list_elem_of_fmap. by exists (cnf', prob').
    + intros n Hn. rewrite registered_kept; [by apply aux_units_are_soft|].
      intros cnf' prob' Hin.
      assert (cnf' ∈ cnfs.*1) as Hin'.
      { apply list_elem_of_fmap. by exists (cnf', prob'). }
      split.
      * apply (Hunit cnf' cnf n); [by right|by left|done].
      * intros n' Hn' Heq. apply unit_of_inj in Heq as <-.
        apply (Hdisjoint cnf' Hin' n); by apply elem_of_aux_of.
  - simpl. apply (IH _ Happ) with k; [|done].
    intros cnf' other n Hcnf' Hother. apply Hunit; by right.
Qed.

Lemma foldl_insert_entries `{Countable K} {V A} (P : K -> V -> Prop)
    (key : A -> K) (w : V) (xs : list A) : forall m : gmap K V,
  (forall x, x ∈ xs -> P (key x) w) -> map_Forall P m ->
  map_Forall P (foldl (fun m x => <[key x := w]> m) m xs).
Proof.
  induction xs as [|x xs IH]; intros m Hw Hm; [done|].
  simpl. apply IH.
  - intros y Hy. apply Hw. by right.
  - apply map_Forall_insert_2; [|done]. apply Hw. by left.
Qed.

(** The soft entries of a map of registered formulas are unit clauses
    of auxiliary variables. *)
Lemma registered_soft_keys cnfs : forall d,
  map_Forall (fun c w => forall q, w = Num q ->
                exists n, is_aux n = true /\ c = unit_of n) d ->
  map_Forall (fun c w => forall q, w = Num q ->
                exists n, is_aux n = true /\ c = unit_of n)
             (registered cnfs d).
Proof.
  induction cnfs as [|[cnf prob] cnfs IH]; intros d Hd; [done|].
  simpl. apply IH. rewrite extract_aux_set_weights_eq.
  apply (foldl_insert_entries _ unit_of).
  - intros n Hn q _. exists n. split; [|done].
    apply elem_of_collected_elements in Hn. by destruct Hn.
  - apply (foldl_insert_entries _ id); [|done]. intros c _ q Hq.
    discriminate Hq.
Qed.

(** C5, as the code has it. For a collection whose first trace has the
    parallel action sets [sets], with a probability for every pair the
    builder looks up and a conversion whose auxiliary names are fresh,
    the disorder builder returns a map in which no formula of a
    hypothesis is a soft constraint: every soft entry is the unit clause
    of an auxiliary variable. For each adjacent pair of sets, each pair
    of distinct actions [(x, y)] from them with probability [p] and each
    proposition [r], the builder has converted the ordered formula and,
    right after it, the disordered one, which is the ordered one with
    [x] and [y] swapped; every clause of the two CNFs is in the map with
    ["HARD"], every auxiliary variable of the first with
    [(1 - p) * WMAX] and every auxiliary variable of the second with
    [p * WMAX], two weights that add up to [WMAX]. *)
Theorem disorder_weights_go_to_the_auxiliaries obs_lists sets rest s :
  all_par_act_sets obs_lists = sets :: rest ->
  probabilities_cover obs_lists sets ->
  fresh_names (conversions (trace_hypotheses obs_lists sets) s).*1 = true ->
  exists d s',
    _build_disorder_constraints obs_lists s = (Ok (Some d), s') /\
    (forall c q, d !! c = Some (Num q) ->
       exists n, is_aux n = true /\ c = unit_of n) /\
    forall j xs ys act_x act_y r,
      sets !! j = Some xs -> sets !! (j + 1) = Some ys ->
      act_x ∈ xs -> act_y ∈ ys -> act_x <> act_y ->
      r ∈ propositions obs_lists ->
      exists p s_o,
        probabilities obs_lists !! ({[act_x; act_y]} : gset Action) = Some p /\
        disordered r act_x act_y = ordered r act_y act_x /\
        let cnf_o := (to_CNF (ordered r act_x act_y) s_o).1 in
        let cnf_d := (to_CNF (disordered r act_x act_y)
                             (to_CNF (ordered r act_x act_y) s_o).2).1 in
        (forall c, c ∈ cnf_o \/ c ∈ cnf_d -> d !! c = Some HARD) /\
        (forall n, occurs_aux cnf_o n ->
           d !! unit_of n = Some (Num ((1 - p) * WMAX)%Qc)) /\
        (forall n, occurs_aux cnf_d n ->
           d !! unit_of n = Some (Num (p * WMAX)%Qc)) /\
        ((1 - p) * WMAX + p * WMAX = WMAX)%Qc.
Proof.
  intros Hsets Hcover Hfresh.
  set (regs := trace_hypotheses obs_lists sets) in *.
  set (cnfs := conversions regs s) in *.
  exists (registered cnfs ∅), (supply_after regs s).
  apply andb_prop in Hfresh as [Happ Hunit].
  split; [|split].
  - unfold _build_disorder_constraints. rewrite Hsets. simpl.
    change (index (sets :: rest) 0) with (Ok sets : result (list (list Action))).
    rewrite lift_Ok_bind, M_bind_at.
    rewrite (disorder_trace_registers _ _ _ _ Hcover).
    by rewrite register_all_registered.
  - intros c q Hc.
    apply (registered_soft_keys cnfs ∅ (map_Forall_empty _) c (Num q) Hc q).
    done.
  - intros j xs ys act_x act_y r Hxs Hys Hx Hy Hne Hr.
    destruct (Hcover j xs ys act_x act_y Hxs Hys Hx Hy Hne) as [p Hp].
    destruct (trace_hypotheses_hold obs_lists sets j xs ys act_x act_y r p)
      as (before & after & Hregs); try done.
    exists p, (supply_after before s).
    split; [done|]. split; [done|]. simpl.
    set (s_o := supply_after before s).
    set (cnf_o := (to_CNF (ordered r act_x act_y) s_o).1).
    set (cnf_d := (to_CNF (disordered r act_x act_y)
                          (to_CNF (ordered r act_x act_y) s_o).2).1).
    assert (cnfs = conversions before s
                   ++ (cnf_o, (1 - p)%Qc) :: (cnf_d, p)
                      :: conversions after
                           (to_CNF (disordered r act_x act_y)
                              (to_CNF (ordered r act_x act_y) s_o).2).2)
      as Hcnfs.
    { unfold cnfs, regs. fold regs. change regs with
        (trace_hypotheses obs_lists sets). rewrite Hregs.
      by rewrite conversions_app. }
    pose proof (fun cnf other n =>
                  no_aux_unit_spec cnfs.*1 cnf other n Hunit) as Hunits.
    assert (cnfs !! length (conversions before s) = Some (cnf_o, (1 - p)%Qc))
      as Ho.
    { rewrite Hcnfs. by rewrite lookup_app_r, Nat.sub_diag by lia. }
    assert (cnfs !! S (length (conversions before s)) = Some (cnf_d, p))
      as Hd.
    { rewrite Hcnfs. rewrite lookup_app_r by lia.
      by replace (S (length (conversions before s))
                  - length (conversions before s)) with 1 by lia. }
    destruct (registered_weights cnfs ∅ Happ Hunits _ _ _ Ho) as [Hoc Hoa].
    destruct (registered_weights cnfs ∅ Happ Hunits _ _ _ Hd) as [Hdc Hda].
    split; [|split; [|split]].
    + intros c [Hc|Hc]; [by apply Hoc|by apply Hdc].
    + exact Hoa.
    + exact Hda.
    + apply budget.
Qed.

(** *** The weights of the assembled map *)

Lemma M_bind_inv {A B} (m : M A) (k : A -> M B) s b s' :
  (mbind k m) s = (Ok b, s') ->
  exists a s1, m s = (Ok a, s1) /\ k a s1 = (Ok b, s').
Proof.
  rewrite M_bind_at. destruct (m s) as [[a|e] s1]; [|done].
  intros Hk. by exists a, s1.
Qed.

Lemma lift_inv {A} (r : result A) s a s' :
  lift r s = (Ok a, s') -> r = Ok a.
Proof. unfold lift. by intros [= ->]. Qed.

Lemma for_M_invariant {A S} (P : S -> Prop) (xs : list A)
    (body : A -> S -> M S) :
  (forall x (a : S) s (a' : S) s',
     x ∈ xs -> P a -> body x a s = (Ok a', s') -> P a') ->
  forall (a : S) s (a' : S) s',
    P a -> for_M xs body a s = (Ok a', s') -> P a'.
Proof.
  induction xs as [|x xs IH]; intros Hbody a s a' s' Ha Hrun.
  - by injection Hrun as <- _.
  - simpl in Hrun. apply M_bind_inv in Hrun as (a1 & s1 & Hx & Hrun).
    eapply IH; [|exact (Hbody x a s a1 s1 ltac:(by left) Ha Hx)|exact Hrun].
    intros y e t e' t' Hy. apply Hbody. by right.
Qed.

Lemma foldl_insert_Forall `{Countable K} {V A} (P : V -> Prop)
    (key : A -> K) (w : V) (xs : list A) : forall m : gmap K V,
  P w -> map_Forall (fun _ => P) m ->
  map_Forall (fun _ => P) (foldl (fun m x => <[key x := w]> m) m xs).
Proof.
  induction xs as [|x xs IH]; intros m Hw Hm; [done|].
  simpl. apply IH; [done|]. by apply map_Forall_insert_2.
Qed.

Lemma not_negative_scaled (prob : Qc) : (0 <= prob)%Qc -> (0 <= prob * WMAX)%Qc.
Proof. intros Hp. unfold WMAX. by rewrite Qcmult_1_r. Qed.

Lemma not_negative_complement (p : Qc) : (p <= 1)%Qc -> (0 <= 1 - p)%Qc.
Proof. intros Hp. by apply Qcle_minus_iff in Hp. Qed.

Lemma positive_scaled (prob : Qc) : (0 < prob)%Qc -> (0 < prob * WMAX)%Qc.
Proof. intros Hp. unfold WMAX. by rewrite Qcmult_1_r. Qed.

Lemma positive_complement (p : Qc) : (p < 1)%Qc -> (0 < 1 - p)%Qc.
Proof. intros Hp. by apply Qclt_minus_iff in Hp. Qed.

Lemma not_negative_ratio (n m : Z) :
  (0 <= n)%Z -> (0 <= m)%Z ->
  (0 <= Q2Qc (inject_Z n) / Q2Qc (inject_Z m))%Qc.
Proof.
  intros Hn Hm. unfold Qcle, Qcdiv, Qcmult, Qcinv, Q2Qc. simpl.
  rewrite !Qred_correct.
  apply Qmult_le_0_compat.
  - change 0%Q with (inject_Z 0). by rewrite <- Zle_Qle.
  - apply Qinv_le_0_compat. change 0%Q with (inject_Z 0).
    by rewrite <- Zle_Qle.
Qed.

Lemma positive_ratio (n m : Z) :
  (0 < n)%Z -> (0 < m)%Z ->
  (0 < Q2Qc (inject_Z n) / Q2Qc (inject_Z m))%Qc.
Proof.
  intros Hn Hm. unfold Qclt, Qcdiv, Qcmult, Qcinv, Q2Qc. simpl.
  rewrite !Qred_correct.
  apply Qmult_lt_0_compat.
  - change 0%Q with (inject_Z 0). by rewrite <- Zlt_Qlt.
  - apply Qinv_lt_0_compat. change 0%Q with (inject_Z 0).
    by rewrite <- Zlt_Qlt.
Qed.

Lemma truediv_inv (n m : Z) (w : Qc) :
  truediv n m = Ok w ->
  m <> 0%Z /\ w = (Q2Qc (inject_Z n) / Q2Qc (inject_Z m))%Qc.
Proof.
  unfold truediv. destruct (decide (m = 0%Z)); [done|]. by intros [= <-].
Qed.

Lemma getitem_inv `{Countable K} {V} (m : gmap K V) (k : K) (v : V) :
  getitem m k = Ok v -> m !! k = Some v.
Proof. unfold getitem. destruct (m !! k); [by intros [= ->]|done]. Qed.

Lemma index_elem_of {A} (l : list A) (i : nat) (x : A) :
  index l i = Ok x -> x ∈ l.
Proof.
  unfold index. destruct (l !! i) as [y|] eqn:Hy; [|done].
  intros [= <-]. apply list_elem_of_lookup. by exists i.
Qed.

(** The counts of Rules 6 and 8 start at zero and are incremented. *)
Lemma set_up_not_negative obs_lists :
  map_Forall (fun _ row => map_Forall (fun (_ : Fluent) n => (0 <= n)%Z) row)
             (_set_up_occurrences_dict obs_lists).
Proof.
  unfold _set_up_occurrences_dict.
  apply (foldl_insert_Forall
           (fun row => map_Forall (fun (_ : Fluent) n => (0 <= n)%Z) row)
           (fun a : Action => a)); [|apply map_Forall_empty].
  apply (foldl_insert_Forall (fun n => (0 <= n)%Z) (fun r : Fluent => r));
    [done|apply map_Forall_empty].
Qed.

Lemma count_not_negative (a : option Action) (r : Fluent) occ occ' :
  map_Forall (fun _ row => map_Forall (fun (_ : Fluent) n => (0 <= n)%Z) row)
             occ ->
  count a r occ = Ok occ' ->
  map_Forall (fun _ row => map_Forall (fun (_ : Fluent) n => (0 <= n)%Z) row)
             occ'.
Proof.
  intros Hocc Hcount. destruct a as [a|]; [|done]. simpl in Hcount.
  apply bind_Ok_inv in Hcount as (row & Hrow & Hcount).
  apply bind_Ok_inv in Hcount as (n & Hn & [= <-]).
  apply getitem_inv in Hrow, Hn.
  apply map_Forall_insert_2; [|done].
  apply map_Forall_insert_2; [|by apply (Hocc a row)].
  pose proof (Hocc a row Hrow r n Hn) as Hpos. simpl in Hpos. lia.
Qed.

Lemma rule_6_counts_not_negative obs_lists occ :
  for_each (seq 0 (length (traces obs_lists))) (fun i occurrences =>
    trace ← index (traces obs_lists) i;
    for_each (seq 0 (length trace - 1)) (fun j occurrences =>
      next ← index trace (j + 1);
      for_each (true_prop (state next)) (fun r occurrences =>
        step ← index trace j;
        count (action step) r occurrences) occurrences) occurrences)
    (_set_up_occurrences_dict obs_lists) = Ok occ ->
  map_Forall (fun _ row => map_Forall (fun (_ : Fluent) n => (0 <= n)%Z) row)
             occ.
Proof.
  apply for_each_invariant; [|apply set_up_not_negative].
  intros i o o' _ Ho Hrun.
  apply bind_Ok_inv in Hrun as (trace & _ & Hrun). revert Hrun.
  apply for_each_invariant; [|done]. intros j o1 o1' _ Ho1 Hrun.
  apply bind_Ok_inv in Hrun as (next & _ & Hrun). revert Hrun.
  apply for_each_invariant; [|done]. intros r o2 o2' _ Ho2 Hrun.
  apply bind_Ok_inv in Hrun as (step & _ & Hrun).
  by apply (count_not_negative _ _ _ _ Ho2 Hrun).
Qed.

Lemma rule_8_counts_not_negative obs_lists occ :
  for_each (seq 0 (length (traces obs_lists))) (fun i occurrences =>
    trace ← index (traces obs_lists) i;
    for_each (seq 0 (length trace)) (fun j occurrences =>
      step ← index trace j;
      for_each (true_prop (state step)) (fun r occurrences =>
        step ← index trace j;
        count (action step) r occurrences) occurrences) occurrences)
    (_set_up_occurrences_dict obs_lists) = Ok occ ->
  map_Forall (fun _ row => map_Forall (fun (_ : Fluent) n => (0 <= n)%Z) row)
             occ.
Proof.
  apply for_each_invariant; [|apply set_up_not_negative].
  intros i o o' _ Ho Hrun.
  apply bind_Ok_inv in Hrun as (trace & _ & Hrun). revert Hrun.
  apply for_each_invariant; [|done]. intros j o1 o1' _ Ho1 Hrun.
  apply bind_Ok_inv in Hrun as (step0 & _ & Hrun). revert Hrun.
  apply for_each_invariant; [|done]. intros r o2 o2' _ Ho2 Hrun.
  apply bind_Ok_inv in Hrun as (step & _ & Hrun).
  by apply (count_not_negative _ _ _ _ Ho2 Hrun).
Qed.

(** The counts of Rule 7: a proposition true in some state of the
    collection has been counted at least once. *)
Lemma rule_7_counts_what_holds (props : list Fluent)
    (sts : list (list (gmap Fluent bool))) (occ : gmap Fluent Z) :
  for_each sts (fun trace occurrences =>
    for_each trace (fun state occurrences =>
      for_each (true_prop state) (fun r occurrences =>
        n ← getitem occurrences r;
        Ok (<[r := (n + 1)%Z]> occurrences)) occurrences) occurrences)
    (foldl (fun occurrences r => <[r := 0%Z]> occurrences) ∅ props) = Ok occ ->
  forall trace st r, trace ∈ sts -> st ∈ trace -> r ∈ true_prop st ->
    exists n, occ !! r = Some n /\ (1 <= n)%Z.
Proof.
  set (P := fun o : gmap Fluent Z => map_Forall (fun _ n => (0 <= n)%Z) o).
  set (R := fun o o' : gmap Fluent Z =>
              forall r n, o !! r = Some n ->
                exists n', o' !! r = Some n' /\ (n <= n')%Z).
  assert (forall o, R o o) as Hrefl.
  { intros o r n Hn. exists n. split; [done|lia]. }
  assert (forall o1 o2 o3, R o1 o2 -> R o2 o3 -> R o1 o3) as Htrans.
  { intros o1 o2 o3 H12 H23 r n Hn.
    destruct (H12 r n Hn) as (n2 & Hn2 & Hle2).
    destruct (H23 r n2 Hn2) as (n3 & Hn3 & Hle3).
    exists n3. split; [done|lia]. }
  assert (forall r (o o' : gmap Fluent Z), P o ->
            (n ← getitem o r; Ok (<[r := (n + 1)%Z]> o)) = Ok o' ->
            P o' /\ R o o' /\ exists n, o' !! r = Some n /\ (1 <= n)%Z)
    as Hinc.
  { intros r o o' Ho Hrun. apply bind_Ok_inv in Hrun as (n & Hn & [= <-]).
    apply getitem_inv in Hn. pose proof (Ho r n Hn) as Hpos. simpl in Hpos.
    split; [|split].
    - apply map_Forall_insert_2; [lia|done].
    - intros r' n' Hn'. destruct (decide (r = r')) as [<-|Hne].
      + rewrite lookup_insert_eq. exists (n + 1)%Z. split; [done|].
        rewrite Hn in Hn'. injection Hn' as <-. lia.
      + rewrite lookup_insert_ne by done. exists n'. split; [done|lia].
    - exists (n + 1)%Z. rewrite lookup_insert_eq. split; [done|lia]. }
  assert (forall st (o o' : gmap Fluent Z), P o ->
            for_each (true_prop st) (fun r occurrences =>
              n ← getitem occurrences r;
              Ok (<[r := (n + 1)%Z]> occurrences)) o = Ok o' ->
            P o' /\ R o o' /\
            forall r, r ∈ true_prop st ->
              exists n, o' !! r = Some n /\ (1 <= n)%Z) as Hstate.
  { intros st o o' Ho Hrun.
    destruct (for_each_reaches P R _ _ Hrefl Htrans
                (fun r t t' _ Ht Hr =>
                   conj (proj1 (Hinc r t t' Ht Hr))
                        (proj1 (proj2 (Hinc r t t' Ht Hr))))
                o o' Ho Hrun) as (Ho' & HR & Hall).
    split; [done|]. split; [done|]. intros r Hr.
    destruct (Hall r Hr) as (o1 & o2 & Ho1 & Hrun1 & HR2).
    destruct (Hinc r o1 o2 Ho1 Hrun1) as (_ & _ & n & Hn & Hle).
    destruct (HR2 r n Hn) as (n' & Hn' & Hle').
    exists n'. split; [done|lia]. }
  assert (forall trace (o o' : gmap Fluent Z), P o ->
            for_each trace (fun state occurrences =>
              for_each (true_prop state) (fun r occurrences =>
                n ← getitem occurrences r;
                Ok (<[r := (n + 1)%Z]> occurrences)) occurrences) o = Ok o' ->
            P o' /\ R o o' /\
            forall st r, st ∈ trace -> r ∈ true_prop st ->
              exists n, o' !! r = Some n /\ (1 <= n)%Z) as Htrace.
  { intros trace o o' Ho Hrun.
    destruct (for_each_reaches P R _ _ Hrefl Htrans
                (fun st t t' _ Ht Hr =>
                   conj (proj1 (Hstate st t t' Ht Hr))
                        (proj1 (proj2 (Hstate st t t' Ht Hr))))
                o o' Ho Hrun) as (Ho' & HR & Hall).
    split; [done|]. split; [done|]. intros st r Hst Hr.
    destruct (Hall st Hst) as (o1 & o2 & Ho1 & Hrun1 & HR2).
    destruct (Hstate st o1 o2 Ho1 Hrun1) as (_ & _ & Hcounted).
    destruct (Hcounted r Hr) as (n & Hn & Hle).
    destruct (HR2 r n Hn) as (n' & Hn' & Hle').
    exists n'. split; [done|lia]. }
  intros Hrun trace st r Htr Hst Hr.
  assert (P (foldl (fun occurrences r => <[r := 0%Z]> occurrences) ∅ props))
    as Hinit.
  { apply (foldl_insert_Forall (fun n => (0 <= n)%Z) (fun r : Fluent => r));
      [done|apply map_Forall_empty]. }
  destruct (for_each_reaches P R _ _ Hrefl Htrans
              (fun tr t t' _ Ht Hr =>
                 conj (proj1 (Htrace tr t t' Ht Hr))
                      (proj1 (proj2 (Htrace tr t t' Ht Hr))))
              _ occ Hinit Hrun) as (_ & _ & Hall).
  destruct (Hall trace Htr) as (o1 & o2 & Ho1 & Hrun1 & HR2).
  destruct (Htrace trace o1 o2 Ho1 Hrun1) as (_ & _ & Hcounted).
  destruct (Hcounted st r Hst Hr) as (n & Hn & Hle).
  destruct (HR2 r n Hn) as (n' & Hn' & Hle').
  exists n'. split; [done|lia].
Qed.

Section Weights.

(** [good] is what is to be shown of the numbers among the weights. *)
Variable good : Qc -> Prop.

Variable obs_lists : ObservationLists.

Variable occ_threshold : Z.

Hypothesis good_WMAX : good WMAX.

Hypothesis good_probabilities : forall (pair : gset Action) p,
  probabilities obs_lists !! pair = Some p ->
  good ((1 - p) * WMAX)%Qc /\ good (p * WMAX)%Qc.

Hypothesis good_counts : forall n m : Z,
  (0 <= n)%Z -> (occ_threshold < n)%Z -> (0 < m)%Z ->
  good (Q2Qc (inject_Z n) / Q2Qc (inject_Z m))%Qc.

Hypothesis good_state_counts : forall n m : Z,
  (1 <= n)%Z -> (0 < m)%Z ->
  good (Q2Qc (inject_Z n) / Q2Qc (inject_Z m))%Qc.

Lemma extract_weights_ok cnf_formula d (prob : Qc) :
  good (prob * WMAX)%Qc -> weights_ok good d ->
  weights_ok good (_extract_aux_set_weights cnf_formula d prob).
Proof.
  intros Hp Hd. rewrite extract_aux_set_weights_eq.
  apply (foldl_insert_Forall (hard_or good)).
  - right. by eexists.
  - apply (foldl_insert_Forall (hard_or good) id); [by left|done].
Qed.

Lemma register_weights_ok f (prob : Qc) d s d' s' :
  good (prob * WMAX)%Qc -> weights_ok good d ->
  register f prob d s = (Ok d', s') -> weights_ok good d'.
Proof.
  intros Hp Hd. unfold register. destruct (to_CNF f s) as [cnf s1].
  intros [= <- _]. by apply extract_weights_ok.
Qed.

Lemma probability_lookup (pair : gset Action) s p s' :
  lift (getitem (probabilities obs_lists) pair) s = (Ok p, s') ->
  good ((1 - p) * WMAX)%Qc /\ good (p * WMAX)%Qc.
Proof.
  intros Hget. apply lift_inv, getitem_inv in Hget.
  by apply (good_probabilities pair).
Qed.

Lemma disorder_pair_weights_ok act_x act_y d s d' s' :
  weights_ok good d ->
  disorder_pair obs_lists act_x act_y d s = (Ok d', s') -> weights_ok good d'.
Proof.
  intros Hd. unfold disorder_pair.
  destruct (decide (act_x <> act_y)); [|by intros [= <- _]].
  intros Hrun. apply M_bind_inv in Hrun as (p & s1 & Hp & Hrun).
  apply probability_lookup in Hp as [Hp0 Hp1].
  revert Hrun. apply for_M_invariant; [|done].
  intros r e t e' t' _ He Hrun.
  apply M_bind_inv in Hrun as (e1 & t1 & H1 & H2).
  eapply register_weights_ok; [|
    exact (register_weights_ok _ _ _ _ _ _ Hp0 He H1)|exact H2].
  done.
Qed.

Lemma disorder_trace_weights_ok par_act_sets d s d' s' :
  weights_ok good d ->
  disorder_trace obs_lists par_act_sets d s = (Ok d', s') -> weights_ok good d'.
Proof.
  unfold disorder_trace. revert d s d' s'.
  apply for_M_invariant. intros j e t e' t' _ He Hrun.
  apply M_bind_inv in Hrun as (xs & t1 & _ & Hrun). revert Hrun.
  apply for_M_invariant; [|done]. intros act_x f u f' u' _ Hf Hrun.
  apply M_bind_inv in Hrun as (ys & u1 & _ & Hrun). revert Hrun.
  apply for_M_invariant; [|done]. intros act_y g v g' v' _ Hg.
  by apply disorder_pair_weights_ok.
Qed.

Lemma soft_pair_weights_ok (prob : Qc -> Qc) act act' d s d' s' :
  (forall p, good ((1 - p) * WMAX)%Qc /\ good (p * WMAX)%Qc ->
     good (prob p * WMAX)%Qc) ->
  weights_ok good d ->
  soft_pair obs_lists prob act act' d s = (Ok d', s') -> weights_ok good d'.
Proof.
  intros Hprob Hd. unfold soft_pair.
  destruct (decide (act <> act')); [|by intros [= <- _]].
  intros Hrun. apply M_bind_inv in Hrun as (p & s1 & Hp & Hrun).
  apply probability_lookup in Hp.
  revert Hrun. apply for_M_invariant; [|done].
  intros r e t e' t' _ He. apply register_weights_ok; [|done].
  by apply Hprob.
Qed.

Lemma soft_parallel_weights_ok s d' s' :
  _build_soft_parallel_constraints obs_lists s = (Ok d', s') ->
  weights_ok good d'.
Proof.
  intros Hrun. unfold _build_soft_parallel_constraints in Hrun.
  apply M_bind_inv in Hrun as (d1 & s1 & Hpass1 & Hpass2).
  assert (weights_ok good d1) as Hd1.
  { revert Hpass1. apply for_M_invariant; [|apply map_Forall_empty].
    intros i e t e' t' _ He Hrun.
    apply M_bind_inv in Hrun as (sets & t1 & _ & Hrun). revert Hrun.
    apply for_M_invariant; [|done]. intros j f u f' u' _ Hf Hrun.
    apply M_bind_inv in Hrun as (xs & u1 & _ & Hrun). revert Hrun.
    apply for_M_invariant; [|done]. intros act_x g v g' v' _ Hg Hrun.
    apply M_bind_inv in Hrun as (xs' & v1 & _ & Hrun). revert Hrun.
    apply for_M_invariant; [|done]. intros act_x' h w h' w' _ Hh.
    apply soft_pair_weights_ok; [|done]. by intros p [Hp _]. }
  revert Hpass2. apply for_M_invariant; [|done].
  intros i e t e' t' _ He Hrun.
  apply M_bind_inv in Hrun as (sets & t1 & _ & Hrun). revert Hrun.
  apply for_M_invariant; [|done]. intros j f u f' u' _ Hf Hrun.
  apply M_bind_inv in Hrun as (ys & u1 & _ & Hrun). revert Hrun.
  apply for_M_invariant; [|done]. intros act_y g v g' v' _ Hg Hrun.
  apply M_bind_inv in Hrun as (xs' & v1 & _ & Hrun). revert Hrun.
  apply for_M_invariant; [|done]. intros act_x' h w h' w' _ Hh.
  apply soft_pair_weights_ok; [|done]. by intros p [_ Hp].
Qed.

Lemma merge2_weights_ok (a b : dict) :
  weights_ok good a -> weights_ok good b -> weights_ok good (merge2 a b).
Proof.
  intros Ha Hb c w Hc. unfold merge2 in Hc.
  apply lookup_union_Some_raw in Hc as [Hc|[_ Hc]].
  - by apply (Hb c).
  - by apply (Ha c).
Qed.

Lemma hard_parallel_weights_ok :
  weights_ok good (_build_hard_parallel_constraints obs_lists).
Proof.
  intros c w Hc. apply hard_parallel_weights in Hc as ->.
  right. by exists WMAX.
Qed.

Lemma all_r_occ_not_negative :
  (0 <= _calculate_all_r_occ obs_lists)%Z.
Proof.
  unfold _calculate_all_r_occ.
  assert (forall (trace : list Step) acc, (0 <= acc)%Z ->
    (0 <= foldl (fun all_occ step =>
                   all_occ + Z.of_nat (length (true_prop (state step))))%Z
                acc trace)%Z) as Hinner.
  { induction trace as [|step trace IH]; intros acc Hacc; [done|].
    simpl. apply IH. lia. }
  generalize (traces obs_lists). intros trs.
  assert (forall acc, (0 <= acc)%Z ->
    (0 <= foldl (fun all_occ trace =>
                   foldl (fun all_occ step =>
                            all_occ + Z.of_nat (length (true_prop (state step))))%Z
                         all_occ trace) acc trs)%Z) as Houter.
  { induction trs as [|trace trs IH]; intros acc Hacc; [done|].
    simpl. apply IH. by apply Hinner. }
  by apply Houter.
Qed.

Lemma threshold_loop_weights_ok lit occurrences (all_occ : Z) d :
  (0 <= all_occ)%Z ->
  map_Forall (fun _ row => map_Forall (fun (_ : Fluent) n => (0 <= n)%Z) row)
             occurrences ->
  threshold_loop obs_lists lit occurrences all_occ occ_threshold = Ok d ->
  weights_ok good d.
Proof.
  intros Hocc Hpos. unfold threshold_loop.
  apply for_each_invariant; [|apply map_Forall_empty].
  intros a e e' _ He Hrun.
  apply bind_Ok_inv in Hrun as (row & Hrow & Hrun). revert Hrun.
  apply getitem_inv in Hrow.
  apply for_each_invariant; [|done]. intros r f f' _ Hf Hrun.
  unfold threshold_body in Hrun.
  apply bind_Ok_inv in Hrun as (occ_r & Hr & Hrun). apply getitem_inv in Hr.
  destruct (decide (occ_r > occ_threshold)%Z) as [Hgt|_];
    [|by injection Hrun as <-].
  apply bind_Ok_inv in Hrun as (w & Hw & Hrun). injection Hrun as <-.
  apply map_Forall_insert_2; [|done].
  right. exists w. split; [done|].
  apply truediv_inv in Hw as [Hne ->].
  pose proof (Hpos a row Hrow r occ_r Hr) as Hcount. simpl in Hcount.
  apply good_counts; lia.
Qed.

Lemma noise_7_weights_ok (all_occ : Z) d :
  (0 <= all_occ)%Z ->
  _noise_constraints_7 obs_lists all_occ = Ok d -> weights_ok good d.
Proof.
  intros Hocc Hrun. unfold _noise_constraints_7 in Hrun.
  apply bind_Ok_inv in Hrun as (occurrences & Hcount & Hrun).
  pose proof (rule_7_counts_what_holds _ _ _ Hcount) as Hcounted.
  revert Hrun. apply for_each_invariant; [|apply map_Forall_empty].
  intros i e e' _ He Hrun.
  apply bind_Ok_inv in Hrun as (sets & _ & Hrun).
  apply bind_Ok_inv in Hrun as (sts & Hsts & Hrun). revert Hrun.
  apply index_elem_of in Hsts.
  apply for_each_invariant; [|done]. intros j f f' _ Hf Hrun.
  apply bind_Ok_inv in Hrun as (after & Hafter & Hrun). revert Hrun.
  apply index_elem_of in Hafter.
  apply for_each_invariant; [|done]. intros r g g' Hr Hg Hrun.
  apply bind_Ok_inv in Hrun as (before & _ & Hrun).
  apply bind_Ok_inv in Hrun as (held & _ & Hrun).
  destruct (negb held); [|by injection Hrun as <-].
  apply bind_Ok_inv in Hrun as (n & Hn & Hrun).
  apply bind_Ok_inv in Hrun as (w & Hw & Hrun).
  apply bind_Ok_inv in Hrun as (acts & _ & Hrun). injection Hrun as <-.
  apply map_Forall_insert_2; [|done].
  right. exists w. split; [done|].
  apply truediv_inv in Hw as [Hne ->]. apply getitem_inv in Hn.
  destruct (Hcounted sts after r Hsts Hafter Hr) as (n' & Hn' & Hle).
  rewrite Hn in Hn'. injection Hn' as <-.
  apply good_state_counts; lia.
Qed.

Lemma noise_weights_ok d :
  _build_noise_constraints obs_lists occ_threshold = Ok d -> weights_ok good d.
Proof.
  intros Hrun. unfold _build_noise_constraints in Hrun.
  pose proof all_r_occ_not_negative as Hocc.
  apply bind_Ok_inv in Hrun as (n6 & H6 & Hrun).
  apply bind_Ok_inv in Hrun as (n7 & H7 & Hrun).
  apply bind_Ok_inv in Hrun as (n8 & H8 & Hrun). injection Hrun as <-.
  unfold _noise_constraints_6 in H6. unfold _noise_constraints_8 in H8.
  apply bind_Ok_inv in H6 as (occ6 & Hcount6 & H6).
  apply bind_Ok_inv in H8 as (occ8 & Hcount8 & H8).
  repeat apply merge2_weights_ok.
  - apply (threshold_loop_weights_ok _ _ _ _ Hocc) in H6; [done|].
    by apply (rule_6_counts_not_negative obs_lists).
  - by apply (noise_7_weights_ok _ _ Hocc H7).
  - apply (threshold_loop_weights_ok _ _ _ _ Hocc) in H8; [done|].
    by apply (rule_8_counts_not_negative obs_lists).
Qed.

Lemma set_all_weights_ok s constraints s' :
  _set_all_constraints obs_lists occ_threshold s = (Ok constraints, s') ->
  weights_ok good constraints.
Proof.
  intros Hrun. unfold _set_all_constraints in Hrun.
  apply M_bind_inv in Hrun as (disorder & s1 & Hdis & Hrun).
  apply M_bind_inv in Hrun as (dis & s2 & Hsome & Hrun).
  apply M_bind_inv in Hrun as (par & s3 & Hpar & Hrun).
  apply M_bind_inv in Hrun as (noise & s4 & Hnoise & Hrun).
  injection Hrun as <- _.
  apply lift_inv in Hsome, Hnoise.
  destruct disorder as [d0|]; [|done]. injection Hsome as <-.
  repeat apply merge2_weights_ok.
  - unfold _build_disorder_constraints in Hdis.
    destruct (seq 0 (length (all_par_act_sets obs_lists))) as [|i l]; [done|].
    apply M_bind_inv in Hdis as (sets & t1 & _ & Hdis).
    apply M_bind_inv in Hdis as (d1 & t2 & Htrace & Hdis).
    injection Hdis as <- _.
    eapply disorder_trace_weights_ok; [|exact Htrace].
    apply map_Forall_empty.
  - unfold _build_parallel_constraints in Hpar.
    apply M_bind_inv in Hpar as (soft & t1 & Hsoft & Hpar).
    injection Hpar as <- _.
    apply merge2_weights_ok; [apply hard_parallel_weights_ok|].
    by apply (soft_parallel_weights_ok _ _ _ Hsoft).
  - by apply noise_weights_ok.
Qed.

End Weights.

(** C3, as the code has it. Every weight of the map the aggregator
    assembles is the sentinel ["HARD"] or a number. With probabilities
    between 0 and 1 the numbers are not negative, whatever the
    threshold; with probabilities strictly between 0 and 1 and a
    threshold that is not negative they are positive. The number the
    parallel builder gives its hard constraints is [WMAX], the constant
    1, for every collection. *)
Theorem weights_are_hard_or_positive obs_lists (occ_threshold : Z)
    s constraints s' :
  _set_all_constraints obs_lists occ_threshold s = (Ok constraints, s') ->
  (probabilities_in_range obs_lists ->
   map_Forall (fun _ w => hard_or_not_negative w) constraints) /\
  (probabilities_inside obs_lists -> (0 <= occ_threshold)%Z ->
   map_Forall (fun _ w => hard_or_positive w) constraints) /\
  map_Forall (fun _ w => w = Num 1%Qc)
             (_build_hard_parallel_constraints obs_lists).
Proof.
  intros Hrun. split; [|split; [|apply hard_parallel_weights]].
  - intros Hrange.
    apply (set_all_weights_ok (fun q => (0 <= q)%Qc) obs_lists occ_threshold)
      with s s'; try done.
    + intros pair p Hp. destruct (Hrange pair p Hp) as [Hp0 Hp1]. split.
      * by apply not_negative_scaled, not_negative_complement.
      * by apply not_negative_scaled.
    + intros n m Hn _ Hm. apply not_negative_ratio; lia.
    + intros n m Hn Hm. apply not_negative_ratio; lia.
  - intros Hinside Ht.
    apply (set_all_weights_ok (fun q => (0 < q)%Qc) obs_lists occ_threshold)
      with s s'; try done.
    + intros pair p Hp. destruct (Hinside pair p Hp) as [Hp0 Hp1]. split.
      * by apply positive_scaled, positive_complement.
      * by apply positive_scaled.
    + intros n m _ Hn Hm. apply positive_ratio; lia.
    + intros n m Hn Hm. apply positive_ratio; lia.
Qed.

End AMDNFacts.
End AMDNFacts.

(** ** The properties at the sample collections *)

Module Cases.

Import AMDN AMDNFacts Sample.

(** Refutes [Hin : unit_of n = C] for a clause [C] with two literals
    that differ. *)
Ltac refute_unit Hin :=
  match type of Hin with
  | unit_of ?n = ?C =>
      match C with
      | context [singleton ?v] =>
          match C with
          | context [singleton ?v'] =>
              let Hv := fresh "Hv" in
              let Hv' := fresh "Hv" in
              assert (v ∈ unit_of n) as Hv
                by (rewrite Hin; clear; set_solver);
              assert (v' ∈ unit_of n) as Hv'
                by (rewrite Hin; clear; set_solver);
              unfold unit_of in Hv, Hv';
              apply elem_of_singleton in Hv; apply elem_of_singleton in Hv';
              rewrite <- Hv' in Hv; cbn in Hv;
              (discriminate Hv || (injection Hv; lia))
          end
      end
  end.

(** The formulas the builders register are disjunctions of conjunctions
    of literals. The Tseitin conversion of the sample domain gives such
    a formula no unit clause at all, whatever the proposition, the
    actions and the supply: each clause defining an auxiliary variable
    has a literal besides it, and the last clause has one auxiliary
    variable for each conjunction. So it is for the two hypotheses of
    the disorder builder, the disordered one being the ordered one of
    the swapped actions, and for the formula of the soft parallel
    constraints. *)
Lemma hypothesis_conversion_has_no_unit (r x y : string) (s : nat) n :
  unit_of n ∉ (@to_CNF blocks (@ordered blocks r x y) s).1.
Proof.
  intros Hin. cbn -[fluent_str] in Hin.
  repeat (apply elem_of_cons in Hin; destruct Hin as [Heq|Hin];
          [refute_unit Heq|]).
  by apply elem_of_nil in Hin.
Qed.

Lemma untouched_conversion_has_no_unit (r x y : string) (s : nat) n :
  unit_of n ∉ (@to_CNF blocks (@untouched blocks r x y) s).1.
Proof.
  intros Hin. cbn -[fluent_str] in Hin.
  repeat (apply elem_of_cons in Hin; destruct Hin as [Heq|Hin];
          [refute_unit Heq|]).
  by apply elem_of_nil in Hin.
Qed.

(** C6 at the CNF of the ordered formula of [pick] and [drop], converted
    from the supply 0 and registered with the weight 7/10 in the empty
    map. *)
Lemma ordered_conversion_is_registered :
  (forall n,
     occurs_aux (@to_CNF blocks (@ordered blocks "holding a" "pick" "drop") 0).1 n ->
     unit_of n ∉ (@to_CNF blocks (@ordered blocks "holding a" "pick" "drop") 0).1) /\
  (forall c, c ∈ (@to_CNF blocks (@ordered blocks "holding a" "pick" "drop") 0).1 ->
     _extract_aux_set_weights
       (@to_CNF blocks (@ordered blocks "holding a" "pick" "drop") 0).1 ∅ (Q2Qc (7 # 10)) !! c
     = Some HARD) /\
  (forall n,
     occurs_aux (@to_CNF blocks (@ordered blocks "holding a" "pick" "drop") 0).1 n ->
     _extract_aux_set_weights
       (@to_CNF blocks (@ordered blocks "holding a" "pick" "drop") 0).1 ∅ (Q2Qc (7 # 10))
       !! unit_of n
     = Some (Num (Q2Qc (7 # 10) * WMAX)%Qc)) /\
  @register blocks (@ordered blocks "holding a" "pick" "drop") (Q2Qc (7 # 10)) ∅ 0
  = (Ok (_extract_aux_set_weights
           (@to_CNF blocks (@ordered blocks "holding a" "pick" "drop") 0).1 ∅ (Q2Qc (7 # 10))),
     (@to_CNF blocks (@ordered blocks "holding a" "pick" "drop") 0).2).
Proof.
  assert (forall n,
     occurs_aux (@to_CNF blocks (@ordered blocks "holding a" "pick" "drop") 0).1 n ->
     unit_of n ∉ (@to_CNF blocks (@ordered blocks "holding a" "pick" "drop") 0).1)
    as Hno_unit
    by (intros n _; apply hypothesis_conversion_has_no_unit).
  destruct (converted_clauses_hard_auxiliaries_soft
              (@to_CNF blocks (@ordered blocks "holding a" "pick" "drop") 0).1 ∅
              (Q2Qc (7 # 10)) Hno_unit)
    as (Hhard & Hsoft & _ & _ & Hregister).
  split; [exact Hno_unit|].
  split; [exact Hhard|]. split; [exact Hsoft|].
  exact (Hregister (@ordered blocks "holding a" "pick" "drop") 0 eq_refl).
Defined.

(** C9 at a collection of action-only observations. *)
Lemma new_rejects_action_observations :
  type action_only <> NoisyPartialDisorderedParallelObservation /\
  new action_only 0%Z 0 =
  (Raise (IncompatibleObservationToken ActionObservation Py.AMDN), 0).
Proof.
  split; [done|].
  apply (new_rejects_other_tokens action_only 0%Z 0). done.
Defined.

(** C3, as stated, fails. At [one_step] the only soft weight is 1, the
    value of [WMAX], which is therefore not greater than the sum of the
    soft weights; at [certain_order], where the probability is 0, one of
    the soft weights is 0; and at [pick_drop] with the threshold -1 one
    of the soft weights is 0 as well. *)
Lemma soft_weights_reach_the_sentinel :
  (exists constraints,
     (_set_all_constraints one_step 0%Z 0).1 = Ok constraints /\
     soft_weights constraints = [1%Qc] /\
     ~ (total (soft_weights constraints) < WMAX)%Qc) /\
  (exists constraints,
     (_set_all_constraints certain_order 0%Z 0).1 = Ok constraints /\
     0%Qc ∈ soft_weights constraints /\
     ~ Forall (fun q => (0 < q)%Qc) (soft_weights constraints)) /\
  (exists constraints,
     (_set_all_constraints pick_drop (-1)%Z 0).1 = Ok constraints /\
     0%Qc ∈ soft_weights constraints /\
     ~ Forall (fun q => (0 < q)%Qc) (soft_weights constraints)).
Proof.
  split; [|split].
  - assert (match (_set_all_constraints one_step 0%Z 0).1 with
            | Ok m => soft_weights m
            | Raise _ => []
            end = [1%Qc]) as Hw by (vm_compute; reflexivity).
    destruct (_set_all_constraints one_step 0%Z 0).1 as [m|e]; [|done].
    exists m. split; [done|]. rewrite Hw. split; [done|].
    vm_compute. intros Hlt. discriminate Hlt.
  - assert (match (_set_all_constraints certain_order 0%Z 0).1 with
            | Ok m => bool_decide (0%Qc ∈ soft_weights m)
            | Raise _ => false
            end = true) as Hw by (vm_compute; reflexivity).
    destruct (_set_all_constraints certain_order 0%Z 0).1 as [m|e]; [|done].
    apply bool_decide_eq_true in Hw.
    exists m. split; [done|]. split; [done|].
    intros Hall. rewrite Forall_forall in Hall.
    apply Hall in Hw. vm_compute in Hw. discriminate Hw.
  - assert (match (_set_all_constraints pick_drop (-1)%Z 0).1 with
            | Ok m => bool_decide (0%Qc ∈ soft_weights m)
            | Raise _ => false
            end = true) as Hw by (vm_compute; reflexivity).
    destruct (_set_all_constraints pick_drop (-1)%Z 0).1 as [m|e]; [|done].
    apply bool_decide_eq_true in Hw.
    exists m. split; [done|]. split; [done|].
    intros Hall. rewrite Forall_forall in Hall.
    apply Hall in Hw. vm_compute in Hw. discriminate Hw.
Qed.

Lemma pick_drop_probabilities_in_range : probabilities_in_range pick_drop.
Proof.
  apply map_Forall_singleton. split; vm_compute; intros Hle; discriminate Hle.
Qed.

Lemma pick_drop_probabilities_inside : probabilities_inside pick_drop.
Proof. apply map_Forall_singleton. split; vm_compute; reflexivity. Qed.

(** C3 at [pick_drop], whose probability is 3/10, with the threshold
    0. *)
Lemma pick_drop_weights :
  exists constraints s',
    _set_all_constraints pick_drop 0%Z 0 = (Ok constraints, s') /\
    map_Forall (fun _ w => hard_or_not_negative w) constraints /\
    map_Forall (fun _ w => hard_or_positive w) constraints.
Proof.
  assert (is_Ok (_set_all_constraints pick_drop 0%Z 0).1 = true) as Hok
    by (vm_compute; reflexivity).
  destruct (_set_all_constraints pick_drop 0%Z 0) as [[constraints|e] s']
    eqn:Hrun; [|done].
  exists constraints, s'. split; [done|].
  destruct (weights_are_hard_or_positive pick_drop 0%Z 0 constraints s' Hrun)
    as (Hnot_negative & Hpositive & _).
  split.
  - exact (Hnot_negative pick_drop_probabilities_in_range).
  - apply (Hpositive pick_drop_probabilities_inside). lia.
Defined.

Lemma pick_drop_probabilities_cover :
  probabilities_cover pick_drop [["pick"]; ["drop"]].
Proof.
  intros j xs ys act_x act_y Hxs Hys Hx Hy _.
  destruct j as [|[|j]]; [|done|done].
  injection Hxs as <-. injection Hys as <-.
  apply list_elem_of_singleton in Hx as ->.
  apply list_elem_of_singleton in Hy as ->.
  exists (Q2Qc (3 # 10)). vm_compute. reflexivity.
Qed.

(** C5, as stated, fails at [pick_drop], where [drop] follows [pick]
    with the probability 3/10 and ["holding a"] is the only proposition.
    The disjunction the ordered formula is converted to is in the map
    with ["HARD"], and the soft weights of the one triple are eight,
    7/10 and 3/10 four times each: they add up to 4, not to [WMAX]. *)
Lemma hypothesis_formulas_are_hard_at_pick_drop :
  exists d s',
    _build_disorder_constraints pick_drop 0 = (Ok (Some d), s') /\
    (exists top,
       last (@to_CNF blocks (@ordered blocks "holding a" "pick" "drop") 0).1 = Some top /\
       d !! top = Some HARD) /\
    length (soft_weights d) = 8 /\
    total (soft_weights d) = Q2Qc (4 # 1) /\
    total (soft_weights d) <> WMAX.
Proof.
  assert (match (_build_disorder_constraints pick_drop 0).1 with
          | Ok (Some m) =>
              (length (soft_weights m), this (total (soft_weights m)),
               match last (@to_CNF blocks (@ordered blocks "holding a" "pick" "drop") 0).1 with
               | Some top => bool_decide (m !! top = Some HARD)
               | None => false
               end)
          | _ => (0, 0%Q, false)
          end = (8, 4%Q, true)) as Hrun by (vm_compute; reflexivity).
  destruct (_build_disorder_constraints pick_drop 0) as [[[d|]|e] s'];
    cbn [fst] in Hrun.
  2-3: by injection Hrun as _ _ Hno.
  injection Hrun as Hlength Htotal Htop.
  exists d, s'. split; [reflexivity|].
  assert (total (soft_weights d) = Q2Qc (4 # 1)) as Hfour.
  { apply Qc_is_canon. rewrite Htotal. vm_compute. reflexivity. }
  split; [|split; [exact Hlength|split; [exact Hfour|]]].
  - apply bool_decide_eq_true in Htop.
    eexists. split; [|exact Htop]. reflexivity.
  - rewrite Hfour. intros Heq. apply (f_equal this) in Heq.
    vm_compute in Heq. discriminate Heq.
Qed.

Lemma pick_drop_names_are_fresh :
  fresh_names
    (conversions (trace_hypotheses pick_drop [["pick"]; ["drop"]]) 0).*1
  = true.
Proof. vm_compute. reflexivity. Qed.

(** C5 at [pick_drop]. *)
Lemma pick_drop_auxiliaries_carry_the_weights :
  all_par_act_sets pick_drop = [["pick"]; ["drop"]] :: [] /\
  probabilities_cover pick_drop [["pick"]; ["drop"]] /\
  exists d s' s_o,
    _build_disorder_constraints pick_drop 0 = (Ok (Some d), s') /\
    (forall c q, d !! c = Some (Num q) ->
       exists n, is_aux n = true /\ c = unit_of n) /\
    (forall c,
       c ∈ (@to_CNF blocks (@ordered blocks "holding a" "pick" "drop") s_o).1 ->
       d !! c = Some HARD) /\
    (forall n,
       occurs_aux (@to_CNF blocks (@ordered blocks "holding a" "pick" "drop") s_o).1 n ->
       d !! unit_of n = Some (Num ((1 - Q2Qc (3 # 10)) * WMAX)%Qc)) /\
    (forall n,
       occurs_aux
         (@to_CNF blocks (@disordered blocks "holding a" "pick" "drop")
                 (@to_CNF blocks (@ordered blocks "holding a" "pick" "drop") s_o).2).1 n ->
       d !! unit_of n = Some (Num (Q2Qc (3 # 10) * WMAX)%Qc)).
Proof.
  pose proof pick_drop_probabilities_cover as Hcover.
  split; [reflexivity|]. split; [exact Hcover|].
  destruct (disorder_weights_go_to_the_auxiliaries
              pick_drop [["pick"]; ["drop"]] [] 0 eq_refl Hcover
              pick_drop_names_are_fresh)
    as (d & s' & Hrun & Hsoft & Hpairs).
  destruct (Hpairs 0 ["pick"] ["drop"] "pick" "drop" "holding a")
    as (p & s_o & Hp & _ & Hhard & Hordered & Hdisordered & _).
  1-2: reflexivity.
  1-2: by apply list_elem_of_singleton.
  1: discriminate.
  1: by apply list_elem_of_singleton.
  assert (p = Q2Qc (3 # 10)) as ->.
  { assert (Some p = Some (Q2Qc (3 # 10))) as Hlook
      by (rewrite <- Hp; vm_compute; reflexivity).
    by injection Hlook. }
  exists d, s', s_o. split; [exact Hrun|]. split; [exact Hsoft|].
  split; [|split; [exact Hordered|exact Hdisordered]].
  intros c Hc. apply Hhard. by left.
Defined.

Lemma nothing_true_has_no_true_proposition : no_true_proposition nothing_true.
Proof.
  split.
  - intros trace step Htrace Hstep.
    apply list_elem_of_singleton in Htrace as ->.
    apply list_elem_of_singleton in Hstep as ->.
    vm_compute. reflexivity.
  - intros sts s Hsts Hs. apply list_elem_of_singleton in Hsts as ->.
    assert (s = released) as ->.
    { apply elem_of_cons in Hs as [->|Hs]; [reflexivity|].
      apply list_elem_of_singleton in Hs. exact Hs. }
    vm_compute. reflexivity.
Qed.

Lemma nothing_true_states_cover_sets : states_cover_sets nothing_true.
Proof.
  intros i sets Hsets. destruct i as [|i]; [|discriminate Hsets].
  injection Hsets as <-.
  exists [released; released]. split; [reflexivity|]. simpl. lia.
Qed.

(** C7, as stated, fails for a negative threshold: with no true
    proposition the total is zero, every count of zero exceeds the
    threshold, and Rule 6 divides by the total. *)
Lemma negative_threshold_divides_by_zero :
  no_true_proposition nothing_true /\
  states_cover_sets nothing_true /\
  _calculate_all_r_occ nothing_true = 0%Z /\
  is_Ok (_build_noise_constraints nothing_true (-1)%Z) = false /\
  _noise_constraints_6 nothing_true 0%Z (-1)%Z = Raise ZeroDivisionError.
Proof.
  split; [exact nothing_true_has_no_true_proposition|].
  split; [exact nothing_true_states_cover_sets|].
  split; [vm_compute; reflexivity|].
  split; [vm_compute; reflexivity|].
  assert (match _noise_constraints_6 nothing_true 0%Z (-1)%Z with
          | Ok _ => None
          | Raise e => Some e
          end = Some ZeroDivisionError) as He by (vm_compute; reflexivity).
  destruct (_noise_constraints_6 nothing_true 0%Z (-1)%Z) as [m|e];
    [discriminate He|].
  injection He as ->. reflexivity.
Qed.

(** C7 at [nothing_true], with threshold 0. *)
Lemma nothing_true_no_noise :
  (0 <= 0)%Z /\
  no_true_proposition nothing_true /\
  states_cover_sets nothing_true /\
  _build_noise_constraints nothing_true 0%Z = Ok ∅.
Proof.
  split; [lia|].
  split; [exact nothing_true_has_no_true_proposition|].
  split; [exact nothing_true_states_cover_sets|].
  apply (no_noise_without_true_propositions nothing_true 0%Z);
    [lia|exact nothing_true_has_no_true_proposition
        |exact nothing_true_states_cover_sets].
Defined.

(** C8 at [pick_drop], raising the threshold from 0 to 1. *)
Lemma pick_drop_thresholds :
  (0 <= 1)%Z /\
  produced (_noise_constraints_6 pick_drop 2%Z 1%Z)
    ⊆ produced (_noise_constraints_6 pick_drop 2%Z 0%Z) /\
  produced (_noise_constraints_8 pick_drop 2%Z 1%Z)
    ⊆ produced (_noise_constraints_8 pick_drop 2%Z 0%Z).
Proof.
  destruct (raising_the_threshold_removes pick_drop 2%Z 0%Z 1%Z ltac:(lia))
    as (H6 & H8 & _ & _ & _ & _).
  split; [lia|]. split; [exact H6|exact H8].
Defined.

(** C1 at [one_step], C2 at [two_traces]: one action and one
    proposition, yet no hard parallel constraint; a pair [pick], [drop]
    in the second trace, yet no disorder constraint. *)
Lemma nothing_registered :
  _build_hard_parallel_constraints one_step = ∅ /\
  _build_disorder_constraints two_traces 0 = (Ok (Some ∅), 0).
Proof. split; reflexivity. Qed.

End Cases.

(** ** Calls that raise exceptions of [macq] *)

Lemma outcome_bind_Return {A B} (x : A) (k : A -> outcome B) :
  mbind k (Return x) = k x.
Proof. reflexivity. Qed.

Lemma outcome_bind_inv {A B} (r : outcome A) (k : A -> outcome B) (b : B) :
  mbind k r = Return b -> exists x, r = Return x /\ k x = Return b.
Proof. destruct r as [x|e]; [|done]. intros Hk. by exists x. Qed.

(** ** Costs and usage of a trace *)

Module TraceObjectFacts.
Section TraceObjectFacts.

Import TraceObject.

Context {Action State : Type} `{EqDecision Action} (cost : Action -> Z).

Implicit Types (self : @TraceObject Action State) (a : Action).
Implicit Types (l rest : list (@Trace.Step Action State)).

Lemma total_loop_spec rest : forall sum,
  total_loop cost rest sum =
  if forallb has_action rest then Return (sum + costs cost rest)%Z
  else Throw (Builtin AttributeError).
Proof.
  induction rest as [|step rest IH]; intros sum; simpl.
  - f_equal. lia.
  - unfold action_cost, has_action at 1.
    destruct (Trace.action step) as [a|]; [|done].
    rewrite outcome_bind_Return, IH. simpl.
    destruct (forallb has_action rest); [|done]. f_equal. lia.
Qed.

(** [get_total_cost] returns exactly when every step has an action, and
    then the sum of the costs of the actions; a step without an action
    (the action is [None]) makes it raise [AttributeError]. *)
Theorem total_cost_needs_every_action self :
  get_total_cost cost self =
  if forallb has_action (steps self)
  then Return (costs cost (steps self))
  else Throw (Builtin AttributeError).
Proof. unfold get_total_cost. by rewrite total_loop_spec. Qed.

Lemma range_loop_steps self : forall n i sum,
  i + n <= length (steps self) ->
  range_loop cost self (seq i n) sum =
  total_loop cost (take n (drop i (steps self))) sum.
Proof.
  induction n as [|n IH]; intros i sum Hlen; [done|].
  destruct (lookup_lt_is_Some_2 (steps self) i ltac:(lia)) as [step Hstep].
  rewrite (drop_S _ _ _ Hstep). simpl.
  unfold index. rewrite Hstep. simpl.
  destruct (action_cost cost step) as [c|e]; [|done].
  simpl. apply IH. lia.
Qed.

(** A range within [1 .. num_steps], on a trace that still has
    [num_steps] steps or more, costs what the steps of the range cost as
    a trace of their own. *)
Theorem cost_range_is_cost_of_its_steps self (start end_ : Z) :
  (1 <= start)%Z -> (start <= end_)%Z -> (end_ <= num_steps self)%Z ->
  (num_steps self <= Z.of_nat (length (steps self)))%Z ->
  get_cost_range cost self start end_ =
  get_total_cost cost (init (steps_between self start end_)).
Proof.
  intros Hs Hse He Hlen. unfold get_cost_range.
  destruct (decide _) as [Hout|_]; [lia|].
  destruct (decide _) as [Hgt|_]; [lia|].
  unfold get_total_cost, init, steps_between. simpl.
  apply range_loop_steps. lia.
Qed.

Lemma range_loop_from self range : forall sum v,
  range_loop cost self range 0%Z = Return v ->
  range_loop cost self range sum = Return (sum + v)%Z.
Proof.
  assert (forall sum1 sum2 v,
    range_loop cost self range sum1 = Return v ->
    range_loop cost self range sum2 = Return (sum2 - sum1 + v)%Z) as Hshift.
  { induction range as [|i range IH]; intros sum1 sum2 v Hrun;
      cbn [range_loop] in *.
    - injection Hrun as <-. f_equal. lia.
    - apply outcome_bind_inv in Hrun as (step & Hstep & Hrun).
      apply outcome_bind_inv in Hrun as (c & Hc & Hrun).
      rewrite Hstep, outcome_bind_Return, Hc, outcome_bind_Return.
      rewrite (IH _ (sum2 + c)%Z _ Hrun). f_equal. lia. }
  intros sum v Hrun. rewrite (Hshift _ sum _ Hrun). f_equal. lia.
Qed.

Lemma range_loop_app self range1 : forall range2 sum v1 v2,
  range_loop cost self range1 sum = Return v1 ->
  range_loop cost self range2 v1 = Return v2 ->
  range_loop cost self (range1 ++ range2) sum = Return v2.
Proof.
  induction range1 as [|i range1 IH]; intros range2 sum v1 v2 H1 H2.
  - simpl in *. by injection H1 as <-.
  - cbn [range_loop app] in *.
    apply outcome_bind_inv in H1 as (step & Hstep & H1).
    apply outcome_bind_inv in H1 as (c & Hc & H1).
    rewrite Hstep, outcome_bind_Return, Hc, outcome_bind_Return.
    by apply (IH _ _ v1).
Qed.

Lemma cost_range_returned self (start end_ v : Z) :
  get_cost_range cost self start end_ = Return v ->
  (1 <= start)%Z /\ (start <= end_)%Z /\ (end_ <= num_steps self)%Z /\
  range_loop cost self (seq (Z.to_nat (start - 1))
                            (Z.to_nat (end_ - (start - 1)))) 0%Z = Return v.
Proof.
  unfold get_cost_range.
  destruct (decide _) as [|Hin]; [done|].
  destruct (decide _) as [|Hle]; [done|].
  intros Hrun. repeat split; try lia. exact Hrun.
Qed.

(** The cost of a range is the sum of the costs of two ranges that
    split it: when [get_cost_range] returns on [start .. mid] and on
    [mid + 1 .. end_], it returns their sum on [start .. end_]. *)
Theorem cost_range_splits self (start mid end_ v1 v2 : Z) :
  get_cost_range cost self start mid = Return v1 ->
  get_cost_range cost self (mid + 1) end_ = Return v2 ->
  get_cost_range cost self start end_ = Return (v1 + v2)%Z.
Proof.
  intros H1 H2.
  apply cost_range_returned in H1 as (Hs & Hsm & Hm & H1).
  apply cost_range_returned in H2 as (_ & Hme & He & H2).
  unfold get_cost_range.
  destruct (decide _) as [Hout|_]; [lia|].
  destruct (decide _) as [Hgt|_]; [lia|].
  replace (Z.to_nat (end_ - (start - 1)))
    with (Z.to_nat (mid - (start - 1)) + Z.to_nat (end_ - (mid + 1 - 1)))
    by lia.
  rewrite seq_app.
  replace (Z.to_nat (start - 1) + Z.to_nat (mid - (start - 1)))
    with (Z.to_nat (mid + 1 - 1)) by lia.
  apply (range_loop_app _ _ _ _ v1); [exact H1|].
  by apply range_loop_from.
Qed.

Lemma usage_count l a : forall sum,
  foldl (fun sum step => if Trace.acts a step then (sum + 1)%Z else sum)
        sum l
  = (sum + Z.of_nat (Trace.occurrences l a))%Z.
Proof.
  unfold Trace.occurrences.
  induction l as [|step l IH]; intros sum; simpl; [lia|].
  rewrite IH. destruct (Trace.acts a step); simpl; lia.
Qed.

Lemma occurrences_at_most_length l a : Trace.occurrences l a <= length l.
Proof.
  unfold Trace.occurrences.
  induction l as [|step l IH]; simpl; [lia|].
  destruct (Trace.acts a step); simpl; lia.
Qed.

Lemma ratio_at_most_one (n m : Z) :
  (0 <= n)%Z -> (n <= m)%Z -> (0 < m)%Z ->
  (0 <= Q2Qc (inject_Z n) / Q2Qc (inject_Z m))%Qc /\
  (Q2Qc (inject_Z n) / Q2Qc (inject_Z m) <= 1)%Qc.
Proof.
  intros Hn Hnm Hm. unfold Qcle, Qcdiv, Qcmult, Qcinv, Q2Qc. simpl.
  rewrite !Qred_correct. split.
  - apply Qmult_le_0_compat.
    + change 0%Q with (inject_Z 0). by rewrite <- Zle_Qle.
    + apply Qinv_le_0_compat. change 0%Q with (inject_Z 0).
      rewrite <- Zle_Qle. lia.
  - apply Qle_shift_div_r.
    + change 0%Q with (inject_Z 0). by rewrite <- Zlt_Qlt.
    + rewrite Qmult_1_l. by rewrite <- Zle_Qle.
Qed.

(** On a trace as [__init__] leaves it and with at least one step,
    [get_usage] returns the share of the steps that perform the action,
    a number between 0 and 1. *)
Theorem usage_is_a_share l a :
  l <> [] ->
  exists q,
    get_usage (init l) a = Return q /\
    q = (Q2Qc (inject_Z (Z.of_nat (Trace.occurrences l a)))
         / Q2Qc (inject_Z (Z.of_nat (length l))))%Qc /\
    (0 <= q)%Qc /\ (q <= 1)%Qc.
Proof.
  intros Hl. unfold get_usage, init. simpl. rewrite usage_count.
  unfold truediv.
  destruct (decide (Z.of_nat (length l) = 0%Z)) as [Hz|_].
  { destruct l; [done|simpl in Hz; lia]. }
  eexists. split; [reflexivity|]. split; [reflexivity|].
  pose proof (occurrences_at_most_length l a).
  apply ratio_at_most_one; try lia.
  destruct l; [done|simpl; lia].
Qed.

(** [num_steps] is fixed by [__init__]. Steps added later count in the
    total cost, but [get_cost_range] rejects every range that reaches
    them, and [get_usage] still divides by the first count: on a trace
    created empty it raises [ZeroDivisionError] whatever was added. *)
Theorem later_steps_are_out_of_range l more (start end_ : Z) a :
  get_total_cost cost (add_steps (init l) more)
  = get_total_cost cost (init (l ++ more)) /\
  ((Z.of_nat (length l) < end_)%Z ->
   get_cost_range cost (add_steps (init l) more) start end_
   = Throw (InvalidCostRange
              "Range supplied goes out of the feasible range.")) /\
  get_usage (add_steps (init []) more) a = Throw (Builtin ZeroDivisionError).
Proof.
  split; [done|]. split.
  - intros He. unfold get_cost_range. simpl.
    destruct (decide _) as [_|Hin]; [done|]. lia.
  - unfold get_usage, add_steps, init. cbn [steps num_steps].
    rewrite usage_count. reflexivity.
Qed.

End TraceObjectFacts.
End TraceObjectFacts.

(** ** Pre-states, post-states and triples of one action *)

Module TripleFacts.
Section TripleFacts.

Import Trace TraceFacts.

Context {Action State : Type} `{EqDecision Action}.

Implicit Types (self rest : list (@Step Action State)) (a : Action).

Lemma pre_states_of_successors self a :
  acts_last self a = false ->
  map (fun p => state p.1) (successors self a) = get_pre_states self a.
Proof.
  induction self as [|step rest IH]; [done|].
  destruct rest as [|next rest'].
  - unfold acts_last. simpl. by intros ->.
  - rewrite acts_last_cons. intros Hlast. specialize (IH Hlast).
    change (get_pre_states (step :: next :: rest') a) with
      (if acts a step then state step :: get_pre_states (next :: rest') a
       else get_pre_states (next :: rest') a).
    change (successors (step :: next :: rest') a) with
      (if acts a step then (step, next) :: successors (next :: rest') a
       else successors (next :: rest') a).
    destruct (acts a step); [|exact IH].
    change (state step :: map (fun p => state p.1)
                              (successors (next :: rest') a)
            = state step :: get_pre_states (next :: rest') a).
    by rewrite IH.
Qed.

(** The three queries agree. When [get_sas_triples] returns, every
    triple carries the queried action, the pre-states of the triples are
    the list [get_pre_states] returns and their post-states are the list
    [get_post_states] returns; when it raises, it raises [IndexError]
    and so does [get_post_states], while [get_pre_states] never
    raises. *)
Theorem triples_pair_pre_and_post_states self a :
  match get_sas_triples self a with
  | Ok triples =>
      map pre_state triples = get_pre_states self a /\
      get_post_states self a = Ok (map post_state triples) /\
      Forall (fun t => sas_action t = a) triples
  | Raise e =>
      e = IndexError /\ get_post_states self a = Raise IndexError
  end.
Proof.
  unfold get_sas_triples, get_post_states.
  pose proof (post_states_loop_spec self [] a []) as Hp.
  pose proof (sas_triples_loop_spec self [] a []) as Hs.
  simpl in Hp, Hs. rewrite Hp, Hs.
  destruct (acts_last self a) eqn:Hlast; [done|].
  split; [|split].
  - rewrite <- (pre_states_of_successors self a Hlast).
    rewrite map_map. done.
  - by rewrite map_map.
  - apply Forall_forall. intros t Ht.
    apply list_elem_of_fmap in Ht as (p & -> & _). done.
Qed.

End TripleFacts.
End TripleFacts.

(** ** The costs of the sample trace *)

Module TraceCases.

Import Trace TraceObject SampleTrace.

(** The first two steps of [walk] cost 8. *)
Lemma walk_range_is_sub_trace :
  (1 <= 1)%Z /\ (1 <= 2)%Z /\ (2 <= num_steps (init walk))%Z /\
  (num_steps (init walk) <= Z.of_nat (length (steps (init walk))))%Z /\
  get_cost_range name_cost (init walk) 1 2 = Return 8%Z.
Proof.
  assert (1 <= 1)%Z as H1 by lia.
  assert (1 <= 2)%Z as H2 by lia.
  assert (2 <= num_steps (init walk))%Z as H3 by (simpl; lia).
  assert (num_steps (init walk)
          <= Z.of_nat (length (steps (init walk))))%Z as H4 by (simpl; lia).
  split; [exact H1|]. split; [exact H2|]. split; [exact H3|].
  split; [exact H4|].
  rewrite (TraceObjectFacts.cost_range_is_cost_of_its_steps
             name_cost (init walk) 1 2 H1 H2 H3 H4).
  reflexivity.
Defined.

Lemma walk_range_splits :
  get_cost_range name_cost (init walk) 1 1 = Return 4%Z /\
  get_cost_range name_cost (init walk) (1 + 1) 3 = Return 8%Z /\
  get_cost_range name_cost (init walk) 1 3 = Return (4 + 8)%Z.
Proof.
  assert (get_cost_range name_cost (init walk) 1 1 = Return 4%Z) as H1
    by reflexivity.
  assert (get_cost_range name_cost (init walk) (1 + 1) 3 = Return 8%Z) as H2
    by reflexivity.
  split; [exact H1|]. split; [exact H2|].
  exact (TraceObjectFacts.cost_range_splits name_cost (init walk)
           1 1 3 4 8 H1 H2).
Defined.

Lemma walk_usage :
  walk <> [] /\
  exists q, get_usage (init walk) "pick" = Return q /\
            (0 <= q)%Qc /\ (q <= 1)%Qc.
Proof.
  split; [done|].
  destruct (TraceObjectFacts.usage_is_a_share walk "pick" ltac:(done))
    as (q & Hq & _ & H0 & H1).
  by exists q.
Defined.

End TraceCases.

(** ** Loops that stop at an exception *)

Lemma bind_Raise_inv {A B} (r : result A) (k : A -> result B) (e : exn) :
  mbind k r = Raise e ->
  r = Raise e \/ exists x, r = Ok x /\ k x = Raise e.
Proof.
  intros Hrun. destruct r as [x|e']; [right; by exists x|left; simpl in Hrun; by injection Hrun as ->].
Qed.

Lemma for_each_raises_only {A S} (P : exn -> Prop) (xs : list A)
    (body : A -> S -> result S) :
  (forall x s e, x ∈ xs -> body x s = Raise e -> P e) ->
  forall s e, for_each xs body s = Raise e -> P e.
Proof.
  induction xs as [|x xs IH]; intros Hbody s e Hrun; [done|].
  simpl in Hrun. apply bind_Raise_inv in Hrun as [Hx|(s1 & Hx & Hrun)].
  - eapply Hbody; [by left|exact Hx].
  - eapply IH; [|exact Hrun]. intros y t e' Hy. apply Hbody. by right.
Qed.

Lemma for_each_stops {A S} (xs : list A) (body : A -> S -> result S) (x : A) :
  x ∈ xs -> (forall s, is_Ok (body x s) = false) ->
  forall s, is_Ok (for_each xs body s) = false.
Proof.
  induction xs as [|y xs IH]; intros Hx Hraise s.
  - by apply not_elem_of_nil in Hx.
  - simpl. apply elem_of_cons in Hx as [<-|Hx].
    + specialize (Hraise s). by destruct (body x s).
    + destruct (body y s) as [s1|e]; [|done]. rewrite bind_Ok. by apply IH.
Qed.

(** Every round of a loop that returned has returned, from a state the
    invariant [P] holds of. *)
Lemma for_each_rounds {A S} (P : S -> Prop) (xs : list A)
    (body : A -> S -> result S) :
  (forall x s s', x ∈ xs -> P s -> body x s = Ok s' -> P s') ->
  forall s s', P s -> for_each xs body s = Ok s' ->
  forall x, x ∈ xs -> exists s1 s2, P s1 /\ body x s1 = Ok s2.
Proof.
  induction xs as [|y xs IH]; intros Hbody s s' Hs Hrun x Hx.
  - by apply not_elem_of_nil in Hx.
  - simpl in Hrun. apply bind_Ok_inv in Hrun as (s1 & Hy & Hrun).
    apply elem_of_cons in Hx as [->|Hx].
    + by exists s, s1.
    + eapply IH; [|exact (Hbody y s s1 ltac:(by left) Hs Hy)|exact Hrun|done].
      intros z t t' Hz. apply Hbody. by right.
Qed.

(** ** More on the AMDN builders *)

Module AMDNBuilderFacts.
Section AMDNBuilderFacts.

Import AMDN AMDNFacts.

Context `{Domain}.

Implicit Types (obs_lists : ObservationLists) (d : dict) (c : clause).

(** *** Loops over the supply of names *)

Lemma M_bind_raise_inv {A B} (m : M A) (k : A -> M B) s e s' :
  (mbind k m) s = (Raise e, s') ->
  m s = (Raise e, s') \/
  exists x s1, m s = (Ok x, s1) /\ k x s1 = (Raise e, s').
Proof.
  rewrite M_bind_at. destruct (m s) as [[x|e1] s1]; intros Hk.
  - right. by exists x, s1.
  - left. by injection Hk as -> ->.
Qed.

Lemma for_M_raises_only {A S} (P : exn -> Prop) (xs : list A)
    (body : A -> S -> M S) :
  (forall x (a : S) s e s', x ∈ xs -> body x a s = (Raise e, s') -> P e) ->
  forall (a : S) s e s', for_M xs body a s = (Raise e, s') -> P e.
Proof.
  induction xs as [|x xs IH]; intros Hbody a s e s' Hrun; [done|].
  simpl in Hrun.
  apply M_bind_raise_inv in Hrun as [Hx|(a1 & s1 & Hx & Hrun)].
  - eapply Hbody; [by left|exact Hx].
  - eapply IH; [|exact Hrun]. intros y b t e' t' Hy. apply Hbody. by right.
Qed.

Lemma for_M_rounds {A S} (xs : list A) (body : A -> S -> M S) :
  forall (a : S) s (a' : S) s', for_M xs body a s = (Ok a', s') ->
  forall x, x ∈ xs -> exists (a1 : S) s1 (a2 : S) s2,
    body x a1 s1 = (Ok a2, s2).
Proof.
  induction xs as [|y xs IH]; intros a s a' s' Hrun x Hx.
  - by apply not_elem_of_nil in Hx.
  - simpl in Hrun. apply M_bind_inv in Hrun as (a1 & s1 & Hy & Hrun).
    apply elem_of_cons in Hx as [->|Hx].
    + by exists a, s, a1, s1.
    + by eapply IH.
Qed.

Lemma register_returns f (prob : Qc) d s :
  exists d' s', register f prob d s = (Ok d', s').
Proof. unfold register. destruct (to_CNF f s). by eexists _, _. Qed.

Lemma register_all_returns regs d s :
  exists d' s', register_all regs d s = (Ok d', s').
Proof.
  unfold register_all. revert d s.
  induction regs as [|[f prob] regs IH]; intros d s.
  - by exists d, s.
  - simpl. rewrite M_bind_at.
    destruct (register_returns f prob d s) as (d1 & s1 & ->). apply IH.
Qed.

(** *** An empty collection *)

(** With no trace the disorder builder's loop does not run and the call
    returns [None]; unpacking it in [_set_all_constraints] raises
    [TypeError] before any formula is converted, and so do
    [_solve_constraints] and, for a collection of the right token,
    [AMDN.__new__]. *)
Theorem no_trace_is_a_type_error obs_lists (occ_threshold : Z) (s : Supply) :
  all_par_act_sets obs_lists = [] ->
  _build_disorder_constraints obs_lists s = (Ok None, s) /\
  _set_all_constraints obs_lists occ_threshold s = (Raise TypeError, s) /\
  (_solve_constraints obs_lists occ_threshold s).1 = Raise TypeError /\
  (type obs_lists = NoisyPartialDisorderedParallelObservation ->
   new obs_lists occ_threshold s = (Raise TypeError, s)).
Proof.
  intros Hnone.
  assert (_build_disorder_constraints obs_lists s = (Ok None, s)) as Hd.
  { unfold _build_disorder_constraints. by rewrite Hnone. }
  assert (_set_all_constraints obs_lists occ_threshold s = (Raise TypeError, s))
    as Hall.
  { unfold _set_all_constraints. by rewrite M_bind_at, Hd. }
  assert (_solve_constraints obs_lists occ_threshold s = (Raise TypeError, s))
    as Hsolve.
  { unfold _solve_constraints. by rewrite M_bind_at, Hall. }
  repeat split; [done|done|by rewrite Hsolve|].
  intros Hty. unfold new. destruct (decide _) as [Hne|_]; [done|].
  by rewrite M_bind_at, Hsolve.
Qed.

(** *** When the disorder builder returns *)

Lemma disorder_pair_raises obs_lists act_x act_y d s e s' :
  disorder_pair obs_lists act_x act_y d s = (Raise e, s') -> e = KeyError.
Proof.
  unfold disorder_pair. destruct (decide (act_x <> act_y)); [|done].
  intros Hrun. apply M_bind_raise_inv in Hrun as [Hp|(p & s1 & _ & Hrun)].
  - unfold lift, getitem in Hp. destruct (_ !! _); [done|by injection Hp as <- _].
  - exfalso. revert Hrun.
    apply (for_M_raises_only (fun _ => False)).
    intros r d1 t e1 t1 _ Hr.
    apply M_bind_raise_inv in Hr as [Hr|(d2 & t2 & _ & Hr)].
    + by destruct (register_returns (ordered r act_x act_y) (1 - p)%Qc d1 t)
        as (? & ? & Heq); rewrite Heq in Hr.
    + by destruct (register_returns (disordered r act_x act_y) p d2 t2)
        as (? & ? & Heq); rewrite Heq in Hr.
Qed.

(** The loop nest of the disorder builder returns exactly when the
    probability table has an entry for every pair of distinct actions
    from adjacent parallel action sets, with or without propositions to
    register; and when it does not return, what it raises is the
    [KeyError] of the failed lookup. *)
Theorem disorder_returns_iff_covered obs_lists par_act_sets d s :
  ((exists d' s', disorder_trace obs_lists par_act_sets d s = (Ok d', s')) <->
   probabilities_cover obs_lists par_act_sets) /\
  (forall e s', disorder_trace obs_lists par_act_sets d s = (Raise e, s') ->
     e = KeyError).
Proof.
  split; [split|].
  - intros (d' & s' & Hrun) j xs ys act_x act_y Hxs Hys Hx Hy Hne.
    unfold disorder_trace in Hrun.
    assert (j ∈ seq 0 (length par_act_sets - 1)) as Hj.
    { apply elem_of_seq. apply lookup_lt_Some in Hys. lia. }
    destruct (for_M_rounds _ _ _ _ _ _ Hrun j Hj) as (d1 & s1 & d2 & s2 & Hjs).
    rewrite (index_lookup _ _ _ Hxs), lift_Ok_bind in Hjs.
    destruct (for_M_rounds _ _ _ _ _ _ Hjs act_x Hx)
      as (d3 & s3 & d4 & s4 & Hxrun).
    rewrite (index_lookup _ _ _ Hys), lift_Ok_bind in Hxrun.
    destruct (for_M_rounds _ _ _ _ _ _ Hxrun act_y Hy)
      as (d5 & s5 & d6 & s6 & Hpair).
    unfold disorder_pair in Hpair.
    destruct (decide (act_x <> act_y)); [|done].
    apply M_bind_inv in Hpair as (p & s7 & Hp & _).
    apply lift_inv in Hp. unfold getitem in Hp.
    destruct (probabilities obs_lists !! _) as [q|]; [by exists q|done].
  - intros Hcover. rewrite disorder_trace_registers by done.
    apply register_all_returns.
  - intros e s'. unfold disorder_trace.
    apply (for_M_raises_only (fun e => e = KeyError)).
    intros j d1 s1 e1 s1' Hj Hrun. apply elem_of_seq in Hj.
    destruct (lookup_lt_is_Some_2 par_act_sets j ltac:(lia)) as [xs Hxs].
    destruct (lookup_lt_is_Some_2 par_act_sets (j + 1) ltac:(lia)) as [ys Hys].
    rewrite (index_lookup _ _ _ Hxs), lift_Ok_bind in Hrun.
    revert Hrun. apply (for_M_raises_only (fun e => e = KeyError)).
    intros act_x d2 s2 e2 s2' _ Hrun.
    rewrite (index_lookup _ _ _ Hys), lift_Ok_bind in Hrun.
    revert Hrun. apply (for_M_raises_only (fun e => e = KeyError)).
    intros act_y d3 s3 e3 s3' _. apply disorder_pair_raises.
Qed.

(** *** Rule 8 and the last observation of a trace *)

Lemma count_raises (a : option Action) (r : Fluent) occurrences e :
  count a r occurrences = Raise e -> e = KeyError.
Proof.
  destruct a as [a|]; simpl; [|by intros [= <-]].
  unfold getitem. destruct (occurrences !! a) as [row|]; simpl;
    [|by intros [= <-]].
  destruct (row !! r); simpl; [done|by intros [= <-]].
Qed.

(** Rule 8 counts over every observation of a trace, the last one
    included, and indexes its table by the observation's action. An
    observation without action, as the last one of a trace is, that has
    a true proposition makes it raise [KeyError]; the noise builder and
    the aggregator then do not return either. *)
Theorem rule_8_needs_an_action_where_something_holds obs_lists trace step
    (all_occ occ_threshold : Z) :
  trace ∈ traces obs_lists -> step ∈ trace ->
  action step = None -> true_prop (state step) <> [] ->
  _noise_constraints_8 obs_lists all_occ occ_threshold = Raise KeyError /\
  is_Ok (_build_noise_constraints obs_lists occ_threshold) = false /\
  forall s, is_Ok (_set_all_constraints obs_lists occ_threshold s).1 = false.
Proof.
  intros Htrace Hstep Hnone Htrue.
  assert (forall all_occ t,
            _noise_constraints_8 obs_lists all_occ t = Raise KeyError) as H8.
  { clear all_occ occ_threshold. intros all_occ t.
    unfold _noise_constraints_8.
    match goal with
    | |- mbind _ ?loop = _ => destruct loop as [occ|e] eqn:Hloop
    end.
    - exfalso.
      apply list_elem_of_lookup in Htrace as [i Hi].
      apply list_elem_of_lookup in Hstep as [j Hj].
      assert (is_Ok (Ok occ : result (gmap Action (gmap Fluent Z))) = false)
        as Hno; [|done].
      rewrite <- Hloop. apply (for_each_stops _ _ i).
      { apply elem_of_seq. apply lookup_lt_Some in Hi. lia. }
      intros occ1. rewrite (index_lookup _ _ _ Hi), bind_Ok.
      apply (for_each_stops _ _ j).
      { apply elem_of_seq. apply lookup_lt_Some in Hj. lia. }
      intros occ2. rewrite (index_lookup _ _ _ Hj), bind_Ok.
      destruct (true_prop (state step)) as [|r rs]; [done|].
      cbn [for_each]. by rewrite bind_Ok, Hnone.
    - rewrite bind_Raise. f_equal. revert Hloop.
      apply (for_each_raises_only (fun e => e = KeyError)).
      intros i occ1 e1 Hi Hrun.
      apply index_seq in Hi as (tr & Htr & _).
      rewrite Htr, bind_Ok in Hrun. revert Hrun.
      apply (for_each_raises_only (fun e => e = KeyError)).
      intros j occ2 e2 Hj Hrun.
      apply index_seq in Hj as (st & Hst & _).
      rewrite Hst, bind_Ok in Hrun. revert Hrun.
      apply (for_each_raises_only (fun e => e = KeyError)).
      intros r occ3 e3 _ Hrun. rewrite bind_Ok in Hrun.
      by apply count_raises in Hrun. }
  assert (is_Ok (_build_noise_constraints obs_lists occ_threshold) = false)
    as Hnoise.
  { unfold _build_noise_constraints.
    destruct (_noise_constraints_6 _ _ _) as [n6|]; [|done]. rewrite bind_Ok.
    destruct (_noise_constraints_7 _ _) as [n7|]; [|done]. rewrite bind_Ok.
    by rewrite H8. }
  split; [apply H8|]. split; [exact Hnoise|].
  intros s. unfold _set_all_constraints. rewrite M_bind_at.
  destruct (_build_disorder_constraints obs_lists s) as [[[dis|]|e] s1];
    [| |done].
  - rewrite lift_Ok_bind, M_bind_at.
    destruct (_build_parallel_constraints obs_lists s1) as [[par|e] s2];
      [|done].
    rewrite M_bind_at. unfold lift.
    by destruct (_build_noise_constraints obs_lists occ_threshold).
  - done.
Qed.

(** *** What Rule 7 reads *)

Lemma counted_keys (props : list Fluent) (sts : list (list (gmap Fluent bool)))
    (occ : gmap Fluent Z) :
  for_each sts (fun trace occurrences =>
    for_each trace (fun state occurrences =>
      for_each (true_prop state) (fun r occurrences =>
        n ← getitem occurrences r;
        Ok (<[r := (n + 1)%Z]> occurrences)) occurrences) occurrences)
    (foldl (fun occurrences r => <[r := 0%Z]> occurrences) ∅ props) = Ok occ ->
  forall trace s r, trace ∈ sts -> s ∈ trace -> r ∈ true_prop s -> r ∈ props.
Proof.
  set (P := fun occ : gmap Fluent Z => forall r, is_Some (occ !! r) -> r ∈ props).
  assert (forall r (o o' : gmap Fluent Z), P o ->
            (n ← getitem o r; Ok (<[r := (n + 1)%Z]> o)) = Ok o' -> P o')
    as Hstep.
  { intros r o o' Ho Hrun. apply bind_Ok_inv in Hrun as (n & Hn & [= <-]).
    intros r' Hr'. destruct (decide (r = r')) as [<-|Hne].
    - apply Ho. unfold getitem in Hn. by destruct (o !! r).
    - rewrite lookup_insert_ne in Hr' by done. by apply Ho. }
  assert (forall s (o o' : gmap Fluent Z), P o ->
            for_each (true_prop s) (fun r occurrences =>
              n ← getitem occurrences r;
              Ok (<[r := (n + 1)%Z]> occurrences)) o = Ok o' -> P o')
    as Hstate.
  { intros s o o' Ho. apply (for_each_invariant P); [|done].
    intros r o1 o2 _. apply Hstep. }
  assert (forall trace (o o' : gmap Fluent Z), P o ->
            for_each trace (fun state occurrences =>
              for_each (true_prop state) (fun r occurrences =>
                n ← getitem occurrences r;
                Ok (<[r := (n + 1)%Z]> occurrences)) occurrences) o = Ok o' ->
            P o')
    as Htrace.
  { intros trace o o' Ho. apply (for_each_invariant P); [|done].
    intros s o1 o2 _. apply Hstate. }
  assert (P (foldl (fun occurrences r => <[r := 0%Z]> occurrences) ∅ props))
    as Hinit.
  { intros r Hr. destruct (decide (r ∈ props)) as [|Hout]; [done|].
    rewrite (lookup_foldl_insert_out (fun r : Fluent => r)) in Hr.
    - rewrite lookup_empty in Hr. by destruct Hr.
    - intros x Hx ->. done. }
  intros Hrun trace s r Htr Hs Hr.
  destruct (for_each_rounds P _ _ (fun x o o' _ => Htrace x o o') _ _ Hinit Hrun
              trace Htr) as (o1 & o2 & Ho1 & Hrun1).
  destruct (for_each_rounds P _ _ (fun x o o' _ => Hstate x o o') _ _ Ho1 Hrun1
              s Hs) as (o3 & o4 & Ho3 & Hrun2).
  destruct (for_each_rounds P _ _ (fun x o o' _ => Hstep x o o') _ _ Ho3 Hrun2
              r Hr) as (o5 & o6 & Ho5 & Hrun3).
  apply bind_Ok_inv in Hrun3 as (n & Hn & _).
  apply Ho5. unfold getitem in Hn. by destruct (o5 !! r).
Qed.

(** When Rule 7 returns, every proposition that is true in some state is
    one of the collection's propositions, each trace with parallel
    action sets has a list of states with one more state than it has
    sets, and a proposition true after a set has a value in the state
    before it. *)
Theorem rule_7_returns_only_on_full_states obs_lists (all_occ : Z) d :
  _noise_constraints_7 obs_lists all_occ = Ok d ->
  (forall sts s r, sts ∈ states obs_lists -> s ∈ sts -> r ∈ true_prop s ->
     r ∈ propositions obs_lists) /\
  (forall i sets, all_par_act_sets obs_lists !! i = Some sets ->
     exists sts, states obs_lists !! i = Some sts /\
       (sets = [] \/ length sets < length sts) /\
       forall j before after r,
         j < length sets -> sts !! j = Some before ->
         sts !! (j + 1) = Some after -> r ∈ true_prop after ->
         is_Some (before !! r)).
Proof.
  unfold _noise_constraints_7. intros Hrun.
  apply bind_Ok_inv in Hrun as (occ & Hcount & Hrun).
  split; [exact (counted_keys _ _ _ Hcount)|].
  intros i sets Hsets.
  assert (i ∈ seq 0 (length (all_par_act_sets obs_lists))) as Hi.
  { apply elem_of_seq. apply lookup_lt_Some in Hsets. lia. }
  destruct (for_each_rounds (fun _ => True) _ _ (fun _ _ _ _ _ _ => I)
              _ _ I Hrun i Hi) as (n1 & n2 & _ & Hround).
  rewrite (index_lookup _ _ _ Hsets), bind_Ok in Hround.
  apply bind_Ok_inv in Hround as (sts & Hsts & Hround).
  unfold index in Hsts.
  destruct (states obs_lists !! i) as [sts'|] eqn:Hlook; [|done].
  injection Hsts as ->. exists sts. split; [done|].
  assert (forall j, j < length sets -> exists after (n3 n4 : dict),
            sts !! (j + 1) = Some after /\
            for_each (true_prop after) (fun r noise_constraints_7 =>
              before ← index sts j;
              held ← getitem before r;
              if negb held then
                n ← getitem occ r;
                w ← truediv n all_occ;
                acts ← index sets j;
                Ok (<[list_to_set (map (add r) acts) := Num w]>
                      noise_constraints_7)
              else Ok noise_constraints_7) n3 = Ok n4) as Hsteps.
  { intros j Hj.
    assert (j ∈ seq 0 (length sets)) as Hin by (apply elem_of_seq; lia).
    destruct (for_each_rounds (fun _ => True) _ _ (fun _ _ _ _ _ _ => I)
                _ _ I Hround j Hin) as (n3 & n4 & _ & Hj').
    apply bind_Ok_inv in Hj' as (after & Hafter & Hj').
    unfold index in Hafter.
    destruct (sts !! (j + 1)) as [after'|] eqn:Hnext; [|done].
    injection Hafter as ->. by exists after, n3, n4. }
  split.
  - destruct sets as [|xs sets']; [by left|right].
    destruct (Hsteps (length sets') ltac:(simpl; lia))
      as (after & _ & _ & Hafter & _).
    apply lookup_lt_Some in Hafter. simpl. lia.
  - intros j before after r Hj Hbefore Hafter Hr.
    destruct (Hsteps j Hj) as (after' & n3 & n4 & Hafter' & Hloop).
    rewrite Hafter in Hafter'. injection Hafter' as <-.
    destruct (for_each_rounds (fun _ => True) _ _ (fun _ _ _ _ _ _ => I)
                _ _ I Hloop r Hr) as (n5 & n6 & _ & Hbody).
    rewrite (index_lookup _ _ _ Hbefore), bind_Ok in Hbody.
    apply bind_Ok_inv in Hbody as (held & Hheld & _).
    unfold getitem in Hheld. by destruct (before !! r).
Qed.

(** *** The split into hard and soft constraints *)

Lemma lookup_without (cs : list clause) : forall d c,
  without cs d !! c = if decide (c ∈ cs) then None else d !! c.
Proof.
  unfold without. induction cs as [|c' cs IH]; intros d c; [done|].
  simpl. rewrite IH.
  destruct (decide (c ∈ cs)) as [Hin|Hout].
  - rewrite decide_True; [done|by right].
  - destruct (decide (c = c')) as [->|Hne].
    + rewrite lookup_delete_eq. rewrite decide_True; [done|by left].
    + rewrite lookup_delete_ne by done.
      rewrite decide_False; [done|].
      intros [?|?]%elem_of_cons; done.
Qed.

Lemma elem_of_hard_constraints_of d c :
  c ∈ hard_constraints_of d <-> d !! c = Some HARD.
Proof.
  unfold hard_constraints_of. rewrite list_elem_of_fmap. split.
  - intros ([c' w] & -> & Hin). apply list_elem_of_filter in Hin as [Hw Hin].
    simpl in Hw. subst w. by apply elem_of_map_to_list in Hin.
  - intros Hc. exists (c, HARD). split; [done|].
    apply list_elem_of_filter. split; [done|]. by apply elem_of_map_to_list.
Qed.

(** The two loops of [_solve_constraints] split the map the aggregator
    returns in two: the list of hard constraints holds each formula of
    weight ["HARD"] once, so every [del] finds its key, and what is left
    of the map are the other entries, unchanged. The first call of the
    encoder is given the set of the formulas left with the list of
    their weights, the second the set of the hard formulas with [None];
    the result is the first formula extended by the soft clauses of the
    second, with the second [decode]. *)
Theorem solve_splits_hard_from_soft obs_lists occ_threshold s constraints s' :
  _set_all_constraints obs_lists occ_threshold s = (Ok constraints, s') ->
  let hard_constraints := hard_constraints_of constraints in
  let rest := without hard_constraints constraints in
  NoDup hard_constraints /\
  (forall c, c ∈ hard_constraints <-> constraints !! c = Some HARD) /\
  rest = filter (fun cw => cw.2 <> HARD) constraints /\
  (forall c, c ∈ (list_to_set hard_constraints : gset clause) <->
             constraints !! c = Some HARD) /\
  (forall c, c ∈ dom rest <->
             exists w, constraints !! c = Some w /\ w <> HARD) /\
  (forall w, w ∈ (map_to_list rest).*2 <->
             w <> HARD /\ exists c, constraints !! c = Some w) /\
  length (map_to_list rest).*2 = size (dom rest) /\
  _solve_constraints obs_lists occ_threshold s =
    (Ok (extend (to_wcnf (dom rest) (Some (map_to_list rest).*2)).1
                (soft (to_wcnf (list_to_set hard_constraints) None).1),
         (to_wcnf (list_to_set hard_constraints) None).2), s').
Proof.
  intros Hrun hard_constraints rest.
  assert (rest = filter (fun cw => cw.2 <> HARD) constraints) as Hsplit.
  { apply map_eq. intros c. unfold rest. rewrite lookup_without.
    destruct (decide (c ∈ hard_constraints)) as [Hin|Hout].
    - apply elem_of_hard_constraints_of in Hin. symmetry.
      apply map_lookup_filter_None. right. intros w Hw. simpl.
      rewrite Hin in Hw. injection Hw as <-. by intros ?.
    - destruct (constraints !! c) as [w|] eqn:Hc.
      + symmetry. apply map_lookup_filter_Some. split; [done|]. simpl.
        intros ->. apply Hout. by apply elem_of_hard_constraints_of.
      + symmetry. apply map_lookup_filter_None. by left. }
  assert (forall c w, rest !! c = Some w <->
                      constraints !! c = Some w /\ w <> HARD) as Hrest.
  { intros c w. rewrite Hsplit. apply map_lookup_filter_Some. }
  split; [|split; [|split; [|split; [|split; [|split; [|split]]]]]].
  - unfold hard_constraints, hard_constraints_of.
    apply (sublist_NoDup _ (map_to_list constraints).*1);
      [apply NoDup_fst_map_to_list|apply fmap_sublist, sublist_filter].
  - apply elem_of_hard_constraints_of.
  - exact Hsplit.
  - intros c. rewrite elem_of_list_to_set.
    apply elem_of_hard_constraints_of.
  - intros c. rewrite elem_of_dom. split.
    + intros [w Hw]. exists w. by apply Hrest.
    + intros (w & Hw). exists w. by apply Hrest.
  - intros w. rewrite list_elem_of_fmap. split.
    + intros ([c w'] & -> & Hin). apply elem_of_map_to_list in Hin.
      apply Hrest in Hin as [Hc Hw]. split; [exact Hw|]. by exists c.
    + intros (Hw & c & Hc). exists (c, w). split; [done|].
      apply elem_of_map_to_list. by apply Hrest.
  - rewrite length_fmap, size_dom. apply length_map_to_list.
  - unfold _solve_constraints. rewrite M_bind_at, Hrun.
    fold hard_constraints. fold rest.
    destruct (to_wcnf (dom rest) (Some (map_to_list rest).*2))
      as [wcnf decode].
    destruct (to_wcnf (list_to_set hard_constraints) None)
      as [hard_wcnf decode']. reflexivity.
Qed.

(** *** The count Rules 6 to 8 divide by *)

Lemma all_r_occ_steps (trace : list Step) : forall n : Z,
  foldl (fun all_occ step =>
           (all_occ + Z.of_nat (length (true_prop (state step))))%Z) n trace
  = (n + Z.of_nat (length (flat_map (fun step => true_prop (state step))
                                    trace)))%Z.
Proof.
  induction trace as [|step trace IH]; intros n; simpl; [lia|].
  rewrite IH, length_app. lia.
Qed.

Lemma all_r_occ_traces (trs : list (list Step)) : forall n : Z,
  foldl (fun all_occ trace =>
           foldl (fun all_occ step =>
                    (all_occ + Z.of_nat (length (true_prop (state step))))%Z)
                 all_occ trace) n trs
  = (n + Z.of_nat (length (flat_map
        (flat_map (fun step => true_prop (state step))) trs)))%Z.
Proof.
  induction trs as [|trace trs IH]; intros n; simpl; [lia|].
  rewrite IH, all_r_occ_steps, length_app. lia.
Qed.

Lemma all_r_occ_zero_iff obs_lists :
  (0 <= _calculate_all_r_occ obs_lists)%Z /\
  (_calculate_all_r_occ obs_lists = 0%Z <->
   forall trace step, trace ∈ traces obs_lists -> step ∈ trace ->
     true_prop (state step) = []).
Proof.
  unfold _calculate_all_r_occ. rewrite all_r_occ_traces.
  split; [lia|]. split.
  - intros Hzero trace step Htrace Hstep.
    assert (flat_map (flat_map (fun step => true_prop (state step)))
                     (traces obs_lists) = []) as Hnil.
    { apply length_zero_iff_nil. lia. }
    destruct (true_prop (state step)) as [|r rs] eqn:Htrue; [done|].
    assert (r ∈ flat_map (flat_map (fun step => true_prop (state step)))
                         (traces obs_lists)) as Hr.
    { apply list_elem_of_In, in_flat_map. exists trace.
      split; [by apply list_elem_of_In|].
      apply in_flat_map. exists step. split; [by apply list_elem_of_In|].
      rewrite Htrue. by left. }
    rewrite Hnil in Hr. by apply not_elem_of_nil in Hr.
  - intros Hnone.
    assert (flat_map (flat_map (fun step => true_prop (state step)))
                     (traces obs_lists) = []) as ->; [|done].
    induction (traces obs_lists) as [|trace trs IH]; [done|].
    simpl. rewrite IH.
    + rewrite app_nil_r.
      assert (forall step, step ∈ trace -> true_prop (state step) = [])
        as Htr by (intros step; apply Hnone; by left).
      clear -Htr. induction trace as [|step trace IH]; [done|].
      simpl. rewrite (Htr step) by (by left). apply IH.
      intros st Hst. apply Htr. by right.
    + intros tr st Htr. apply Hnone. by right.
Qed.

(** The divisor of the noise weights is zero exactly when no observation
    has a true proposition; it is never negative. *)
Theorem all_r_occ_is_zero_iff_nothing_holds obs_lists :
  (0 <= _calculate_all_r_occ obs_lists)%Z /\
  (_calculate_all_r_occ obs_lists = 0%Z <->
   forall trace step, trace ∈ traces obs_lists -> step ∈ trace ->
     true_prop (state step) = []).
Proof. apply all_r_occ_zero_iff. Qed.

Lemma rule_6_counts_nothing obs_lists :
  (forall trace step, trace ∈ traces obs_lists -> step ∈ trace ->
     true_prop (state step) = []) ->
  for_each (seq 0 (length (traces obs_lists))) (fun i occurrences =>
    trace ← index (traces obs_lists) i;
    for_each (seq 0 (length trace - 1)) (fun j occurrences =>
      next ← index trace (j + 1);
      for_each (true_prop (state next)) (fun r occurrences =>
        step ← index trace j;
        count (action step) r occurrences) occurrences) occurrences)
    (_set_up_occurrences_dict obs_lists)
  = Ok (_set_up_occurrences_dict obs_lists).
Proof.
  intros Htrue. apply for_each_unchanged. intros i Hi.
  apply index_seq in Hi as (trace & -> & Htrace). rewrite bind_Ok.
  apply for_each_unchanged. intros j Hj. apply elem_of_seq in Hj.
  destruct (index_below trace (j + 1) ltac:(lia)) as (next & -> & Hnext).
  rewrite bind_Ok. rewrite (Htrue trace next); [done| |done].
  apply list_elem_of_lookup. by exists i.
Qed.

(** With no true proposition in any observation the divisor is zero and
    every count is zero: a negative threshold then makes Rule 6 divide,
    for the first action and the first proposition of the collection,
    and the noise builder raises [ZeroDivisionError]. *)
Theorem negative_threshold_divides_when_nothing_holds obs_lists
    (occ_threshold : Z) :
  (occ_threshold < 0)%Z ->
  actions obs_lists <> [] -> propositions obs_lists <> [] ->
  (forall trace step, trace ∈ traces obs_lists -> step ∈ trace ->
     true_prop (state step) = []) ->
  _noise_constraints_6 obs_lists (_calculate_all_r_occ obs_lists)
                       occ_threshold = Raise ZeroDivisionError /\
  _build_noise_constraints obs_lists occ_threshold = Raise ZeroDivisionError.
Proof.
  intros Ht Hacts Hprops Htrue.
  assert (_noise_constraints_6 obs_lists (_calculate_all_r_occ obs_lists)
                               occ_threshold = Raise ZeroDivisionError) as H6.
  { unfold _noise_constraints_6.
    rewrite (rule_6_counts_nothing _ Htrue), bind_Ok.
    rewrite (proj2 (proj2 (all_r_occ_zero_iff obs_lists)) Htrue).
    unfold threshold_loop.
    destruct (actions obs_lists) as [|a acts] eqn:Hact; [done|].
    destruct (propositions obs_lists) as [|r props] eqn:Hprop; [done|].
    destruct (set_up_occurrences_lookup obs_lists a) as (row & Hrow & Hzero).
    { rewrite Hact. by left. }
    cbn [for_each]. rewrite (getitem_lookup _ _ _ Hrow), bind_Ok.
    assert (row !! r = Some 0%Z) as Hr.
    { apply Hzero. rewrite Hprop. by left. }
    assert (threshold_body (fun r a => neg (del r a)) 0 occ_threshold a row r ∅
            = Raise ZeroDivisionError) as Hbody.
    { unfold threshold_body. rewrite (getitem_lookup _ _ _ Hr), bind_Ok.
      destruct (decide (0 > occ_threshold)%Z); [reflexivity|lia]. }
    cbn [for_each]. by rewrite Hbody. }
  split; [exact H6|]. unfold _build_noise_constraints. by rewrite H6.
Qed.

(** *** When the soft parallel builder returns *)

Lemma for_M_returns {A S} (xs : list A) (body : A -> S -> M S) :
  (forall x (a : S) s, x ∈ xs -> exists (a' : S) s', body x a s = (Ok a', s')) ->
  forall (a : S) s, exists (a' : S) s', for_M xs body a s = (Ok a', s').
Proof.
  induction xs as [|x xs IH]; intros Hbody a s.
  - by exists a, s.
  - simpl. rewrite M_bind_at.
    destruct (Hbody x a s ltac:(by left)) as (a1 & s1 & ->).
    apply IH. intros y b t Hy. apply Hbody. by right.
Qed.

Lemma soft_pair_returns obs_lists (prob : Qc -> Qc) act act' d s :
  (act <> act' ->
   is_Some (probabilities obs_lists !! ({[act; act']} : gset Action))) ->
  exists d' s', soft_pair obs_lists prob act act' d s = (Ok d', s').
Proof.
  intros Hp. unfold soft_pair.
  destruct (decide (act <> act')) as [Hne|_]; [|by exists d, s].
  destruct (Hp Hne) as [p Hlook].
  rewrite (getitem_lookup _ _ _ Hlook), lift_Ok_bind.
  apply for_M_returns. intros r d1 s1 _. apply register_returns.
Qed.

Lemma soft_pair_looks_up obs_lists (prob : Qc -> Qc) act act' d s d' s' :
  soft_pair obs_lists prob act act' d s = (Ok d', s') -> act <> act' ->
  is_Some (probabilities obs_lists !! ({[act; act']} : gset Action)).
Proof.
  unfold soft_pair. intros Hrun Hne.
  destruct (decide (act <> act')); [|done].
  apply M_bind_inv in Hrun as (p & s1 & Hp & _).
  apply lift_inv in Hp. unfold getitem in Hp.
  destruct (probabilities obs_lists !! _) as [q|]; [by exists q|done].
Qed.

Lemma soft_pair_raises obs_lists (prob : Qc -> Qc) act act' d s e s' :
  soft_pair obs_lists prob act act' d s = (Raise e, s') -> e = KeyError.
Proof.
  unfold soft_pair. destruct (decide (act <> act')); [|done].
  intros Hrun. apply M_bind_raise_inv in Hrun as [Hp|(p & s1 & _ & Hrun)].
  - unfold lift, getitem in Hp.
    destruct (_ !! _); [done|by injection Hp as <- _].
  - exfalso. revert Hrun.
    apply (for_M_raises_only (fun _ => False)).
    intros r d1 t e1 t1 _ Hr.
    by destruct (register_returns (untouched r act' act) (prob p) d1 t)
      as (? & ? & Heq); rewrite Heq in Hr.
Qed.

(** The first loop nest of the builder, over the pairs within a set,
    and the second, over the pairs from adjacent sets. *)
Lemma within_returns_iff obs_lists d s :
  (exists d' s',
     for_M (seq 0 (length (all_par_act_sets obs_lists))) (fun i d =>
       par_act_sets ← lift (index (all_par_act_sets obs_lists) i);
       for_M (seq 0 (length par_act_sets)) (fun j d =>
         xs ← lift (index par_act_sets j);
         for_M xs (fun act_x d =>
           xs' ← lift (index par_act_sets j);
           for_M xs' (fun act_x_prime d =>
             soft_pair obs_lists (fun p => (1 - p)%Qc) act_x act_x_prime d) d)
           d) d) d s = (Ok d', s')) <->
  (forall sets, sets ∈ all_par_act_sets obs_lists ->
     Conditions.probabilities_cover_within obs_lists sets).
Proof.
  split.
  - intros (d' & s' & Hrun) sets Hsets j xs act_x act_x' Hxs Hx Hx' Hne.
    apply list_elem_of_lookup in Hsets as [i Hi].
    assert (i ∈ seq 0 (length (all_par_act_sets obs_lists))) as Hiin.
    { apply elem_of_seq. apply lookup_lt_Some in Hi. lia. }
    destruct (for_M_rounds _ _ _ _ _ _ Hrun i Hiin)
      as (d1 & s1 & d2 & s2 & Hround).
    rewrite (index_lookup _ _ _ Hi), lift_Ok_bind in Hround.
    assert (j ∈ seq 0 (length sets)) as Hjin.
    { apply elem_of_seq. apply lookup_lt_Some in Hxs. lia. }
    destruct (for_M_rounds _ _ _ _ _ _ Hround j Hjin)
      as (d3 & s3 & d4 & s4 & Hj).
    rewrite (index_lookup _ _ _ Hxs), lift_Ok_bind in Hj.
    destruct (for_M_rounds _ _ _ _ _ _ Hj act_x Hx)
      as (d5 & s5 & d6 & s6 & Hxrun).
    rewrite lift_Ok_bind in Hxrun.
    destruct (for_M_rounds _ _ _ _ _ _ Hxrun act_x' Hx')
      as (d7 & s7 & d8 & s8 & Hpair).
    by apply (soft_pair_looks_up _ _ _ _ _ _ _ _ Hpair).
  - intros Hcover. apply for_M_returns. intros i d1 s1 Hi.
    apply index_seq in Hi as (sets & Hsets & Hlook).
    rewrite Hsets, lift_Ok_bind.
    apply for_M_returns. intros j d2 s2 Hj.
    apply index_seq in Hj as (xs & Hxs & Hxlook).
    rewrite Hxs, lift_Ok_bind.
    apply for_M_returns. intros act_x d3 s3 Hx. rewrite lift_Ok_bind.
    apply for_M_returns. intros act_x' d4 s4 Hx'.
    apply soft_pair_returns. intros Hne.
    assert (sets ∈ all_par_act_sets obs_lists) as Hin.
    { apply list_elem_of_lookup. by exists i. }
    exact (Hcover sets Hin j xs act_x act_x' Hxlook Hx Hx' Hne).
Qed.

Lemma adjacent_returns_iff obs_lists d s :
  (exists d' s',
     for_M (seq 0 (length (all_par_act_sets obs_lists))) (fun i d =>
       par_act_sets ← lift (index (all_par_act_sets obs_lists) i);
       for_M (seq 0 (length par_act_sets - 1)) (fun j d =>
         ys ← lift (index par_act_sets (j + 1));
         for_M ys (fun act_y d =>
           xs' ← lift (index par_act_sets j);
           for_M xs' (fun act_x_prime d =>
             soft_pair obs_lists (fun p => p) act_y act_x_prime d) d) d) d)
       d s = (Ok d', s')) <->
  (forall sets, sets ∈ all_par_act_sets obs_lists ->
     probabilities_cover obs_lists sets).
Proof.
  split.
  - intros (d' & s' & Hrun) sets Hsets j xs ys act_x act_y Hxs Hys Hx Hy Hne.
    apply list_elem_of_lookup in Hsets as [i Hi].
    assert (i ∈ seq 0 (length (all_par_act_sets obs_lists))) as Hiin.
    { apply elem_of_seq. apply lookup_lt_Some in Hi. lia. }
    destruct (for_M_rounds _ _ _ _ _ _ Hrun i Hiin)
      as (d1 & s1 & d2 & s2 & Hround).
    rewrite (index_lookup _ _ _ Hi), lift_Ok_bind in Hround.
    assert (j ∈ seq 0 (length sets - 1)) as Hjin.
    { apply elem_of_seq. apply lookup_lt_Some in Hys. lia. }
    destruct (for_M_rounds _ _ _ _ _ _ Hround j Hjin)
      as (d3 & s3 & d4 & s4 & Hj).
    rewrite (index_lookup _ _ _ Hys), lift_Ok_bind in Hj.
    destruct (for_M_rounds _ _ _ _ _ _ Hj act_y Hy)
      as (d5 & s5 & d6 & s6 & Hyrun).
    rewrite (index_lookup _ _ _ Hxs), lift_Ok_bind in Hyrun.
    destruct (for_M_rounds _ _ _ _ _ _ Hyrun act_x Hx)
      as (d7 & s7 & d8 & s8 & Hpair).
    replace ({[act_x; act_y]} : gset Action) with
      ({[act_y; act_x]} : gset Action) by apply (comm_L (∪)).
    apply (soft_pair_looks_up _ _ _ _ _ _ _ _ Hpair). by intros ->.
  - intros Hcover. apply for_M_returns. intros i d1 s1 Hi.
    apply index_seq in Hi as (sets & Hsets & Hlook).
    rewrite Hsets, lift_Ok_bind.
    apply for_M_returns. intros j d2 s2 Hj. apply elem_of_seq in Hj.
    destruct (lookup_lt_is_Some_2 sets j ltac:(lia)) as [xs Hxs].
    destruct (lookup_lt_is_Some_2 sets (j + 1) ltac:(lia)) as [ys Hys].
    rewrite (index_lookup _ _ _ Hys), lift_Ok_bind.
    apply for_M_returns. intros act_y d3 s3 Hy.
    rewrite (index_lookup _ _ _ Hxs), lift_Ok_bind.
    apply for_M_returns. intros act_x d4 s4 Hx.
    apply soft_pair_returns. intros Hne.
    replace ({[act_y; act_x]} : gset Action) with
      ({[act_x; act_y]} : gset Action) by apply (comm_L (∪)).
    assert (sets ∈ all_par_act_sets obs_lists) as Hin.
    { apply list_elem_of_lookup. by exists i. }
    apply (Hcover sets Hin j xs ys act_x act_y Hxs Hys Hx Hy). by intros ->.
Qed.

(** The soft parallel builder, which goes through every trace, returns
    exactly when the probability table has an entry for every pair of
    distinct actions from one parallel action set and for every pair
    from two adjacent sets; when it does not return it raises
    [KeyError]. The second condition is the one the disorder builder
    needs of the first trace. *)
Theorem soft_parallel_returns_iff_covered obs_lists s :
  ((exists d s', _build_soft_parallel_constraints obs_lists s = (Ok d, s')) <->
   (forall sets, sets ∈ all_par_act_sets obs_lists ->
      Conditions.probabilities_cover_within obs_lists sets /\
      probabilities_cover obs_lists sets)) /\
  (forall e s', _build_soft_parallel_constraints obs_lists s = (Raise e, s') ->
     e = KeyError).
Proof.
  unfold _build_soft_parallel_constraints. split; [split|].
  - intros (d & s' & Hrun).
    apply M_bind_inv in Hrun as (d1 & s1 & Hwithin & Hadjacent).
    intros sets Hsets. split.
    + apply (within_returns_iff obs_lists ∅ s); [|done]. by exists d1, s1.
    + apply (adjacent_returns_iff obs_lists d1 s1); [|done]. by exists d, s'.
  - intros Hcover. rewrite M_bind_at.
    destruct (proj2 (within_returns_iff obs_lists ∅ s)
                (fun sets Hsets => proj1 (Hcover sets Hsets)))
      as (d1 & s1 & ->).
    apply (adjacent_returns_iff obs_lists d1 s1).
    intros sets Hsets. by apply Hcover.
  - intros e s' Hrun.
    apply M_bind_raise_inv in Hrun as [Hrun|(d1 & s1 & _ & Hrun)]; revert Hrun.
    + apply (for_M_raises_only (fun e => e = KeyError)).
      intros i d2 s2 e2 s2' Hi Hrun.
      apply index_seq in Hi as (sets & Hsets & _).
      rewrite Hsets, lift_Ok_bind in Hrun. revert Hrun.
      apply (for_M_raises_only (fun e => e = KeyError)).
      intros j d3 s3 e3 s3' Hj Hrun.
      apply index_seq in Hj as (xs & Hxs & _).
      rewrite Hxs, lift_Ok_bind in Hrun. revert Hrun.
      apply (for_M_raises_only (fun e => e = KeyError)).
      intros act_x d4 s4 e4 s4' _ Hrun.
      rewrite lift_Ok_bind in Hrun. revert Hrun.
      apply (for_M_raises_only (fun e => e = KeyError)).
      intros act_x' d5 s5 e5 s5' _. apply soft_pair_raises.
    + apply (for_M_raises_only (fun e => e = KeyError)).
      intros i d2 s2 e2 s2' Hi Hrun.
      apply index_seq in Hi as (sets & Hsets & _).
      rewrite Hsets, lift_Ok_bind in Hrun. revert Hrun.
      apply (for_M_raises_only (fun e => e = KeyError)).
      intros j d3 s3 e3 s3' Hj Hrun. apply elem_of_seq in Hj.
      destruct (lookup_lt_is_Some_2 sets j ltac:(lia)) as [xs Hxs].
      destruct (lookup_lt_is_Some_2 sets (j + 1) ltac:(lia)) as [ys Hys].
      rewrite (index_lookup _ _ _ Hys), lift_Ok_bind in Hrun. revert Hrun.
      apply (for_M_raises_only (fun e => e = KeyError)).
      intros act_y d4 s4 e4 s4' _ Hrun.
      rewrite (index_lookup _ _ _ Hxs), lift_Ok_bind in Hrun. revert Hrun.
      apply (for_M_raises_only (fun e => e = KeyError)).
      intros act_x' d5 s5 e5 s5' _. apply soft_pair_raises.
Qed.

(** *** What Rules 6 and 8 count *)

Lemma set_up_tables_fit obs_lists :
  Conditions.tables_fit obs_lists (_set_up_occurrences_dict obs_lists).
Proof.
  intros a row Hrow. unfold _set_up_occurrences_dict in Hrow.
  destruct (decide (a ∈ actions obs_lists)) as [Ha|Hout].
  - split; [done|].
    rewrite (lookup_foldl_insert_in (fun a : Action => a)) in Hrow by done.
    injection Hrow as <-. intros r Hr.
    destruct (decide (r ∈ propositions obs_lists)) as [|Hrout]; [done|].
    rewrite (lookup_foldl_insert_out (fun r : Fluent => r)) in Hr.
    + rewrite lookup_empty in Hr. by destruct Hr.
    + intros x Hx ->. done.
  - rewrite (lookup_foldl_insert_out (fun a : Action => a)) in Hrow.
    + by rewrite lookup_empty in Hrow.
    + intros x Hx ->. done.
Qed.

Lemma count_inv (a : option Action) (r : Fluent) occ occ' :
  count a r occ = Ok occ' ->
  exists a' row n, a = Some a' /\ occ !! a' = Some row /\ row !! r = Some n /\
                   occ' = <[a' := <[r := (n + 1)%Z]> row]> occ.
Proof.
  destruct a as [a|]; [|done]. simpl. intros Hcount.
  apply bind_Ok_inv in Hcount as (row & Hrow & Hcount).
  apply bind_Ok_inv in Hcount as (n & Hn & [= <-]).
  unfold getitem in Hrow, Hn.
  destruct (occ !! a) as [row'|] eqn:Ha; [|done]. injection Hrow as ->.
  destruct (row !! r) as [n'|] eqn:Hr; [|done]. injection Hn as ->.
  by exists a, row, n.
Qed.

Lemma count_fits obs_lists (a : option Action) (r : Fluent) occ occ' :
  Conditions.tables_fit obs_lists occ -> count a r occ = Ok occ' ->
  Conditions.tables_fit obs_lists occ'.
Proof.
  intros Hfit Hcount.
  apply count_inv in Hcount as (a0 & row & n & _ & Ha & Hr & ->).
  destruct (Hfit a0 row Ha) as [Hact Hprops].
  intros a' row' Hlook. destruct (decide (a0 = a')) as [<-|Hne].
  - rewrite lookup_insert_eq in Hlook. injection Hlook as <-.
    split; [done|]. intros r' Hr'.
    destruct (decide (r = r')) as [<-|Hner].
    + apply Hprops. by rewrite Hr.
    + rewrite lookup_insert_ne in Hr' by done. by apply Hprops.
  - rewrite lookup_insert_ne in Hlook by done. by apply (Hfit a' row').
Qed.

Lemma count_counted obs_lists (step : Step) (r : Fluent) occ occ' :
  Conditions.tables_fit obs_lists occ ->
  count (action step) r occ = Ok occ' -> Conditions.counted obs_lists step r.
Proof.
  intros Hfit Hcount.
  apply count_inv in Hcount as (a & row & n & Hact & Ha & Hr & _).
  destruct (Hfit a row Ha) as [Hin Hprops].
  exists a. split; [done|]. split; [done|]. apply Hprops. by rewrite Hr.
Qed.

Lemma index_Ok_lookup {A} (l : list A) (i : nat) (x : A) :
  index l i = Ok x -> l !! i = Some x.
Proof. unfold index. destruct (l !! i); [by intros [= ->]|done]. Qed.

(** Rules 6 and 8 index their table of counts by the action of an
    observation and by a proposition true in the next observation (Rule
    6) or in the same one (Rule 8). When such a rule returns, every
    observation it counted for has an action, that action is one of
    [obs_lists.actions], and the proposition is one of
    [obs_lists.propositions]. *)
Theorem noise_rules_count_known_actions_only obs_lists
    (all_occ occ_threshold : Z) :
  (forall d, _noise_constraints_6 obs_lists all_occ occ_threshold = Ok d ->
     forall trace j step next r,
       trace ∈ traces obs_lists ->
       trace !! j = Some step -> trace !! (j + 1) = Some next ->
       r ∈ true_prop (state next) ->
       Conditions.counted obs_lists step r) /\
  (forall d, _noise_constraints_8 obs_lists all_occ occ_threshold = Ok d ->
     forall trace step r,
       trace ∈ traces obs_lists -> step ∈ trace ->
       r ∈ true_prop (state step) ->
       Conditions.counted obs_lists step r).
Proof.
  set (P := Conditions.tables_fit obs_lists).
  assert (forall (tr : list Step) j r o o', P o ->
            (step ← index tr j; count (action step) r o) = Ok o' -> P o')
    as Hinner.
  { intros tr j r o o' Ho Hb. apply bind_Ok_inv in Hb as (st & _ & Hc).
    by apply (count_fits _ _ _ _ _ Ho Hc). }
  split.
  - intros d Hrun trace j step next r Htrace Hstep Hnext Hr.
    unfold _noise_constraints_6 in Hrun.
    apply bind_Ok_inv in Hrun as (occ & Hloop & _).
    assert (forall (tr : list Step) j o o', P o ->
              (next ← index tr (j + 1);
               for_each (true_prop (state next)) (fun r occurrences =>
                 step ← index tr j;
                 count (action step) r occurrences) o) = Ok o' -> P o')
      as Hmid.
    { intros tr j' o o' Ho Hb. apply bind_Ok_inv in Hb as (st & _ & Hl).
      revert Hl. apply (for_each_invariant P); [|done].
      intros r0 o1 o2 _. apply Hinner. }
    assert (forall i o o', P o ->
              (trace ← index (traces obs_lists) i;
               for_each (seq 0 (length trace - 1)) (fun j occurrences =>
                 next ← index trace (j + 1);
                 for_each (true_prop (state next)) (fun r occurrences =>
                   step ← index trace j;
                   count (action step) r occurrences) occurrences) o)
              = Ok o' -> P o')
      as Houter.
    { intros i o o' Ho Hb. apply bind_Ok_inv in Hb as (tr & _ & Hl).
      revert Hl. apply (for_each_invariant P); [|done].
      intros j' o1 o2 _. apply Hmid. }
    apply list_elem_of_lookup in Htrace as [i Hi].
    assert (i ∈ seq 0 (length (traces obs_lists))) as Hiin.
    { apply elem_of_seq. apply lookup_lt_Some in Hi. lia. }
    destruct (for_each_rounds P _ _ (fun x o o' _ => Houter x o o') _ _
                (set_up_tables_fit obs_lists) Hloop i Hiin)
      as (o1 & o2 & Ho1 & Hround).
    apply bind_Ok_inv in Hround as (tr & Htr & Hround).
    apply index_Ok_lookup in Htr. rewrite Hi in Htr. injection Htr as <-.
    assert (j ∈ seq 0 (length trace - 1)) as Hjin.
    { apply elem_of_seq. apply lookup_lt_Some in Hnext. lia. }
    destruct (for_each_rounds P _ _ (fun x o o' _ => Hmid trace x o o') _ _
                Ho1 Hround j Hjin) as (o3 & o4 & Ho3 & Hround2).
    apply bind_Ok_inv in Hround2 as (nx & Hnx & Hround2).
    apply index_Ok_lookup in Hnx. rewrite Hnext in Hnx. injection Hnx as <-.
    destruct (for_each_rounds P _ _ (fun x o o' _ => Hinner trace j x o o') _ _
                Ho3 Hround2 r Hr) as (o5 & o6 & Ho5 & Hbody).
    apply bind_Ok_inv in Hbody as (st & Hst & Hcount).
    apply index_Ok_lookup in Hst. rewrite Hstep in Hst. injection Hst as <-.
    exact (count_counted _ _ _ _ _ Ho5 Hcount).
  - intros d Hrun trace step r Htrace Hstep Hr.
    unfold _noise_constraints_8 in Hrun.
    apply bind_Ok_inv in Hrun as (occ & Hloop & _).
    assert (forall (tr : list Step) j o o', P o ->
              (step ← index tr j;
               for_each (true_prop (state step)) (fun r occurrences =>
                 step ← index tr j;
                 count (action step) r occurrences) o) = Ok o' -> P o')
      as Hmid.
    { intros tr j' o o' Ho Hb. apply bind_Ok_inv in Hb as (st & _ & Hl).
      revert Hl. apply (for_each_invariant P); [|done].
      intros r0 o1 o2 _. apply Hinner. }
    assert (forall i o o', P o ->
              (trace ← index (traces obs_lists) i;
               for_each (seq 0 (length trace)) (fun j occurrences =>
                 step ← index trace j;
                 for_each (true_prop (state step)) (fun r occurrences =>
                   step ← index trace j;
                   count (action step) r occurrences) occurrences) o)
              = Ok o' -> P o')
      as Houter.
    { intros i o o' Ho Hb. apply bind_Ok_inv in Hb as (tr & _ & Hl).
      revert Hl. apply (for_each_invariant P); [|done].
      intros j' o1 o2 _. apply Hmid. }
    apply list_elem_of_lookup in Htrace as [i Hi].
    apply list_elem_of_lookup in Hstep as [j Hj].
    assert (i ∈ seq 0 (length (traces obs_lists))) as Hiin.
    { apply elem_of_seq. apply lookup_lt_Some in Hi. lia. }
    destruct (for_each_rounds P _ _ (fun x o o' _ => Houter x o o') _ _
                (set_up_tables_fit obs_lists) Hloop i Hiin)
      as (o1 & o2 & Ho1 & Hround).
    apply bind_Ok_inv in Hround as (tr & Htr & Hround).
    apply index_Ok_lookup in Htr. rewrite Hi in Htr. injection Htr as <-.
    assert (j ∈ seq 0 (length trace)) as Hjin.
    { apply elem_of_seq. apply lookup_lt_Some in Hj. lia. }
    destruct (for_each_rounds P _ _ (fun x o o' _ => Hmid trace x o o') _ _
                Ho1 Hround j Hjin) as (o3 & o4 & Ho3 & Hround2).
    apply bind_Ok_inv in Hround2 as (st & Hst & Hround2).
    apply index_Ok_lookup in Hst. rewrite Hj in Hst. injection Hst as <-.
    destruct (for_each_rounds P _ _ (fun x o o' _ => Hinner trace j x o o') _ _
                Ho3 Hround2 r Hr) as (o5 & o6 & Ho5 & Hbody).
    apply bind_Ok_inv in Hbody as (st & Hst & Hcount).
    apply index_Ok_lookup in Hst. rewrite Hj in Hst. injection Hst as <-.
    exact (count_counted _ _ _ _ _ Ho5 Hcount).
Qed.

End AMDNBuilderFacts.
End AMDNBuilderFacts.

(** ** The builders at the sample collections *)

Module BuilderCases.

Import AMDN AMDNFacts Sample Collections.

(** A collection of the right token without traces. *)
Lemma empty_collection_is_rejected :
  all_par_act_sets no_traces = [] /\
  type no_traces = NoisyPartialDisorderedParallelObservation /\
  new no_traces 0%Z 0 = (Raise TypeError, 0).
Proof.
  split; [reflexivity|]. split; [reflexivity|].
  destruct (AMDNBuilderFacts.no_trace_is_a_type_error no_traces 0%Z 0 eq_refl)
    as (_ & _ & _ & Hnew).
  apply Hnew. reflexivity.
Defined.

(** [pick] then [drop] without a probability for the pair. *)
Lemma unknown_order_raises :
  ~ probabilities_cover unknown_order [["pick"]; ["drop"]] /\
  (disorder_trace unknown_order [["pick"]; ["drop"]] ∅ 0).1 = Raise KeyError.
Proof.
  assert (~ probabilities_cover unknown_order [["pick"]; ["drop"]]) as Hno.
  { intros Hcover.
    destruct (Hcover 0 ["pick"] ["drop"] "pick" "drop") as [p Hp].
    1-2: reflexivity.
    1-2: by apply list_elem_of_singleton.
    1: discriminate.
    simpl in Hp. rewrite lookup_empty in Hp. discriminate Hp. }
  split; [exact Hno|].
  destruct (AMDNBuilderFacts.disorder_returns_iff_covered
              unknown_order [["pick"]; ["drop"]] ∅ 0) as [Hiff Hraise].
  destruct (disorder_trace unknown_order [["pick"]; ["drop"]] ∅ 0)
    as [[d'|e] s'] eqn:Hrun.
  - exfalso. apply Hno, Hiff. exists d', s'. reflexivity.
  - simpl. f_equal. exact (Hraise e s' eq_refl).
Defined.

(** The first trace of [two_traces] ends with an observation without
    action in which ["holding a"] holds. *)
Lemma two_traces_stop_rule_8 :
  lone_pick ∈ traces two_traces /\
  last_observation ∈ lone_pick /\
  action last_observation = None /\
  true_prop (state last_observation) <> [] /\
  _noise_constraints_8 two_traces 2%Z 0%Z = Raise KeyError.
Proof.
  assert (lone_pick ∈ traces two_traces) as Htrace by (by left).
  assert (last_observation ∈ lone_pick) as Hstep by (right; by left).
  assert (true_prop (state last_observation) <> []) as Htrue.
  { intros Hnil. vm_compute in Hnil. discriminate Hnil. }
  split; [exact Htrace|]. split; [exact Hstep|]. split; [reflexivity|].
  split; [exact Htrue|].
  apply (AMDNBuilderFacts.rule_8_needs_an_action_where_something_holds
           two_traces lone_pick last_observation 2%Z 0%Z
           Htrace Hstep eq_refl Htrue).
Defined.

(** Rule 7 returns at [pick_drop], whose trace has two parallel action
    sets and three states. *)
Lemma pick_drop_rule_7_reads_three_states :
  exists d sts,
    _noise_constraints_7 pick_drop 1%Z = Ok d /\
    states pick_drop !! 0 = Some sts /\
    ([["pick"]; ["drop"]] = [] \/ length [["pick"]; ["drop"]] < length sts).
Proof.
  assert (is_Ok (_noise_constraints_7 pick_drop 1%Z) = true) as Hok
    by (vm_compute; reflexivity).
  destruct (_noise_constraints_7 pick_drop 1%Z) as [d|e] eqn:Hrun;
    [|discriminate Hok].
  destruct (AMDNBuilderFacts.rule_7_returns_only_on_full_states
              pick_drop 1%Z d Hrun) as [_ Hstates].
  destruct (Hstates 0 [["pick"]; ["drop"]] eq_refl) as (sts & Hsts & Hlen & _).
  exists d, sts. split; [reflexivity|]. split; [exact Hsts|exact Hlen].
Defined.

(** The parallel action sets of [pick_drop] hold one action each, and
    the table has the pair of [pick] and [drop]. *)
Lemma pick_drop_soft_parallel_returns :
  exists d s', _build_soft_parallel_constraints pick_drop 0 = (Ok d, s').
Proof.
  destruct (AMDNBuilderFacts.soft_parallel_returns_iff_covered pick_drop 0)
    as [[_ Hreturns] _].
  apply Hreturns. intros sets Hsets.
  apply list_elem_of_singleton in Hsets as ->. split.
  - intros j xs act_x act_x' Hxs Hx Hx' Hne.
    destruct j as [|[|j]]; [| |discriminate Hxs]; injection Hxs as <-;
      apply list_elem_of_singleton in Hx as ->;
      apply list_elem_of_singleton in Hx' as ->; by destruct Hne.
  - exact Cases.pick_drop_probabilities_cover.
Defined.

(** Rule 6 at [pick_drop]: ["holding a"] holds after [pick]. *)
Lemma pick_drop_rule_6_counts_pick :
  exists d, _noise_constraints_6 pick_drop 1%Z 0%Z = Ok d /\
            Conditions.counted pick_drop picking "holding a".
Proof.
  assert (is_Ok (_noise_constraints_6 pick_drop 1%Z 0%Z) = true) as Hok
    by (vm_compute; reflexivity).
  destruct (_noise_constraints_6 pick_drop 1%Z 0%Z) as [d|e] eqn:Hrun;
    [|discriminate Hok].
  exists d. split; [reflexivity|].
  destruct (AMDNBuilderFacts.noise_rules_count_known_actions_only
              pick_drop 1%Z 0%Z) as [H6 _].
  assert (true_prop holding = ["holding a"]) as Htrue
    by (vm_compute; reflexivity).
  eapply (H6 d Hrun _ 0 picking _ "holding a").
  - by left.
  - reflexivity.
  - reflexivity.
  - simpl. rewrite Htrue. by left.
Defined.

(** [nothing_true] with the threshold -1. *)
Lemma nothing_true_divides_by_zero :
  (-1 < 0)%Z /\
  _build_noise_constraints nothing_true (-1)%Z = Raise ZeroDivisionError.
Proof.
  split; [lia|].
  destruct (AMDNBuilderFacts.negative_threshold_divides_when_nothing_holds
              nothing_true (-1)%Z) as [_ Hnoise]; [lia|done|done| |exact Hnoise].
  intros trace step Htrace Hstep.
  apply list_elem_of_singleton in Htrace as ->.
  apply list_elem_of_singleton in Hstep as ->.
  vm_compute. reflexivity.
Defined.

(** The split at [pick_drop] with the threshold 0. *)
Lemma pick_drop_is_split_in_two :
  exists constraints s',
    _set_all_constraints pick_drop 0%Z 0 = (Ok constraints, s') /\
    let hard_constraints := hard_constraints_of constraints in
    let rest := without hard_constraints constraints in
    NoDup hard_constraints /\
    (forall c, c ∈ hard_constraints <-> constraints !! c = Some HARD) /\
    rest = filter (fun cw => cw.2 <> HARD) constraints /\
    (forall c, c ∈ (list_to_set hard_constraints : gset clause) <->
               constraints !! c = Some HARD) /\
    (forall c, c ∈ dom rest <->
               exists w, constraints !! c = Some w /\ w <> HARD) /\
    (forall w, w ∈ (map_to_list rest).*2 <->
               w <> HARD /\ exists c, constraints !! c = Some w) /\
    length (map_to_list rest).*2 = size (dom rest) /\
    _solve_constraints pick_drop 0%Z 0 =
      (Ok (extend (to_wcnf (dom rest) (Some (map_to_list rest).*2)).1
                  (soft (to_wcnf (list_to_set hard_constraints) None).1),
           (to_wcnf (list_to_set hard_constraints) None).2), s').
Proof.
  assert (is_Ok (_set_all_constraints pick_drop 0%Z 0).1 = true) as Hok
    by (vm_compute; reflexivity).
  destruct (_set_all_constraints pick_drop 0%Z 0) as [[constraints|e] s']
    eqn:Hrun; [|discriminate Hok].
  exists constraints, s'. split; [reflexivity|].
  exact (AMDNBuilderFacts.solve_splits_hard_from_soft
           pick_drop 0%Z 0 constraints s' Hrun).
Defined.

End BuilderCases.

(** ** Extraction through [Extract] *)

Module ExtractFacts.
Section ExtractFacts.

Import AMDN Extract.

Context `{Domain} {Model : Type}.
Context (observer slaf arms locm
           : ObservationLists -> kwargs -> Call (Model := Model)).

Lemma debug_is_no_parameter (debug : bool) (kw : kwargs) :
  bind_keywords ["cls"; "obs_lists"; "occ_threshold"] ["cls"; "obs_lists"] ∅
                (("debug", VBool debug) :: kw)
  = Throw (Builtin TypeError).
Proof.
  cbn [bind_keywords]. rewrite decide_False; [done|].
  intros Hin. repeat (apply elem_of_cons in Hin as [Heq|Hin];
                      [discriminate Heq|]).
  by apply not_elem_of_nil in Hin.
Qed.

Lemma occ_threshold_is_bound (v : value) :
  bind_keywords ["cls"; "obs_lists"; "occ_threshold"] ["cls"; "obs_lists"] ∅
                [("occ_threshold", v)]
  = Return (<["occ_threshold" := v]> ∅).
Proof.
  cbn [bind_keywords]. rewrite decide_True.
  - rewrite decide_False; [done|]. intros [Hin|Hin].
    + repeat (apply elem_of_cons in Hin as [Heq|Hin]; [discriminate Heq|]).
      by apply not_elem_of_nil in Hin.
    + rewrite lookup_empty in Hin. by destruct Hin.
  - do 2 right. by left.
Qed.

(** [Extract] hands every technique the keyword [debug], which
    [AMDN.__new__] does not take: with the mode [AMDN] the call raises
    [ValueError] for a collection without traces, as with every mode,
    and [TypeError] for any other, before [AMDN.__new__] runs, so that
    no formula is converted. Called directly with [occ_threshold] alone,
    [AMDN] does run. *)
Theorem extract_cannot_run_amdn obs_tracelist (debug : bool) (kw : kwargs)
    (s : Supply) :
  (forall mode, traces obs_tracelist = [] ->
     Extract observer slaf arms locm obs_tracelist mode debug kw s =
     (Throw (ValueError "ObservationList is empty. Nothing to extract from."),
      s)) /\
  (traces obs_tracelist <> [] ->
     Extract observer slaf arms locm obs_tracelist Py.AMDN debug kw s =
     (Throw (Builtin TypeError), s)) /\
  (forall occ_threshold : Z,
     call_AMDN (Model := Model) obs_tracelist
               [("occ_threshold", VInt occ_threshold)] s =
     match new obs_tracelist occ_threshold s with
     | (Ok _, s') => (Return None, s')
     | (Raise e, s') => (Throw (Builtin e), s')
     end).
Proof.
  split; [|split].
  - intros mode Hnone. unfold Extract. rewrite Hnone. reflexivity.
  - intros Hsome. unfold Extract.
    destruct (decide (length (traces obs_tracelist) = 0)) as [Hlen|_].
    + by apply length_zero_iff_nil in Hlen.
    + unfold call_AMDN. by rewrite debug_is_no_parameter.
  - intros occ_threshold. unfold call_AMDN.
    rewrite occ_threshold_is_bound, lookup_insert_eq. reflexivity.
Qed.

End ExtractFacts.
End ExtractFacts.

(** ** States and the dicts they refer to *)

Module StateFacts.
Section StateFacts.

Import StateObject.

Context {Fluent : Type} `{EqDecision Fluent} (name : Fluent -> string).

Implicit Types (d : pydict (Fluent := Fluent)) (h : heap (Fluent := Fluent))
               (self : State) (k f : Fluent) (v b : bool).

Lemma getitem_setitem d k v : dict_getitem (dict_setitem d k v) k = Ok v.
Proof.
  unfold dict_getitem, dict_setitem.
  destruct (decide (k ∈ d.*1)) as [Hin|Hout].
  - induction d as [|[k' v'] d IH]; [by apply not_elem_of_nil in Hin|].
    rewrite fmap_cons. simpl. destruct (decide (k' = k)) as [->|Hne].
    + simpl. by rewrite decide_True.
    + simpl. rewrite decide_False by done.
      rewrite fmap_cons in Hin. apply elem_of_cons in Hin as [Heq|Hin];
        [by subst|].
      specialize (IH Hin).
      destruct (list_find _ _) as [[i kv]|]; [|done]. simpl. exact IH.
  - induction d as [|[k' v'] d IH].
    + simpl. by rewrite decide_True.
    + rewrite fmap_cons in Hout. apply not_elem_of_cons in Hout as [Hne Hout].
      simpl. rewrite decide_False by done.
      specialize (IH Hout). simpl in IH.
      destruct (list_find _ _) as [[i kv]|]; [|done]. simpl. exact IH.
Qed.

Lemma read_insert h l d : l < length h -> read (<[l := d]> h) l = d.
Proof.
  intros Hl. unfold read, heap, pydict in *. by rewrite list_lookup_insert_eq.
Qed.

(** [clone] is no copy. The clone refers to the dict of the original:
    what is assigned through either is read through the other. The dict
    [copy] returns is another one, which a later assignment to the state
    leaves as it was. Two states made without argument refer to the one
    default dict and share their entries likewise. *)
Theorem clone_shares_the_dict self k v h :
  fluents self < length h ->
  __getitem__ self k (__setitem__ (clone self) k v h) = Ok v /\
  __getitem__ (clone self) k (__setitem__ self k v h) = Ok v /\
  read (__setitem__ self k v (copy self h).2) (copy self h).1
    = read h (fluents self) /\
  __getitem__ (init None) k (__setitem__ (init None) k v heap0) = Ok v.
Proof.
  intros Hl. unfold __getitem__, __setitem__, clone, init, copy. simpl.
  split; [|split; [|split]].
  - by rewrite read_insert, getitem_setitem.
  - by rewrite read_insert, getitem_setitem.
  - unfold read, heap, pydict in *.
    rewrite list_lookup_insert_ne by lia.
    by rewrite lookup_app_r, Nat.sub_diag by lia.
  - exact (getitem_setitem [] k v).
Qed.

Lemma named_last (l : list Fluent) (n : string) :
  forall m : gmap string Fluent,
  foldl (fun fluents f => <[name f := f]> fluents) m l !! n =
  match last (filter (fun f => name f = n) l) with
  | Some f => Some f
  | None => m !! n
  end.
Proof.
  induction l as [|f l IH] using rev_ind; intros m; [done|].
  rewrite foldl_app, filter_app. simpl.
  rewrite filter_cons, filter_nil.
  destruct (decide (name f = n)) as [<-|Hne].
  - by rewrite last_snoc, lookup_insert_eq.
  - rewrite app_nil_r, lookup_insert_ne by done. apply IH.
Qed.

Lemma getitem_of_key d k : k ∈ d.*1 -> exists b, dict_getitem d k = Ok b.
Proof.
  intros Hin. unfold dict_getitem.
  destruct (list_find (fun kv => kv.1 = k) d) as [[i kv]|] eqn:Hfind.
  - by eexists.
  - apply list_find_None in Hfind.
    apply list_elem_of_fmap in Hin as (kv & -> & Hkv).
    rewrite Forall_forall in Hfind. by destruct (Hfind kv Hkv).
Qed.

Lemma last_named (l : list Fluent) (n : string) (g : Fluent) :
  last (filter (fun f => name f = n) l) = Some g -> g ∈ l /\ name g = n.
Proof.
  intros Hlast. apply last_Some in Hlast as [l' Hl'].
  assert (g ∈ filter (fun f => name f = n) l) as Hin.
  { rewrite Hl'. apply elem_of_app. right. by left. }
  by apply list_elem_of_filter in Hin as [? ?].
Qed.

Lemma none_named (l : list Fluent) (n : string) :
  last (filter (fun f => name f = n) l) = None ->
  forall f, f ∈ l -> name f <> n.
Proof.
  intros Hlast f Hf Hname. apply last_None in Hlast.
  assert (f ∈ filter (fun f => name f = n) l) as Hin
    by (by apply list_elem_of_filter).
  rewrite Hlast in Hin. by apply not_elem_of_nil in Hin.
Qed.

(** [holds] never raises. It returns [None] exactly when no fluent of
    the state has the given name; otherwise it returns the value of a
    fluent of that name, the one inserted last; so where the names tell
    the fluents of the state apart, [holds (name f)] is [state[f]]. *)
Theorem holds_reads_the_named_fluent self (fluent : string) h :
  (holds name self fluent h = Ok None <->
   forall f, f ∈ keys self h -> name f <> fluent) /\
  (forall r, holds name self fluent h = Ok (Some r) ->
     exists f, last (filter (fun f => name f = fluent) (keys self h)) = Some f /\
               __getitem__ self f h = Ok r) /\
  is_Ok (holds name self fluent h) = true /\
  ((forall f g, f ∈ keys self h -> g ∈ keys self h -> name f = name g -> f = g) ->
   forall f, f ∈ keys self h ->
     holds name self (name f) h = (b ← __getitem__ self f h; Ok (Some b))).
Proof.
  assert ((forall f g, f ∈ keys self h -> g ∈ keys self h ->
             name f = name g -> f = g) ->
          forall f, f ∈ keys self h ->
            holds name self (name f) h
            = (b ← __getitem__ self f h; Ok (Some b))) as Hinjective.
  { intros Hinj f Hf. unfold holds. rewrite named_last, lookup_empty.
    destruct (last (filter (fun g => name g = name f) (keys self h)))
      as [g|] eqn:Hlast.
    - apply last_named in Hlast as [Hg Hname].
      by rewrite (Hinj g f Hg Hf Hname).
    - by destruct (none_named _ _ Hlast f Hf). }
  split; [|split; [|split]]; [| | |exact Hinjective].
  all: unfold holds; rewrite named_last, lookup_empty.
  all: destruct (last (filter (fun f => name f = fluent) (keys self h)))
         as [g|] eqn:Hlast.
  all: try (pose proof (last_named _ _ _ Hlast) as [Hg Hname];
            destruct (getitem_of_key _ _ Hg) as [b Hb];
            unfold __getitem__; rewrite Hb; simpl).
  - split; [intros Hd; discriminate Hd|].
    intros Hnone. by destruct (Hnone g Hg Hname).
  - split; [intros _; by apply none_named|done].
  - intros r [= <-]. exists g. split; [done|exact Hb].
  - intros r Hr. discriminate Hr.
  - done.
  - done.
Qed.

End StateFacts.
End StateFacts.

(** ** Action observations *)

Module ActionObservationFacts.
Section ActionObservationFacts.

Import StateObject ActionObservation.

Context {Fluent Action StepState : Type} `{EqDecision Fluent}
        (name : Fluent -> string).
Context (action_clone : Action -> Action) (details : Action -> string).

(** An action observation answers from the action of its step alone:
    a [fluent_holds] query matches the value [None] and no other,
    whatever the state of the step; two steps with the same action give
    the same answer to every query; a key other than [action] and
    [fluent_holds] raises [InvalidQueryParameter]. *)
Theorem action_observations_know_no_state
    (step other : Step (Action := Action) (StepState := StepState))
    (key : string) (value : option string) (h : heap (Fluent := Fluent)) :
  _matches name details (init action_clone step) "fluent_holds" value h
    = Return (Some (bool_decide (value = None))) /\
  (step_action step = step_action other ->
   _matches name details (init action_clone step) key value h
   = _matches name details (init action_clone other) key value h) /\
  (key <> "action" -> key <> "fluent_holds" ->
   _matches name details (init action_clone step) key value h
   = Throw (InvalidQueryParameter "ActionObservation" key)).
Proof.
  split; [reflexivity|]. split.
  - intros Hact. unfold _matches, init. simpl. by rewrite Hact.
  - intros Hk1 Hk2. unfold _matches.
    by rewrite !decide_False by done.
Qed.

End ActionObservationFacts.
End ActionObservationFacts.

(** ** The objects at samples *)

Module ObjectCases.

Import AMDN Sample Extract StateObject.

(** [pick_drop] through [Extract], with techniques that return
    [None]. *)
Lemma extract_rejects_pick_drop :
  traces pick_drop <> [] /\
  Extract (Model := unit)
          (fun _ _ s => (Return None, s)) (fun _ _ s => (Return None, s))
          (fun _ _ s => (Return None, s)) (fun _ _ s => (Return None, s))
          pick_drop Py.AMDN false [("occ_threshold", VInt 0)] 0
  = (Throw (Builtin TypeError), 0).
Proof.
  assert (traces pick_drop <> []) as Hsome by discriminate.
  split; [exact Hsome|].
  destruct (ExtractFacts.extract_cannot_run_amdn (Model := unit)
              (fun _ _ s => (Return None, s)) (fun _ _ s => (Return None, s))
              (fun _ _ s => (Return None, s)) (fun _ _ s => (Return None, s))
              pick_drop false [("occ_threshold", VInt 0)] 0)
    as (_ & Hamdn & _).
  exact (Hamdn Hsome).
Defined.

(** A clone of the state made without argument. *)
Lemma assigning_through_the_clone :
  fluents (init None) < length (heap0 (Fluent := string)) /\
  __getitem__ (init None) "holding a"
              (__setitem__ (clone (init None)) "holding a" true heap0)
  = Ok true.
Proof.
  assert (fluents (init None) < length (heap0 (Fluent := string))) as Hl
    by (unfold init, heap0, default_fluents; simpl; lia).
  split; [exact Hl|].
  destruct (StateFacts.clone_shares_the_dict
              (init None) "holding a" true heap0 Hl) as (Hclone & _).
  exact Hclone.
Defined.

End ObjectCases.

(** ** What the encoder of [serialize] accepts *)

Module EncoderFacts.
Section EncoderFacts.

Import Model Conditions.

Context `{Json}.

Lemma pyobj_nested_ind (P : pyobj -> Prop) :
  P PyNone -> (forall b, P (PyBool b)) -> (forall z, P (PyInt z)) ->
  (forall s, P (PyStr s)) ->
  (forall items, Forall P items -> P (PyList items)) ->
  (forall items, Forall (fun kv => P kv.2) items -> P (PyDict items)) ->
  (forall items, P (PySet items)) ->
  (forall cls attrs, Forall (fun kv => P kv.2) attrs ->
     P (PyInstance cls attrs)) ->
  forall o, P o.
Proof.
  intros HNone HBool HInt HStr HList HDict HSet HInst.
  fix IH 1. intros [| b | z | s | items | items | items | cls attrs].
  - exact HNone.
  - apply HBool.
  - apply HInt.
  - apply HStr.
  - apply HList. induction items as [|x items IHitems]; constructor.
    + apply IH.
    + exact IHitems.
  - apply HDict. induction items as [|[k x] items IHitems]; constructor.
    + apply IH.
    + exact IHitems.
  - apply HSet.
  - apply HInst. induction attrs as [|[k x] attrs IHattrs]; constructor.
    + apply IH.
    + exact IHattrs.
Qed.

Lemma encode_PyList items :
  encode (PyList items) = (js ← encode_list items; Ok (JArray js)).
Proof. reflexivity. Qed.

Lemma encode_PyDict items :
  encode (PyDict items) = (ms ← encode_members items; Ok (JObject ms)).
Proof. reflexivity. Qed.

Lemma encode_PyInstance cls attrs :
  encode (PyInstance cls attrs)
  = (ms ← encode_members attrs; Ok (JObject ms)).
Proof. reflexivity. Qed.

Lemma encode_list_accepts items :
  Forall accepts items ->
  match encode_list items with
  | Ok _ => existsb has_set items = false
  | Raise e => e = AttributeError /\ existsb has_set items = true
  end.
Proof.
  induction 1 as [|x items Hx _ IH]; [done|].
  unfold accepts in Hx. cbn [encode_list existsb].
  destruct (encode x) as [j|e].
  - rewrite bind_Ok, Hx. simpl.
    destruct (encode_list items) as [js|e]; [done|]. exact IH.
  - rewrite bind_Raise. destruct Hx as [-> ->]. done.
Qed.

Lemma encode_members_accepts items :
  Forall (fun kv : string * pyobj => accepts kv.2) items ->
  match encode_members items with
  | Ok _ => existsb (fun kv => has_set kv.2) items = false
  | Raise e => e = AttributeError /\
               existsb (fun kv => has_set kv.2) items = true
  end.
Proof.
  induction 1 as [|[k x] items Hx _ IH]; [done|].
  unfold accepts in Hx. simpl in Hx. cbn [encode_members existsb]. simpl.
  destruct (encode x) as [j|e].
  - rewrite bind_Ok, Hx. simpl.
    destruct (encode_members items) as [js|e]; [done|]. exact IH.
  - rewrite bind_Raise. destruct Hx as [-> ->]. done.
Qed.

Lemma encode_accepts o : accepts o.
Proof.
  induction o as [| | | | items IH | items IH | items | cls attrs IH]
    using pyobj_nested_ind; try done.
  - unfold accepts. rewrite encode_PyList.
    pose proof (encode_list_accepts items IH) as Hl.
    destruct (encode_list items); exact Hl.
  - unfold accepts. rewrite encode_PyDict.
    pose proof (encode_members_accepts items IH) as Hl.
    destruct (encode_members items); exact Hl.
  - unfold accepts. rewrite encode_PyInstance.
    pose proof (encode_members_accepts attrs IH) as Hl.
    destruct (encode_members attrs); exact Hl.
Qed.

(** The encoder [serialize] sets up, with the hook that reads
    [__dict__], returns for exactly the values in which no set is
    reachable, through lists, dicts and the attributes of instances; for
    the others it raises [AttributeError], and so does [dumps]. *)
Theorem encoder_rejects_sets_only (o : pyobj) :
  is_Ok (encode o) = negb (has_set o) /\
  is_Ok (dumps o) = negb (has_set o) /\
  (forall e, dumps o = Raise e -> e = AttributeError).
Proof.
  pose proof (encode_accepts o) as Ho. unfold accepts in Ho. unfold dumps.
  destruct (encode o) as [j|e].
  - rewrite Ho. repeat split. intros e He. discriminate He.
  - destruct Ho as [-> ->]. repeat split. by intros e [= <-].
Qed.

End EncoderFacts.
End EncoderFacts.
